(** * tm2bd: dependency-graph resolution and resumable synchronisation

    A shallow embedding of the TypeScript sources of tm2bd
    (schemas/taskmaster.ts, utils/topological-sort.ts, mapping/id-mapper.ts,
    sync/epic-creator.ts, sync/child-creator.ts, sync/status-syncer.ts,
    sync/dependency-wirer.ts, beads/cli.ts and the command of index.ts)
    together with the properties of the specification that concern them
    and further properties of the code.

    Conventions of the embedding:
    - task and subtask ids are integers ([Z]); JavaScript [Set<number>] and
      [Map<number, _>] are stdpp's [gset Z] and [gmap Z _]; a number in a
      message is its decimal numeral ([pretty]);
    - a file holds the JSON value its text denotes; the file system is the
      documents by path together with the paths whose writes the platform
      rejects;
    - arrays are lists, [push] appends at the end;
    - a thrown [Error] is the constructor [Throw] carrying the message;
    - closures that mutate captured variables thread an explicit state
      record; the recursive closures take a fuel argument and answer [None]
      when it runs out, which the theorems show never happens at the top;
    - the phases that talk to the tracker run in a state-and-error monad
      over the shared mapper and the log of the calls issued. *)

From Stdlib Require Import Ascii.
From stdpp Require Import gmap strings list fin_maps sorting pretty relations.

Local Open Scope Z_scope.
#[local] Set Warnings "-clear-no-such-hyp".

(** ** Data model (schemas/taskmaster.ts) *)

Inductive TaskMasterStatus :=
  | pending | in_progress | done | deferred | cancelled | blocked.

Inductive TaskMasterPriority := high | medium | low.

Record TaskMasterSubtask := {
  subtask_id : Z;
  subtask_title : string;
  subtask_description : string;
  subtask_status : TaskMasterStatus;
  subtask_dependencies : option (list Z);
  subtask_details : option string;
}.

Record TaskMasterTask := {
  task_id : Z;
  task_title : string;
  task_description : string;
  task_status : TaskMasterStatus;
  task_priority : TaskMasterPriority;
  task_dependencies : list Z;
  task_complexity : option Z;
  task_subtasks : option (list TaskMasterSubtask);
  task_details : option string;
  task_testStrategy : option string;
}.

(** The literal a status has in the input document. *)
Definition status_literal (s : TaskMasterStatus) : string :=
  match s with
  | pending => "pending"
  | in_progress => "in-progress"
  | done => "done"
  | deferred => "deferred"
  | cancelled => "cancelled"
  | blocked => "blocked"
  end.

(** ** Outcomes of code that may throw *)

Inductive outcome (A : Type) : Type :=
  | Return (a : A)
  | Throw (message : string).
Arguments Return {A} a.
Arguments Throw {A} message.

(** [new Map(tasks.map((t) => [t.id, t]))]: a later entry with the same key
    replaces an earlier one. *)
Definition taskMap (tasks : list TaskMasterTask) : gmap Z TaskMasterTask :=
  foldl (λ m t, <[task_id t := t]> m) ∅ tasks.

(** [Array.prototype.sort(cmp)]: a stable sort; [x] stays in front of the
    later elements it does not compare greater than. *)
Fixpoint sort_insert {A} (cmp : A → A → Z) (x : A) (l : list A) : list A :=
  match l with
  | [] => [x]
  | y :: l' =>
      if decide (cmp x y ≤ 0) then x :: y :: l' else y :: sort_insert cmp x l'
  end.

Definition sort {A} (cmp : A → A → Z) (l : list A) : list A :=
  foldr (sort_insert cmp) [] l.

(** ** Topological tiering sort ([topologicalSort], utils/topological-sort.ts) *)

Module TopologicalSort.

Record SortedTask := { task : TaskMasterTask; tier : Z }.

(** The variables captured by the closure [visit]. *)
Record State := {
  visited : gset Z;
  visiting : gset Z;
  sorted : list SortedTask;
  tierMap : gmap Z Z;
}.

Definition initial : State :=
  {| visited := ∅; visiting := ∅; sorted := []; tierMap := ∅ |}.

Definition circularMessage (taskId : Z) : string :=
  "Circular dependency detected involving task " +:+ pretty taskId.

Definition notFoundMessage (taskId : Z) : string :=
  "Task " +:+ pretty taskId +:+ " referenced but not found".

(** [visiting.add(taskId)] *)
Definition enter (taskId : Z) (st : State) : State :=
  {| visited := visited st; visiting := {[taskId]} ∪ visiting st;
     sorted := sorted st; tierMap := tierMap st |}.

(** The four statements that follow the loop over the dependencies:
    [tierMap.set], [visiting.delete], [visited.add], [sorted.push]. *)
Definition leave (taskId : Z) (t : TaskMasterTask) (tr : Z) (st : State)
    : State :=
  {| visited := {[taskId]} ∪ visited st;
     visiting := visiting st ∖ {[taskId]};
     sorted := sorted st ++ [{| task := t; tier := tr |}];
     tierMap := <[taskId := tr]> (tierMap st) |}.

(** The loop [for (const depId of task.dependencies)], over a given
    [visit]; it carries [maxDepTier]. *)
Fixpoint visitDeps (visit : Z → State → option (outcome (Z * State)))
    (deps : list Z) (maxDepTier : Z) (st : State)
    : option (outcome (Z * State)) :=
  match deps with
  | [] => Some (Return (maxDepTier, st))
  | depId :: deps' =>
      match visit depId st with
      | Some (Return (depTier, st')) =>
          visitDeps visit deps' (Z.max maxDepTier depTier) st'
      | Some (Throw m) => Some (Throw m)
      | None => None
      end
  end.

(** [tierMap.get(taskId)!]: the assertion is erased at run time; the
    invariant [visited ⊆ dom tierMap] (lemma [inv_tier_defined]) makes the
    lookup succeed whenever it is evaluated. *)
Definition getTier (st : State) (taskId : Z) : Z :=
  default 0 (tierMap st !! taskId).

(** [None] stands for exhausted fuel, an artefact of the embedding that
    never shows at the top (lemma [topologicalSort_cases]). *)
Fixpoint visit (tm : gmap Z TaskMasterTask) (fuel : nat) (taskId : Z)
    (st : State) : option (outcome (Z * State)) :=
  match fuel with
  | O => None
  | S fuel' =>
      if decide (taskId ∈ visited st) then Some (Return (getTier st taskId, st))
      else if decide (taskId ∈ visiting st) then
        Some (Throw (circularMessage taskId))
      else
        match tm !! taskId with
        | None => Some (Throw (notFoundMessage taskId))
        | Some t =>
            match visitDeps (visit tm fuel') (task_dependencies t) (-1)
                    (enter taskId st) with
            | Some (Return (maxDepTier, st')) =>
                let tr := maxDepTier + 1 in
                Some (Return (tr, leave taskId t tr st'))
            | Some (Throw m) => Some (Throw m)
            | None => None
            end
        end
  end.

(** The loop [for (const task of tasks) if (!visited.has(task.id)) visit(task.id)]. *)
Fixpoint visitAll (tm : gmap Z TaskMasterTask) (fuel : nat)
    (tasks : list TaskMasterTask) (st : State) : option (outcome State) :=
  match tasks with
  | [] => Some (Return st)
  | t :: tasks' =>
      if decide (task_id t ∈ visited st) then visitAll tm fuel tasks' st
      else
        match visit tm fuel (task_id t) st with
        | Some (Return (_, st')) => visitAll tm fuel tasks' st'
        | Some (Throw m) => Some (Throw m)
        | None => None
        end
  end.

(** The comparator handed to [sort]. *)
Definition compareSorted (a b : SortedTask) : Z :=
  if decide (tier a ≠ tier b) then tier a - tier b
  else task_id (task a) - task_id (task b).

(** Every nested call of [visit] that gets past its guards puts a fresh key
    of [taskMap] on the stack, so one more unit of fuel than there are keys
    is enough. *)
Definition topologicalSort (tasks : list TaskMasterTask)
    : option (outcome (list SortedTask)) :=
  let tm := taskMap tasks in
  match visitAll tm (S (size tm)) tasks initial with
  | Some (Return st) => Some (Return (sort compareSorted (sorted st)))
  | Some (Throw m) => Some (Throw m)
  | None => None
  end.

End TopologicalSort.

(** ** Dependency graph validator (schemas/taskmaster.ts) *)

Record ValidationResult := { valid : bool; errors : list string }.

Definition missingDependencyMessage (taskId depId : Z) : string :=
  "Task " +:+ pretty taskId +:+ " depends on non-existent task " +:+ pretty depId.

(** The two nested [for ... of] loops pushing onto [errors]. *)
Definition validateDependencyIds (tasks : list TaskMasterTask)
    : ValidationResult :=
  let validIds : gset Z := list_to_set (task_id <$> tasks) in
  let errors :=
    foldl (λ errors t,
      foldl (λ errors depId,
        if decide (depId ∈ validIds) then errors
        else errors ++ [missingDependencyMessage (task_id t) depId])
        errors (task_dependencies t))
      [] tasks in
  {| valid := bool_decide (length errors = 0%nat); errors := errors |}.

(** [Array.prototype.indexOf]: the first index holding [x], or -1. *)
Fixpoint indexOfFrom (x : Z) (l : list Z) (i : Z) : Z :=
  match l with
  | [] => -1
  | y :: l' => if decide (y = x) then i else indexOfFrom x l' (i + 1)
  end.

Definition indexOf (x : Z) (l : list Z) : Z := indexOfFrom x l 0.

(** [Array.prototype.slice(start)]: a negative [start] counts from the
    end, and the start index is clamped to the array. *)
Definition slice {A} (start : Z) (l : list A) : list A :=
  let len := Z.of_nat (length l) in
  let k := if decide (start < 0) then Z.max (len + start) 0
           else Z.min start len in
  drop (Z.to_nat k) l.

(** [Array.prototype.join(sep)] on strings. *)
Fixpoint join (sep : string) (l : list string) : string :=
  match l with
  | [] => ""
  | x :: l' =>
      match l' with
      | [] => x
      | _ => x +:+ sep +:+ join sep l'
      end
  end.

Module CircularDependencies.

(** The variables captured by the closure [visit]. *)
Record State := {
  visited : gset Z;
  visiting : gset Z;
  errors : list string;
}.

Definition initial : State := {| visited := ∅; visiting := ∅; errors := [] |}.

(** The separator literal, byte for byte as the source file has it. *)
Definition arrow : string := " â†’ ".

Definition cycleMessage (cycle : list Z) : string :=
  "Circular dependency: " +:+ join arrow (pretty <$> cycle).

(** [errors.push(...)] *)
Definition pushError (e : string) (st : State) : State :=
  {| visited := visited st; visiting := visiting st;
     errors := errors st ++ [e] |}.

(** [visiting.add(taskId)] *)
Definition enter (taskId : Z) (st : State) : State :=
  {| visited := visited st; visiting := {[taskId]} ∪ visiting st;
     errors := errors st |}.

(** [visiting.delete(taskId); visited.add(taskId)] *)
Definition leave (taskId : Z) (st : State) : State :=
  {| visited := {[taskId]} ∪ visited st;
     visiting := visiting st ∖ {[taskId]};
     errors := errors st |}.

(** The loop over [task.dependencies]; the value [visit] returns is
    dropped. [None] stands for exhausted fuel. *)
Fixpoint visitDeps (visit : Z → list Z → State → option (bool * State))
    (deps : list Z) (path : list Z) (st : State) : option State :=
  match deps with
  | [] => Some st
  | depId :: deps' =>
      match visit depId path st with
      | Some (_, st') => visitDeps visit deps' path st'
      | None => None
      end
  end.

Fixpoint visit (tm : gmap Z TaskMasterTask) (fuel : nat) (taskId : Z)
    (path : list Z) (st : State) : option (bool * State) :=
  match fuel with
  | O => None
  | S fuel' =>
      if decide (taskId ∈ visited st) then Some (false, st)
      else if decide (taskId ∈ visiting st) then
        let cycleStart := indexOf taskId path in
        let cycle := slice cycleStart path ++ [taskId] in
        Some (true, pushError (cycleMessage cycle) st)
      else
        let st1 := enter taskId st in
        let after :=
          match tm !! taskId with
          | Some t =>
              visitDeps (visit tm fuel') (task_dependencies t)
                (path ++ [taskId]) st1
          | None => Some st1
          end in
        match after with
        | Some st2 => Some (false, leave taskId st2)
        | None => None
        end
  end.

(** The loop [for (const task of tasks) if (!visited.has(task.id)) visit(task.id, [])]. *)
Fixpoint visitAll (tm : gmap Z TaskMasterTask) (fuel : nat)
    (tasks : list TaskMasterTask) (st : State) : option State :=
  match tasks with
  | [] => Some st
  | t :: tasks' =>
      if decide (task_id t ∈ visited st) then visitAll tm fuel tasks' st
      else
        match visit tm fuel (task_id t) [] st with
        | Some (_, st') => visitAll tm fuel tasks' st'
        | None => None
        end
  end.

End CircularDependencies.

(** Fuel: as for the sort, a nested call past the guards either puts a
    fresh key of the task map on the stack or does not recurse. *)
Definition validateCircularDependencies (tasks : list TaskMasterTask)
    : option ValidationResult :=
  let tm := taskMap tasks in
  match CircularDependencies.visitAll tm (S (size tm)) tasks
          CircularDependencies.initial with
  | Some st =>
      Some {| valid := bool_decide (length (CircularDependencies.errors st) = 0%nat);
              errors := CircularDependencies.errors st |}
  | None => None
  end.

(** ** Identifier mapping store (mapping/id-mapper.ts) *)

Module SubtaskMapping.
Record t := { tmId : Z; beadsId : string }.
End SubtaskMapping.

Module TaskMapping.
Record t := { tmId : Z; beadsId : string; subtasks : list SubtaskMapping.t }.
End TaskMapping.

Record MappingFile := {
  version : string;
  generatedAt : string;
  mf_tasks : list TaskMapping.t;
}.

(** The value a JSON document denotes. [JSON.stringify] and [JSON.parse]
    are the platform's; a file written by [writeFile(JSON.stringify(v))]
    is modelled by the JSON value of [v], and reading it back by
    [JSON.parse] yields that value. *)
#[warnings="-register-all"]
Inductive json :=
  | JNull
  | JBool (b : bool)
  | JNumber (n : Z)
  | JString (s : string)
  | JArray (items : list json)
  | JObject (properties : list (string * json)).

(** The JSON value of a [MappingFile] object: one property per field, in
    declaration order. *)
Definition subtaskToJSON (s : SubtaskMapping.t) : json :=
  JObject [("tmId", JNumber (SubtaskMapping.tmId s));
           ("beadsId", JString (SubtaskMapping.beadsId s))].

Definition taskToJSON (t : TaskMapping.t) : json :=
  JObject [("tmId", JNumber (TaskMapping.tmId t));
           ("beadsId", JString (TaskMapping.beadsId t));
           ("subtasks", JArray (subtaskToJSON <$> TaskMapping.subtasks t))].

Definition mappingFileToJSON (f : MappingFile) : json :=
  JObject [("version", JString (version f));
           ("generatedAt", JString (generatedAt f));
           ("tasks", JArray (taskToJSON <$> mf_tasks f))].

(** Property access [obj[name]] on an object given by its own properties. *)
Fixpoint assoc {V} (name : string) (properties : list (string * V))
    : option V :=
  match properties with
  | [] => None
  | (k, v) :: rest => if decide (k = name) then Some v else assoc name rest
  end.

Definition property (name : string) (j : json) : option json :=
  match j with JObject properties => assoc name properties | _ => None end.

Definition asNumber (j : json) : option Z :=
  match j with JNumber n => Some n | _ => None end.

Definition asString (j : json) : option string :=
  match j with JString s => Some s | _ => None end.

Definition asArray (j : json) : option (list json) :=
  match j with JArray items => Some items | _ => None end.

(** Reading a parsed value at the types [MappingFile] declares. The
    source casts without validating, so the store it builds holds whatever
    the document holds. A value is read as a [TaskMapping] only when it is
    exactly the JSON value of one: these properties, in this order, and no
    other. Any other value has no reading at these types ([None]). *)
Definition subtaskOfJSON (j : json) : option SubtaskMapping.t :=
  match j with
  | JObject [(k1, JNumber n); (k2, JString b)] =>
      if decide (k1 = "tmId" ∧ k2 = "beadsId")
      then Some {| SubtaskMapping.tmId := n; SubtaskMapping.beadsId := b |}
      else None
  | _ => None
  end.

Definition taskOfJSON (j : json) : option TaskMapping.t :=
  match j with
  | JObject [(k1, JNumber n); (k2, JString b); (k3, JArray items)] =>
      if decide (k1 = "tmId" ∧ k2 = "beadsId" ∧ k3 = "subtasks")
      then
        subs ← mapM subtaskOfJSON items;
        Some {| TaskMapping.tmId := n; TaskMapping.beadsId := b;
                TaskMapping.subtasks := subs |}
      else None
  | _ => None
  end.

Definition tasksOfJSON (j : json) : option (list TaskMapping.t) :=
  (property "tasks" j ≫= asArray) ≫= mapM taskOfJSON.

(** The files the process can reach: the documents they hold, by path, and
    the paths at which the platform rejects a write (a missing directory,
    no permission), each with the message of the error it raises. *)
Record FileSystem := {
  documents : gmap string json;
  rejected : gmap string string;
}.

#[global] Instance FileSystem_empty : Empty FileSystem :=
  {| documents := ∅; rejected := ∅ |}.

(** [fs.writeFile(path, text)]: the write replaces whatever the path held,
    or is rejected and leaves the files as they were. *)
Definition writeFile (path : string) (document : json) (fs : FileSystem)
    : outcome FileSystem :=
  match rejected fs !! path with
  | Some message => Throw message
  | None =>
      Return {| documents := <[path := document]> (documents fs);
                rejected := rejected fs |}
  end.

Module IdMapper.

(** The private field of the class. *)
Record t := { tasks : list TaskMapping.t }.

(** [new IdMapper()] *)
Definition new : t := {| tasks := [] |}.

Definition addEpic (tmId : Z) (beadsId : string) (this : t) : t :=
  {| tasks := tasks this ++
       [{| TaskMapping.tmId := tmId; TaskMapping.beadsId := beadsId;
           TaskMapping.subtasks := [] |}] |}.

Definition notFoundMessage (taskTmId : Z) : string :=
  "Task " +:+ pretty taskTmId +:+ " not found in mapping".

(** [find] returns the first matching element of the array itself, so the
    [push] on its [subtasks] changes the array at that index. *)
Definition addSubtask (taskTmId subtaskTmId : Z) (beadsId : string) (this : t)
    : outcome unit * t :=
  match list_find (λ t, TaskMapping.tmId t = taskTmId) (tasks this) with
  | None => (Throw (notFoundMessage taskTmId), this)
  | Some (i, task) =>
      let task' :=
        {| TaskMapping.tmId := TaskMapping.tmId task;
           TaskMapping.beadsId := TaskMapping.beadsId task;
           TaskMapping.subtasks := TaskMapping.subtasks task ++
             [{| SubtaskMapping.tmId := subtaskTmId;
                 SubtaskMapping.beadsId := beadsId |}] |} in
      (Return (), {| tasks := <[i := task']> (tasks this) |})
  end.

Definition getEpicId (tmId : Z) (this : t) : option string :=
  (λ p, TaskMapping.beadsId p.2) <$>
    list_find (λ t, TaskMapping.tmId t = tmId) (tasks this).

Definition getSubtaskId (taskTmId subtaskTmId : Z) (this : t) : option string :=
  match list_find (λ t, TaskMapping.tmId t = taskTmId) (tasks this) with
  | None => None
  | Some (_, task) =>
      (λ p, SubtaskMapping.beadsId p.2) <$>
        list_find (λ s, SubtaskMapping.tmId s = subtaskTmId)
          (TaskMapping.subtasks task)
  end.

Definition getStats (this : t) : nat * nat :=
  let epicCount := length (tasks this) in
  let childCount :=
    foldl (λ sum t, sum + length (TaskMapping.subtasks t))%nat 0%nat (tasks this) in
  (epicCount, childCount).

(** [now] is the reading of the clock, [new Date().toISOString()]. A
    rejected write makes [save] throw. *)
Definition save (filePath : string) (now : string) (this : t)
    (fs : FileSystem) : outcome FileSystem :=
  let data := {| version := "1.0"; generatedAt := now; mf_tasks := tasks this |} in
  writeFile filePath (mappingFileToJSON data) fs.

(** What [load] hands back. [mapper.tasks = data.tasks] assigns whatever
    the document holds under [tasks], unchecked: the store is a [Mapping]
    when that value is the JSON value of a list of task mappings, and
    otherwise an object whose [tasks] field is the value itself
    ([undefined] when the document has no such property or is no object),
    of which the typed operations of this module say nothing. *)
Inductive Loaded :=
  | Mapping (this : t)
  | Unchecked (tasks : option json).

(** [readFile] throws on a missing file; [data.tasks] throws on the
    document [null]; nothing else is checked. *)
Definition load (filePath : string) (fs : FileSystem) : outcome Loaded :=
  match documents fs !! filePath with
  | None => Throw ("ENOENT: no such file or directory, open '" +:+ filePath +:+ "'")
  | Some JNull => Throw "Cannot read properties of null (reading 'tasks')"
  | Some data =>
      match tasksOfJSON data with
      | Some ts => Return (Mapping {| tasks := ts |})
      | None => Return (Unchecked (property "tasks" data))
      end
  end.

Definition exists_ (filePath : string) (fs : FileSystem) : bool :=
  bool_decide (is_Some (documents fs !! filePath)).

End IdMapper.

(** ** External tracker gateway (beads/cli.ts, at its method interface) *)

Record BeadsCreateResult := { id : string; title : string }.

(** One invocation of the [bd] process, by the method that issues it. *)
Inductive BdCall :=
  | CreateEpic (title description : string) (priority : Z)
  | CreateChild (parentId title description : string)
  | AddDependency (blockedId blockingId : string)
  | UpdateStatus (issueId status : string)
  | Close (issueId : string).

(** The tracker behind the gateway: its answer to a call, given the calls
    issued before it. For the methods that return nothing only
    [Return]/[Throw] matters. *)
Record BeadsCli := { bd : list BdCall → BdCall → outcome BeadsCreateResult }.

(** What the synchronisation phases act on: the mapper object they share
    and the calls issued so far. *)
Record World := { mapper : IdMapper.t; calls : list BdCall }.

(** Code that may throw and that reads and writes the world. *)
Definition Sync (A : Type) : Type := World → outcome A * World.

Definition ret {A} (a : A) : Sync A := λ w, (Return a, w).

Definition throw {A} (message : string) : Sync A := λ w, (Throw message, w).

Definition bind {A B} (m : Sync A) (k : A → Sync B) : Sync B :=
  λ w, match m w with
       | (Return a, w') => k a w'
       | (Throw message, w') => (Throw message, w')
       end.

Notation "x <-- m ;; k" := (bind m (λ x, k))
  (at level 100, m at next level, right associativity).

(** [for (const x of l) body(x)] *)
Fixpoint forEach {A} (l : list A) (body : A → Sync unit) : Sync unit :=
  match l with
  | [] => ret ()
  | x :: l' => _ <-- body x ;; forEach l' body
  end.

(** [await cli.method(...)]: the call is issued, then its answer comes. *)
Definition call (cli : BeadsCli) (c : BdCall) : Sync BeadsCreateResult :=
  λ w, (bd cli (calls w) c, {| mapper := mapper w; calls := calls w ++ [c] |}).

Definition withMapper {A} (f : IdMapper.t → outcome A * IdMapper.t) : Sync A :=
  λ w, let '(r, m) := f (mapper w) in (r, {| mapper := m; calls := calls w |}).

Definition readMapper {A} (f : IdMapper.t → A) : Sync A :=
  λ w, (Return (f (mapper w)), w).

(** JavaScript truthiness of a [string | undefined]: only a non-empty
    string passes [if (x)]. *)
Definition truthy (x : option string) : option string :=
  match x with
  | Some s => if decide (s = "") then None else Some s
  | None => None
  end.

Definition newline : string := String (Ascii.ascii_of_nat 10) EmptyString.

(** ** Epic creation (sync/epic-creator.ts) *)

Definition mapPriority (tmPriority : TaskMasterPriority) : Z :=
  match tmPriority with high => 0 | medium => 1 | low => 2 end.

Definition formatEpicDescription (task : TaskMasterTask) : string :=
  let parts := ["## Description"; task_description task; ""] in
  let parts :=
    match truthy (task_details task) with
    | Some details => parts ++ ["## Implementation Details"; details; ""]
    | None => parts
    end in
  let parts :=
    match truthy (task_testStrategy task) with
    | Some testStrategy => parts ++ ["## Test Strategy"; testStrategy; ""]
    | None => parts
    end in
  let parts := parts ++ ["## Metadata"] in
  let parts := parts ++ ["- Task-Master ID: " +:+ pretty (task_id task)] in
  let parts :=
    match task_complexity task with
    | Some c =>
        if decide (c = 0) then parts
        else parts ++ ["- Complexity: " +:+ pretty c +:+ "/10"]
    | None => parts
    end in
  let parts :=
    parts ++ ["- Original Status: " +:+ status_literal (task_status task)] in
  join newline parts.

Definition createEpic (task : TaskMasterTask) (cli : BeadsCli) : Sync string :=
  let description := formatEpicDescription task in
  let priority := mapPriority (task_priority task) in
  result <-- call cli (CreateEpic (task_title task) description priority) ;;
  _ <-- withMapper (λ m, (Return (), IdMapper.addEpic (task_id task) (id result) m)) ;;
  ret (id result).

(** The progress callback only writes to the console and is left out. *)
Definition createEpics (tasks : list TaskMasterTask) (cli : BeadsCli)
    : Sync unit :=
  forEach tasks (λ task, _ <-- createEpic task cli ;; ret ()).

(** ** Child creation (sync/child-creator.ts) *)

Definition formatChildDescription (subtask : TaskMasterSubtask) : string :=
  let parts := [subtask_description subtask] in
  let parts :=
    match truthy (subtask_details subtask) with
    | Some details => parts ++ [""; "## Implementation Details"; details]
    | None => parts
    end in
  join newline parts.

(** The body of the loop of [createChildren]. *)
Definition childBody (cli : BeadsCli) (task : TaskMasterTask) (epicId : string)
    (subtask : TaskMasterSubtask) : Sync unit :=
  let description := formatChildDescription subtask in
  result <-- call cli (CreateChild epicId (subtask_title subtask) description) ;;
  withMapper (IdMapper.addSubtask (task_id task) (subtask_id subtask) (id result)).

Definition createChildren (task : TaskMasterTask) (epicId : string)
    (cli : BeadsCli) : Sync unit :=
  match task_subtasks task with
  | None => ret ()
  | Some [] => ret ()
  | Some subtasks =>
      let sortedSubtasks :=
        sort (λ a b, subtask_id a - subtask_id b) subtasks in
      forEach sortedSubtasks (childBody cli task epicId)
  end.

Definition createAllChildren (tasks : list TaskMasterTask) (cli : BeadsCli)
    : Sync unit :=
  forEach tasks (λ task,
    epicId <-- readMapper (IdMapper.getEpicId (task_id task)) ;;
    match truthy epicId with
    | None => throw ("Epic ID not found for task " +:+ pretty (task_id task))
    | Some epicId => createChildren task epicId cli
    end).

(** ** Status propagation (sync/status-syncer.ts) *)

Record StatusAction := { sa_status : option string; sa_close : bool }.

Definition statusMap : list (string * StatusAction) :=
  [("pending", {| sa_status := None; sa_close := false |});
   ("in-progress", {| sa_status := Some "in_progress"; sa_close := false |});
   ("done", {| sa_status := None; sa_close := true |});
   ("deferred", {| sa_status := Some "deferred"; sa_close := false |});
   ("cancelled", {| sa_status := None; sa_close := true |});
   ("blocked", {| sa_status := Some "blocked"; sa_close := false |})].

(** [statusMap[tmStatus] ?? { close: false }] *)
Definition mapStatus (tmStatus : string) : StatusAction :=
  default {| sa_status := None; sa_close := false |} (assoc tmStatus statusMap).

Definition syncEpicStatus (task : TaskMasterTask) (cli : BeadsCli) : Sync unit :=
  epicId <-- readMapper (IdMapper.getEpicId (task_id task)) ;;
  match truthy epicId with
  | None => throw ("Epic ID not found for task " +:+ pretty (task_id task))
  | Some epicId =>
      let a := mapStatus (status_literal (task_status task)) in
      if sa_close a then _ <-- call cli (Close epicId) ;; ret ()
      else
        match truthy (sa_status a) with
        | Some status => _ <-- call cli (UpdateStatus epicId status) ;; ret ()
        | None => ret ()
        end
  end.

(** The body of the loop of [syncSubtaskStatus]. *)
Definition subtaskBody (cli : BeadsCli) (task : TaskMasterTask)
    (subtask : TaskMasterSubtask) : Sync unit :=
  subtaskId <-- readMapper
    (IdMapper.getSubtaskId (task_id task) (subtask_id subtask)) ;;
  match truthy subtaskId with
  | None =>
      throw ("Subtask ID not found for " +:+ pretty (task_id task) +:+
             "." +:+ pretty (subtask_id subtask))
  | Some subtaskId =>
      let a := mapStatus (status_literal (subtask_status subtask)) in
      if sa_close a then _ <-- call cli (Close subtaskId) ;; ret ()
      else
        match truthy (sa_status a) with
        | Some status => _ <-- call cli (UpdateStatus subtaskId status) ;; ret ()
        | None => ret ()
        end
  end.

Definition syncSubtaskStatus (task : TaskMasterTask) (cli : BeadsCli)
    : Sync unit :=
  match task_subtasks task with
  | None => ret ()
  | Some subtasks => forEach subtasks (subtaskBody cli task)
  end.

Definition syncAllStatuses (tasks : list TaskMasterTask) (cli : BeadsCli)
    : Sync unit :=
  forEach tasks (λ task,
    _ <-- syncEpicStatus task cli ;; syncSubtaskStatus task cli).

(** ** Dependency wiring (sync/dependency-wirer.ts) *)

(** [let count = 0; for (const x of l) { ... count++ ... }]: a loop whose
    body may throw and that carries the counter along. *)
Fixpoint forEachCounting {A} (l : list A) (body : A → Z → Sync Z) (count : Z)
    : Sync Z :=
  match l with
  | [] => ret count
  | x :: l' => count' <-- body x count ;; forEachCounting l' body count'
  end.

(** The inner loop of [wireEpicDependencies], over the dependencies of one
    task whose own epic id is [blockedEpicId]. *)
Definition epicDependencyBody (cli : BeadsCli) (blockedEpicId : string)
    (depId : Z) (count : Z) : Sync Z :=
  blockingEpicId <-- readMapper (IdMapper.getEpicId depId) ;;
  match truthy blockingEpicId with
  | None => throw ("Epic ID not found for dependency " +:+ pretty depId)
  | Some blockingEpicId =>
      _ <-- call cli (AddDependency blockedEpicId blockingEpicId) ;;
      ret (count + 1)
  end.

(** The body of the outer loop; a task without dependencies is passed over
    ([continue]) before its epic id is looked up. *)
Definition epicDependenciesOf (cli : BeadsCli) (task : TaskMasterTask)
    (count : Z) : Sync Z :=
  if decide (length (task_dependencies task) = 0%nat) then ret count
  else
    blockedEpicId <-- readMapper (IdMapper.getEpicId (task_id task)) ;;
    match truthy blockedEpicId with
    | None => throw ("Epic ID not found for task " +:+ pretty (task_id task))
    | Some blockedEpicId =>
        forEachCounting (task_dependencies task)
          (epicDependencyBody cli blockedEpicId) count
    end.

Definition wireEpicDependencies (tasks : list TaskMasterTask) (cli : BeadsCli)
    : Sync Z :=
  forEachCounting tasks (epicDependenciesOf cli) 0.

(** The innermost loop of [wireSubtaskDependencies]: the dependency ids of
    a subtask name subtasks of the same task. *)
Definition subtaskDependencyBody (cli : BeadsCli) (task : TaskMasterTask)
    (blockedId : string) (depId : Z) (count : Z) : Sync Z :=
  blockingId <-- readMapper (IdMapper.getSubtaskId (task_id task) depId) ;;
  match truthy blockingId with
  | None =>
      throw ("Subtask ID not found for dependency " +:+ pretty (task_id task)
             +:+ "." +:+ pretty depId)
  | Some blockingId =>
      _ <-- call cli (AddDependency blockedId blockingId) ;;
      ret (count + 1)
  end.

(** The loop over the subtasks of one task; a subtask whose dependency
    list is absent or empty is passed over. *)
Definition subtaskDependenciesOf (cli : BeadsCli) (task : TaskMasterTask)
    (subtask : TaskMasterSubtask) (count : Z) : Sync Z :=
  match subtask_dependencies subtask with
  | None => ret count
  | Some [] => ret count
  | Some dependencies =>
      blockedId <-- readMapper
        (IdMapper.getSubtaskId (task_id task) (subtask_id subtask)) ;;
      match truthy blockedId with
      | None =>
          throw ("Subtask ID not found for " +:+ pretty (task_id task) +:+
                 "." +:+ pretty (subtask_id subtask))
      | Some blockedId =>
          forEachCounting dependencies
            (subtaskDependencyBody cli task blockedId) count
      end
  end.

(** The body of the outer loop; a task without a subtask list is passed
    over. *)
Definition subtaskDependenciesIn (cli : BeadsCli) (task : TaskMasterTask)
    (count : Z) : Sync Z :=
  match task_subtasks task with
  | None => ret count
  | Some subtasks =>
      forEachCounting subtasks (subtaskDependenciesOf cli task) count
  end.

Definition wireSubtaskDependencies (tasks : list TaskMasterTask)
    (cli : BeadsCli) : Sync Z :=
  forEachCounting tasks (subtaskDependenciesIn cli) 0.

Record DependencyCounts := { epicDeps : Z; subtaskDeps : Z }.

Definition wireAllDependencies (tasks : list TaskMasterTask) (cli : BeadsCli)
    : Sync DependencyCounts :=
  epicDeps <-- wireEpicDependencies tasks cli ;;
  subtaskDeps <-- wireSubtaskDependencies tasks cli ;;
  ret {| epicDeps := epicDeps; subtaskDeps := subtaskDeps |}.

(** ** Tag-wrapped documents ([unwrapTaggedFormat], schemas/taskmaster.ts) *)

(** ['tasks' in obj] on a value that [JSON.parse] built: the name is one of
    the object's own properties. No other kind of value has the name. *)
Definition hasTasks (j : json) : bool :=
  bool_decide (is_Some (property "tasks" j)).

(** [Object.keys(obj)] is the list of the property names; [obj[keys[0]]]
    the value of the first. An object built by [JSON.parse] has each
    property name once. The number payloads of the document play no
    part. *)
Definition unwrapTaggedFormat (raw : json) : json :=
  match raw with
  | JObject properties =>
      if hasTasks raw then raw
      else
        match properties.*1 with
        | [key] =>
            match assoc key properties with
            | Some (JObject innerProperties) =>
                if hasTasks (JObject innerProperties)
                then JObject innerProperties else raw
            | _ => raw
            end
        | _ => raw
        end
  | _ => raw
  end.

(** ** The [sync] command (index.ts) *)

Module Options.
Record t := {
  tasks : string;
  project : string;
  dryRun : bool;
  force : bool;
  resume : bool;
  mapFile : string;
  verbose : bool;
}.
End Options.

(** How the action ends: [process.exit(code)], or by running to its last
    statement. *)
Inductive Termination :=
  | Exit (code : Z)
  | Finished.

(** What a run leaves behind: the files, and the calls it issued to the
    tracker. *)
Record Run := {
  termination : Termination;
  files : FileSystem;
  issued : list BdCall;
}.

(** [project.tasks.reduce((s, t) => s + (t.subtasks?.length ?? 0), 0)] *)
Definition totalSubtasks (tasks : list TaskMasterTask) : Z :=
  foldl (λ s t, s + Z.of_nat (length (default [] (task_subtasks t)))) 0 tasks.

(** [sorted.length > 0 ? Math.max(...sorted.map((s) => s.tier)) + 1 : 0] *)
Definition maxTier (sorted : list TopologicalSort.SortedTask) : Z :=
  match TopologicalSort.tier <$> sorted with
  | [] => 0
  | t :: tiers => foldl Z.max t tiers + 1
  end.

(** The four phases that talk to the tracker, in the order of the action. *)
Definition syncPhases (tasks sortedTasks : list TaskMasterTask)
    (cli : BeadsCli) : Sync DependencyCounts :=
  _ <-- createEpics sortedTasks cli ;;
  _ <-- (if decide (0 < totalSubtasks tasks)
         then createAllChildren sortedTasks cli else ret ()) ;;
  depCounts <-- wireAllDependencies tasks cli ;;
  _ <-- syncAllStatuses tasks cli ;;
  ret depCounts.

(** The action of the command. Console output is left out. The
    environment enters through four values: [isInit], the answer of
    [cli.checkInit()]; [parsed], the result of [parseTasksJson(options.tasks)];
    [now], the clock read by [save]; and the files [fs]. Every error caught
    by the [try] ends the process with code 1, a rejected write of [save]
    included. [None] is a run the embedding does not follow to its end:
    exhausted fuel in one of the two traversals, or the phases started on
    a store that [load] took unchecked from a document that is no mapping
    file. *)
Definition syncAction (options : Options.t) (isInit : bool)
    (parsed : outcome (list TaskMasterTask)) (now : string) (cli : BeadsCli)
    (fs : FileSystem) : option Run :=
  let exit code calls :=
    Some {| termination := Exit code; files := fs; issued := calls |} in
  if negb isInit then exit 1 []
  else
    let mapExists := IdMapper.exists_ (Options.mapFile options) fs in
    if mapExists && negb (Options.force options) && negb (Options.resume options)
    then exit 1 []
    else
      let loaded :=
        if Options.resume options && mapExists
        then IdMapper.load (Options.mapFile options) fs
        else Return (IdMapper.Mapping IdMapper.new) in
      match loaded, parsed with
      | Throw _, _ => exit 1 []
      | Return _, Throw _ => exit 1 []
      | Return store, Return tasks =>
          if negb (valid (validateDependencyIds tasks)) then exit 1 []
          else
            match validateCircularDependencies tasks with
            | None => None
            | Some circResult =>
                if negb (valid circResult) then exit 1 []
                else
                  match TopologicalSort.topologicalSort tasks with
                  | None => None
                  | Some (Throw _) => exit 1 []
                  | Some (Return sorted) =>
                      let sortedTasks := TopologicalSort.task <$> sorted in
                      if Options.dryRun options then exit 0 []
                      else
                        match store with
                        | IdMapper.Unchecked _ => None
                        | IdMapper.Mapping mapper0 =>
                            match syncPhases tasks sortedTasks cli
                                    {| mapper := mapper0; calls := [] |} with
                            | (Throw _, w) => exit 1 (calls w)
                            | (Return _, w) =>
                                match IdMapper.save (Options.mapFile options)
                                        now (mapper w) fs with
                                | Throw _ => exit 1 (calls w)
                                | Return fs' =>
                                    Some {| termination := Finished;
                                            files := fs';
                                            issued := calls w |}
                                end
                            end
                        end
                  end
            end
      end.

(** ** The gateway's command lines (class [BeadsCli], beads/cli.ts) *)

(** The argument vectors the methods hand to [exec]. [if (description)]
    lets only a non-empty description through; [priority.toString()] is
    the decimal numeral. *)
Definition createEpicArgs (title description : string) (priority : Z)
    : list string :=
  let args := ["create"; title; "-t"; "epic"; "-p"; pretty priority; "--json"] in
  if decide (description = "") then args else args ++ ["-d"; description].

Definition createChildArgs (parentId title description : string)
    : list string :=
  let args := ["create"; title; "--parent"; parentId; "--json"] in
  if decide (description = "") then args else args ++ ["-d"; description].

Definition addDependencyArgs (blockedId blockingId : string) : list string :=
  ["dep"; "add"; blockedId; blockingId].

Definition updateStatusArgs (issueId status : string) : list string :=
  ["update"; issueId; "-s"; status].

Definition closeArgs (issueId : string) : list string :=
  ["close"; issueId].

(** The argument vector of a call, by the method that issues it. *)
Definition argv (c : BdCall) : list string :=
  match c with
  | CreateEpic title description priority =>
      createEpicArgs title description priority
  | CreateChild parentId title description =>
      createChildArgs parentId title description
  | AddDependency blockedId blockingId => addDependencyArgs blockedId blockingId
  | UpdateStatus issueId status => updateStatusArgs issueId status
  | Close issueId => closeArgs issueId
  end.

(** What [parseCreateOutput] hands back. The source types [title] as a
    string by a cast that checks nothing: the field holds whatever value
    the answer had there. *)
Record ParsedCreateResult := { parsed_id : string; parsed_title : json }.

(** [parse] is [JSON.parse]: the value the text denotes, [None] where it
    throws. Reading [.id] off [null] is a [TypeError]; off any other value
    that is not an object it is [undefined]. [?? ''] replaces only a
    missing or [null] title. *)
Definition parseCreateOutput (parse : string → option json) (output : string)
    : outcome ParsedCreateResult :=
  match parse output with
  | None => Throw ("Failed to parse bd output as JSON: " +:+ output)
  | Some JNull => Throw "Cannot read properties of null (reading 'id')"
  | Some obj =>
      match property "id" obj with
      | Some (JString i) =>
          if decide (i = "")
          then Throw "Unexpected bd create output: missing id field"
          else
            Return {| parsed_id := i;
                      parsed_title :=
                        match property "title" obj with
                        | None | Some JNull => JString ""
                        | Some t => t
                        end |}
      | _ => Throw "Unexpected bd create output: missing id field"
      end
  end.

(** ** Fixtures of the test-suite and of the specification's scenarios *)

(** [makeTask] of topological-sort.test.ts. *)
Definition makeTask (i : Z) (deps : list Z) : TaskMasterTask :=
  {| task_id := i;
     task_title := "Task " +:+ pretty i;
     task_description := "Description for task " +:+ pretty i;
     task_status := pending; task_priority := medium;
     task_dependencies := deps; task_complexity := None;
     task_subtasks := None; task_details := None;
     task_testStrategy := None |}.

(** The mock gateway of the test-suite: every call succeeds; a creation
    answers with the id the mock was built with. *)
Definition mockCli : BeadsCli :=
  {| bd := λ _ c,
       match c with
       | CreateChild _ _ _ => Return {| id := "bd-abc.1"; title := "C" |}
       | _ => Return {| id := "bd-abc"; title := "T" |}
       end |}.

Definition makeSubtask (i : Z) (st : TaskMasterStatus) : TaskMasterSubtask :=
  {| subtask_id := i; subtask_title := "S" +:+ pretty i;
     subtask_description := "D"; subtask_status := st;
     subtask_dependencies := None; subtask_details := None |}.

Definition withStatus (st : TaskMasterStatus) (t : TaskMasterTask)
    : TaskMasterTask :=
  {| task_id := task_id t; task_title := task_title t;
     task_description := task_description t; task_status := st;
     task_priority := task_priority t;
     task_dependencies := task_dependencies t;
     task_complexity := task_complexity t;
     task_subtasks := task_subtasks t; task_details := task_details t;
     task_testStrategy := task_testStrategy t |}.

Definition withSubtasks (subs : list TaskMasterSubtask) (t : TaskMasterTask)
    : TaskMasterTask :=
  {| task_id := task_id t; task_title := task_title t;
     task_description := task_description t; task_status := task_status t;
     task_priority := task_priority t;
     task_dependencies := task_dependencies t;
     task_complexity := task_complexity t;
     task_subtasks := Some subs; task_details := task_details t;
     task_testStrategy := task_testStrategy t |}.

(** The task set of the specification's scenario A, given out of order. *)
Definition scenarioA : list TaskMasterTask :=
  [makeTask 3 [1; 2]; makeTask 1 []; makeTask 2 [1]].

(** Scenario A in ascending id order. *)
Definition scenarioA' : list TaskMasterTask :=
  [makeTask 1 []; makeTask 2 [1]; makeTask 3 [1; 2]].

(** The cyclic task set of the specification's scenario B. *)
Definition scenarioB : list TaskMasterTask :=
  [makeTask 1 [3]; makeTask 2 [1]; makeTask 3 [2]].

(** The task set of scenario C: task 1 depends on the absent id 99. *)
Definition scenarioC : list TaskMasterTask := [makeTask 1 [99]].

(** A subtask that lists [deps] as its dependencies. *)
Definition dependingOn (deps : list Z) (s : TaskMasterSubtask)
    : TaskMasterSubtask :=
  {| subtask_id := subtask_id s; subtask_title := subtask_title s;
     subtask_description := subtask_description s;
     subtask_status := subtask_status s;
     subtask_dependencies := Some deps;
     subtask_details := subtask_details s |}.

(** A project in the shape of the integration fixture: task 1 is done and
    has two subtasks, the second depending on the first; task 2 depends
    on task 1. *)
Definition scenarioF : list TaskMasterTask :=
  [makeTask 2 [1];
   withStatus done
     (withSubtasks [makeSubtask 1 done; dependingOn [1] (makeSubtask 2 in_progress)]
        (makeTask 1 []))].

(** The options of the command when no flag is given. *)
Definition defaultOptions : Options.t :=
  {| Options.tasks := ".taskmaster/tasks/tasks.json";
     Options.project := ".";
     Options.dryRun := false; Options.force := false; Options.resume := false;
     Options.mapFile := "./tm2bd-map.json";
     Options.verbose := false |}.

(** A task list that carries the id 1 twice. *)
Definition scenarioDup : list TaskMasterTask :=
  [makeTask 1 [2]; makeTask 2 []; makeTask 1 []].

(** The options of a run with [--resume]. *)
Definition resumeOptions : Options.t :=
  {| Options.tasks := ".taskmaster/tasks/tasks.json";
     Options.project := ".";
     Options.dryRun := false; Options.force := false; Options.resume := true;
     Options.mapFile := "./tm2bd-map.json";
     Options.verbose := false |}.

(** Files among which the mapping path cannot be written. *)
Definition readOnlyFiles : FileSystem :=
  {| documents := ∅;
     rejected :=
       {[ "./tm2bd-map.json" :=
            "EACCES: permission denied, open './tm2bd-map.json'" ]} |}.

(** Files whose mapping path holds a document that is no mapping file: its
    one entry has no [beadsId] and no [subtasks]. *)
Definition strayFiles : FileSystem :=
  {| documents :=
       {[ "./tm2bd-map.json" :=
            JObject [("tasks", JArray [JObject [("tmId", JNumber 5)]])] ]};
     rejected := ∅ |}.

(** A project whose only subtask depends on a subtask that does not
    exist. *)
Definition scenarioG : list TaskMasterTask :=
  [withSubtasks [dependingOn [7] (makeSubtask 1 pending)] (makeTask 1 [])].

(** * Specification vocabulary *)

(** [depends tm a b]: the task stored under [a] lists [b] as a dependency.
    This is the edge relation both traversals follow. *)
Definition depends (tm : gmap Z TaskMasterTask) (a b : Z) : Prop :=
  ∃ t, tm !! a = Some t ∧ b ∈ task_dependencies t.

(** The same relation read off the task list. *)
Definition dependsOn (tasks : list TaskMasterTask) (a b : Z) : Prop :=
  ∃ t, t ∈ tasks ∧ task_id t = a ∧ b ∈ task_dependencies t.

(** A task set: ids are unique (data-model invariant). *)
Definition uniqueIds (tasks : list TaskMasterTask) : Prop :=
  NoDup (task_id <$> tasks).

Definition acyclic (tasks : list TaskMasterTask) : Prop :=
  ∀ a, ¬ tc (dependsOn tasks) a a.

Definition referentiallyComplete (tasks : list TaskMasterTask) : Prop :=
  ∀ t d, t ∈ tasks → d ∈ task_dependencies t → d ∈ task_id <$> tasks.

(** [m] is the greatest element of [l]. *)
Definition maximum (m : Z) (l : list Z) : Prop :=
  m ∈ l ∧ ∀ x, x ∈ l → x ≤ m.

(** The output pairs the task with id [d] with tier [dt]. *)
Definition tierIn (out : list TopologicalSort.SortedTask) (d dt : Z) : Prop :=
  ∃ sd, sd ∈ out ∧ task_id (TopologicalSort.task sd) = d ∧
        TopologicalSort.tier sd = dt.

(** The tier rule of the data model: 0 without dependencies, otherwise one
    more than the greatest tier among the dependencies. *)
Definition tierRule (out : list TopologicalSort.SortedTask)
    (s : TopologicalSort.SortedTask) : Prop :=
  ∃ depTiers,
    Forall2 (tierIn out) (task_dependencies (TopologicalSort.task s)) depTiers ∧
    match depTiers with
    | [] => TopologicalSort.tier s = 0
    | _ => ∃ m, maximum m depTiers ∧ TopologicalSort.tier s = 1 + m
    end.

(** Ascending tier, then ascending id: the strict order of the output. *)
Definition sortedBefore (a b : TopologicalSort.SortedTask) : Prop :=
  TopologicalSort.tier a < TopologicalSort.tier b ∨
  (TopologicalSort.tier a = TopologicalSort.tier b ∧
   task_id (TopologicalSort.task a) < task_id (TopologicalSort.task b)).

(** The dangling references of a task list, in the order the validator
    walks them: one pair per entry of a dependency list whose id no task
    has. *)
Definition missingReferences (tasks : list TaskMasterTask) : list (Z * Z) :=
  tasks ≫= λ t,
    (λ d, (task_id t, d)) <$>
      filter (λ d, d ∉ task_id <$> tasks) (task_dependencies t).

(** Consecutive elements of [l] are related by [R]. *)
Fixpoint chain {A} (R : relation A) (l : list A) : Prop :=
  match l with
  | [] => True
  | a :: l' =>
      match l' with
      | [] => True
      | b :: _ => R a b ∧ chain R l'
      end
  end.

(** The operations that build a mapping store. *)
Inductive MapperOp :=
  | OpAddEpic (tmId : Z) (beadsId : string)
  | OpAddSubtask (taskTmId subtaskTmId : Z) (beadsId : string).

(** A call of [addSubtask] that throws has left the store as it was. *)
Definition runOp (this : IdMapper.t) (op : MapperOp) : IdMapper.t :=
  match op with
  | OpAddEpic tmId beadsId => IdMapper.addEpic tmId beadsId this
  | OpAddSubtask taskTmId subtaskTmId beadsId =>
      (IdMapper.addSubtask taskTmId subtaskTmId beadsId this).2
  end.

Definition build (ops : list MapperOp) : IdMapper.t := foldl runOp IdMapper.new ops.

(** The destination action the specification assigns to a source status:
    [done|cancelled → close], [in-progress → set status "in_progress"],
    [deferred → set status "deferred"], [blocked → set status "blocked"],
    [pending → no action]. *)
Inductive DestinationAction :=
  | ActClose
  | ActSetStatus (status : string)
  | ActNone.

Definition specAction (s : TaskMasterStatus) : DestinationAction :=
  match s with
  | done | cancelled => ActClose
  | in_progress => ActSetStatus "in_progress"
  | deferred => ActSetStatus "deferred"
  | blocked => ActSetStatus "blocked"
  | pending => ActNone
  end.

(** The gateway calls that carry out an action on the issue [issueId]. *)
Definition actionCalls (issueId : string) (a : DestinationAction) : list BdCall :=
  match a with
  | ActClose => [Close issueId]
  | ActSetStatus status => [UpdateStatus issueId status]
  | ActNone => []
  end.

(** The calls status syncing owes an entity whose destination id the
    mapper answers with [issueId]: none when the id is missing or empty. *)
Definition statusCalls (issueId : option string) (s : TaskMasterStatus)
    : list BdCall :=
  match truthy issueId with
  | Some i => actionCalls i (specAction s)
  | None => []
  end.

(** The calls status syncing owes one task: those of the task itself, then
    those of its subtasks in input order. *)
Definition entityCalls (this : IdMapper.t) (task : TaskMasterTask)
    : list BdCall :=
  statusCalls (IdMapper.getEpicId (task_id task) this) (task_status task) ++
  (default [] (task_subtasks task) ≫= λ subtask,
     statusCalls
       (IdMapper.getSubtaskId (task_id task) (subtask_id subtask) this)
       (subtask_status subtask)).

(** The creation calls [createChildren] owes a task: one per subtask, in
    ascending subtask id. *)
Definition childCalls (epicId : string) (task : TaskMasterTask) : list BdCall :=
  (λ s, CreateChild epicId (subtask_title s) (formatChildDescription s)) <$>
    sort (λ a b, subtask_id a - subtask_id b) (default [] (task_subtasks task)).

(** *** Invariant of the tiering walk *)

Module SortInvariant.
Import TopologicalSort.

(** The value [maxDepTier] has after the loop, read off a tier map. *)
Definition depTierMax (m : gmap Z Z) (deps : list Z) (acc : Z) : Z :=
  foldl (λ a d, Z.max a (default 0 (m !! d))) acc deps.

(** What holds of the captured variables between two steps of the walk:
    [visited], [tierMap] and [sorted] describe the same finished tasks,
    each with the tier its dependencies give it. *)
Record Inv (tm : gmap Z TaskMasterTask) (st : State) : Prop := {
  inv_dom : dom (tierMap st) = visited st;
  inv_ids : list_to_set ((task_id ∘ task) <$> sorted st) = visited st;
  inv_nodup : NoDup ((task_id ∘ task) <$> sorted st);
  inv_sorted : ∀ s, s ∈ sorted st →
    tm !! task_id (task s) = Some (task s) ∧
    tierMap st !! task_id (task s) = Some (tier s);
  inv_tier : ∀ k t, k ∈ visited st → tm !! k = Some t →
    (∀ d, d ∈ task_dependencies t → d ∈ visited st) ∧
    tierMap st !! k =
      Some (depTierMax (tierMap st) (task_dependencies t) (-1) + 1);
  inv_disj : visited st ## visiting st;
}.

Definition Post (tm : gmap Z TaskMasterTask) (taskId : Z) (st : State)
    (r : Z) (st' : State) : Prop :=
  Inv tm st' ∧ visiting st' = visiting st ∧ visited st ⊆ visited st' ∧
  taskId ∈ visited st' ∧ tierMap st ⊆ tierMap st' ∧
  tierMap st' !! taskId = Some r.

Definition PostDeps (tm : gmap Z TaskMasterTask) (deps : list Z) (acc : Z)
    (st : State) (m : Z) (st' : State) : Prop :=
  Inv tm st' ∧ visiting st' = visiting st ∧ visited st ⊆ visited st' ∧
  tierMap st ⊆ tierMap st' ∧ (∀ d, d ∈ deps → d ∈ visited st') ∧
  m = depTierMax (tierMap st') deps acc.

(** What a thrown message tells: it names a node [k] reachable from the
    node the traversal started at; a cycle report means [k] is on the
    stack (or on a cycle already), a not-found report that [k] is no key
    of the task map. *)
Definition ThrowPost (tm : gmap Z TaskMasterTask) (taskId : Z) (V : gset Z)
    (msg : string) : Prop :=
  ∃ k, rtc (depends tm) taskId k ∧
    ((msg = circularMessage k ∧ (k ∈ V ∨ tc (depends tm) k k)) ∨
     (msg = notFoundMessage k ∧ tm !! k = None)).

Definition visit_ok (tm : gmap Z TaskMasterTask)
    (v : Z → State → option (outcome (Z * State))) (V : gset Z) : Prop :=
  ∀ d st, Inv tm st → visiting st = V →
    match v d st with
    | Some (Return (r, st')) => Post tm d st r st'
    | Some (Throw msg) => ThrowPost tm d V msg
    | None => False
    end.

End SortInvariant.

(** *** Invariant of the acyclicity walk *)

Module CycleInvariant.
Import CircularDependencies.

(** A recorded cycle: [x], the nodes after it on the stack, and [x]
    again, every step a dependency edge. *)
Definition recordedCycle (tm : gmap Z TaskMasterTask) (e : string) : Prop :=
  ∃ x post, e = cycleMessage (x :: post ++ [x]) ∧ NoDup (x :: post) ∧
            chain (depends tm) (x :: post ++ [x]).

(** [path] is the stack: the nodes entered and not yet left, oldest
    first. *)
Record Inv (tm : gmap Z TaskMasterTask) (path : list Z) (st : State) : Prop := {
  inv_stack : visiting st = list_to_set path;
  inv_nodup : NoDup path;
  inv_disj : visited st ## visiting st;
  inv_sound : ∀ e, e ∈ errors st → recordedCycle tm e;
  inv_self : ∀ k t, k ∈ visited st → tm !! k = Some t →
    k ∈ task_dependencies t → cycleMessage [k; k] ∈ errors st;
}.

(** The cycle [visit] records for [taskId] on the stack [path]. *)
Definition cycleOf (taskId : Z) (path : list Z) : list Z :=
  slice (indexOf taskId path) path ++ [taskId].

Definition Post (tm : gmap Z TaskMasterTask) (taskId : Z) (path : list Z)
    (st st' : State) : Prop :=
  Inv tm path st' ∧ visited st ⊆ visited st' ∧
  (∀ e, e ∈ errors st → e ∈ errors st') ∧
  (taskId ∈ visiting st → cycleMessage (cycleOf taskId path) ∈ errors st') ∧
  (taskId ∉ visiting st → taskId ∈ visited st').

Definition visit_ok (tm : gmap Z TaskMasterTask)
    (v : Z → list Z → State → option (bool * State)) (path : list Z) : Prop :=
  ∀ d st, Inv tm path st → chain (depends tm) (path ++ [d]) →
    match v d path st with
    | Some (_, st') => Post tm d path st st'
    | None => False
    end.

End CycleInvariant.

(** *** The calls of [visit] in a run of the acyclicity check *)

Module CycleCalls.
Import CircularDependencies.

(** The fuel the embedding runs a call [visit(_, path)] on: a call made by
    the loop over the tasks gets one more than the size of the task map, a
    nested call one less than its caller. *)
Definition fuelAt (tasks : list TaskMasterTask) (path : list Z) : nat :=
  S (size (taskMap tasks)) - length path.

(** [Reached tasks taskId path st]: the run of
    [validateCircularDependencies(tasks)] calls [visit(taskId, path)] with
    the captured variables in the state [st]. The loop over the tasks
    makes the call for a task that is not yet visited, once it has served
    the tasks in front of it. A call that was reached and that has passed
    both guards makes the call for each dependency of its task, with its
    own node appended to its [path], once it has served the dependencies in
    front. *)
Inductive Reached (tasks : list TaskMasterTask) : Z → list Z → State → Prop :=
  | reached_top before t after st :
      tasks = before ++ t :: after →
      visitAll (taskMap tasks) (fuelAt tasks []) before initial = Some st →
      task_id t ∉ visited st →
      Reached tasks (task_id t) [] st
  | reached_dependency parent path st t before depId after st' :
      Reached tasks parent path st →
      parent ∉ visited st → parent ∉ visiting st →
      taskMap tasks !! parent = Some t →
      task_dependencies t = before ++ depId :: after →
      visitDeps (visit (taskMap tasks) (fuelAt tasks (path ++ [parent])))
        before (path ++ [parent]) (enter parent st) = Some st' →
      Reached tasks depId (path ++ [parent]) st'.

(** [e] is what a call of the run has pushed: the call took the branch of
    a node that is being visited, and [e] is the message of the slice of
    its [path] from the first occurrence of the node, with the node
    appended. *)
Definition Recorded (tasks : list TaskMasterTask) (e : string) : Prop :=
  ∃ taskId path st, Reached tasks taskId path st ∧
    (taskId ∉ visited st) ∧ taskId ∈ visiting st ∧
    e = cycleMessage (slice (indexOf taskId path) path ++ [taskId]).

End CycleCalls.

(** *** What the acyclicity walk has ruled out *)

Module CycleCompleteness.
Import CircularDependencies.

(** While no cycle is on record, the finished nodes can be ranked so that
    every dependency of a finished node is finished and ranks below it. *)
Definition Ranked (tm : gmap Z TaskMasterTask) (st : State) : Prop :=
  errors st = [] →
  ∃ rank : Z → nat, ∀ k t d,
    k ∈ visited st → tm !! k = Some t → d ∈ task_dependencies t →
    d ∈ visited st ∧ (rank d < rank k)%nat.

Definition ranked_ok (tm : gmap Z TaskMasterTask)
    (v : Z → list Z → State → option (bool * State)) (path : list Z) : Prop :=
  ∀ d st, CycleInvariant.Inv tm path st → chain (depends tm) (path ++ [d]) →
    Ranked tm st →
    match v d path st with
    | Some (_, st') => Ranked tm st'
    | None => True
    end.

End CycleCompleteness.

(** *** Runs of the dependency wiring *)

(** The dependency edges among tasks, in the order the wiring walks them:
    the dependent task first, then the task it depends on. *)
Definition epicEdges (tasks : list TaskMasterTask) : list (Z * Z) :=
  tasks ≫= λ t, (λ d, (task_id t, d)) <$> task_dependencies t.

(** The call that wires an edge among tasks: it needs a non-empty
    destination id for both ends, and the dependent is the blocked side. *)
Definition epicEdgeCall (this : IdMapper.t) (e : Z * Z) : option BdCall :=
  blockedId ← truthy (IdMapper.getEpicId e.1 this);
  blockingId ← truthy (IdMapper.getEpicId e.2 this);
  Some (AddDependency blockedId blockingId).

(** The dependency edges among subtasks: the parent task, the dependent
    subtask, and the id it depends on. *)
Definition subtaskEdges (tasks : list TaskMasterTask) : list (Z * Z * Z) :=
  tasks ≫= λ t, default [] (task_subtasks t) ≫= λ s,
    (λ d, (task_id t, subtask_id s, d)) <$> default [] (subtask_dependencies s).

(** Both ends of an edge among subtasks are looked up under the same
    parent task. *)
Definition subtaskEdgeCall (this : IdMapper.t) (e : Z * Z * Z) : option BdCall :=
  blockedId ← truthy (IdMapper.getSubtaskId e.1.1 e.1.2 this);
  blockingId ← truthy (IdMapper.getSubtaskId e.1.1 e.2 this);
  Some (AddDependency blockedId blockingId).

(** A run [r] of a wiring loop over [edges], started in the world [w] with
    the counter at [count]: the mapper is untouched; the calls issued are
    those of the first [n] edges, in order; a run that returns has served
    every edge and counted each; a run that throws has stopped either in
    front of an edge with an end that has no destination id, or on the call
    the tracker refused. *)
Definition Wired {E} (cli : BeadsCli) (edgeCall : E → option BdCall)
    (edges : list E) (count : Z) (w : World) (r : outcome Z * World) : Prop :=
  mapper r.2 = mapper w ∧
  ∃ (n : nat) (issued : list BdCall),
    (n ≤ length edges)%nat ∧
    Forall2 (λ e c, edgeCall e = Some c) (take n edges) issued ∧
    calls r.2 = calls w ++ issued ∧
    match r.1 with
    | Return count' => n = length edges ∧ count' = count + Z.of_nat n
    | Throw message =>
        (∃ e, edges !! n = Some e ∧ edgeCall e = None) ∨
        (∃ issued' c, issued = issued' ++ [c] ∧
           bd cli (calls w ++ issued') c = Throw message)
    end.

(** A tracker that carries out every call. *)
Definition succeeds (cli : BeadsCli) : Prop :=
  ∀ history c, ∃ r, bd cli history c = Return r.

(** *** Runs of the creation phases *)

(** The creation call [createEpic] issues for a task. *)
Definition epicCall (task : TaskMasterTask) : BdCall :=
  CreateEpic (task_title task) (formatEpicDescription task)
    (mapPriority (task_priority task)).

(** The entry [createEpic] records for a task once the tracker has
    answered. *)
Definition epicEntry (task : TaskMasterTask) (result : BeadsCreateResult)
    : TaskMapping.t :=
  {| TaskMapping.tmId := task_id task; TaskMapping.beadsId := id result;
     TaskMapping.subtasks := [] |}.

(** The mapper answers for the task, with an id that passes [if (id)]. *)
Definition epicMapped (this : IdMapper.t) (task : TaskMasterTask) : Prop :=
  is_Some (truthy (IdMapper.getEpicId (task_id task) this)).

(** The mapper answers, with such an id, for every subtask of the task. *)
Definition subtasksMapped (this : IdMapper.t) (task : TaskMasterTask) : Prop :=
  Forall (λ subtask,
      is_Some (truthy (IdMapper.getSubtaskId (task_id task) (subtask_id subtask) this)))
    (default [] (task_subtasks task)).

(** A tracker whose creations always come back with a non-empty id, as
    the gateway's check of the [id] field guarantees. *)
Definition namesCreated (cli : BeadsCli) : Prop :=
  ∀ history c result, bd cli history c = Return result →
    match c with
    | CreateEpic _ _ _ | CreateChild _ _ _ => id result ≠ ""
    | _ => True
    end.

(** [this'] answers every lookup [this] answers, and in the same way, and
    answers the same epic lookups. *)
Definition keepsAnswers (this this' : IdMapper.t) : Prop :=
  (∀ k, IdMapper.getEpicId k this' = IdMapper.getEpicId k this) ∧
  (∀ t s x, IdMapper.getSubtaskId t s this = Some x →
            IdMapper.getSubtaskId t s this' = Some x).

(** No subtask lookup answers with the empty string. *)
Definition subtaskIdsNonEmpty (this : IdMapper.t) : Prop :=
  ∀ t s x, IdMapper.getSubtaskId t s this = Some x → x ≠ "".

(** Every dependency of a subtask names a subtask of the same task. *)
Definition siblingDependencies (tasks : list TaskMasterTask) : Prop :=
  ∀ task subtask d, task ∈ tasks →
    subtask ∈ default [] (task_subtasks task) →
    d ∈ default [] (subtask_dependencies subtask) →
    d ∈ subtask_id <$> default [] (task_subtasks task).

(** The store a creation phase leaves for [scenarioF]. *)
Definition mappedF : IdMapper.t :=
  build [OpAddEpic 1 "bd-1"; OpAddEpic 2 "bd-2";
         OpAddSubtask 1 1 "bd-1.1"; OpAddSubtask 1 2 "bd-1.2"].

(** *** What a phase may ask of the tracker *)

(** Whatever the world it starts in and however it ends, the code [m]
    adds to the log only calls that satisfy [P]. *)
Definition issues {A} (P : BdCall → Prop) (m : Sync A) : Prop :=
  ∀ w, ∃ new, calls (m w).2 = calls w ++ new ∧ Forall P new.

(** The calls of status propagation on an issue with a non-empty id: a
    close, or an update to one of the three destination statuses. *)
Definition statusCallOn (c : BdCall) : Prop :=
  ∃ issueId, issueId ≠ "" ∧
    (c = Close issueId ∨
     ∃ status, c = UpdateStatus issueId status ∧
       status ∈ ["in_progress"; "deferred"; "blocked"]).

(** Some subtask depends on an id that no subtask of its own task has. *)
Definition danglingSubtaskDependency (tasks : list TaskMasterTask) : Prop :=
  ∃ task subtask d, task ∈ tasks ∧
    subtask ∈ default [] (task_subtasks task) ∧
    d ∈ default [] (subtask_dependencies subtask) ∧
    d ∉ subtask_id <$> default [] (task_subtasks task).

(** The store after [createChildren] has recorded, in turn, an answer of
    the tracker for each of the subtasks served. *)
Definition recordChildren (task : TaskMasterTask) (this : IdMapper.t)
    (served : list (TaskMasterSubtask * BeadsCreateResult)) : IdMapper.t :=
  foldl (λ this p,
      (IdMapper.addSubtask (task_id task) (subtask_id p.1) (id p.2) this).2)
    this served.

(** *** What a message names *)

(** The messages print ids with [pretty], the decimal numeral. This is
    what a template literal prints for an integer number below 10^21 in
    absolute value; beyond, JavaScript switches to the exponent form. *)
Definition plainNumber (n : Z) : Prop := Z.abs n < 10 ^ 21.

(** No character of the string is a space. *)
Fixpoint spaceFree (s : string) : Prop :=
  match s with
  | EmptyString => True
  | String c s' => c ≠ " "%char ∧ spaceFree s'
  end.

(** The string is empty or begins with a space. *)
Definition spaceLed (s : string) : Prop :=
  s = "" ∨ ∃ s', s = String " " s'.

(** * Verification *)

(** ** Facts on [taskMap] and [sort] *)

Lemma taskMap_snoc tasks t :
  taskMap (tasks ++ [t]) = <[task_id t := t]> (taskMap tasks).
Proof. unfold taskMap. by rewrite foldl_snoc. Qed.

Lemma taskMap_id tasks k t : taskMap tasks !! k = Some t → task_id t = k.
Proof.
  induction tasks as [|x tasks IH] using rev_ind; [done|].
  rewrite taskMap_snoc, lookup_insert. case_decide; [congruence|done].
Qed.

Lemma taskMap_elem tasks k t : taskMap tasks !! k = Some t → t ∈ tasks.
Proof.
  induction tasks as [|x tasks IH] using rev_ind; [done|].
  rewrite taskMap_snoc, lookup_insert, elem_of_app, list_elem_of_singleton.
  case_decide; [right; congruence|auto].
Qed.

Lemma taskMap_dom tasks : dom (taskMap tasks) = list_to_set (task_id <$> tasks).
Proof.
  induction tasks as [|x tasks IH] using rev_ind; [apply dom_empty_L|].
  rewrite taskMap_snoc, dom_insert_L, fmap_app, list_to_set_app_L, IH.
  simpl. set_solver.
Qed.

Lemma taskMap_key tasks t : t ∈ tasks → is_Some (taskMap tasks !! task_id t).
Proof.
  intros Ht. apply elem_of_dom. rewrite taskMap_dom.
  apply elem_of_list_to_set, list_elem_of_fmap. by exists t.
Qed.

(** With unique ids the map holds every task of the list under its id. *)
Lemma taskMap_lookup tasks t :
  NoDup (task_id <$> tasks) → t ∈ tasks → taskMap tasks !! task_id t = Some t.
Proof.
  induction tasks as [|x tasks IH] using rev_ind; intros Hnd Ht.
  { by apply elem_of_nil in Ht. }
  rewrite fmap_app in Hnd. apply NoDup_app in Hnd as (Hnd & Hfresh & _).
  rewrite taskMap_snoc, lookup_insert.
  apply elem_of_app in Ht as [Ht| ->%list_elem_of_singleton].
  - case_decide as Heq; [|by apply IH].
    exfalso. apply (Hfresh (task_id t)).
    + apply list_elem_of_fmap. by exists t.
    + rewrite <- Heq. simpl. by left.
  - by case_decide.
Qed.

Section sort.
Context {A : Type} (cmp : A → A → Z).

Lemma sort_insert_Permutation x l : sort_insert cmp x l ≡ₚ x :: l.
Proof.
  induction l as [|y l IH]; simpl; [done|].
  case_decide; [done|]. by rewrite IH, Permutation_swap.
Qed.

Lemma sort_Permutation l : sort cmp l ≡ₚ l.
Proof.
  induction l as [|x l IH]; simpl; [done|].
  by rewrite sort_insert_Permutation, IH.
Qed.

Hypothesis cmp_total : ∀ x y, 0 < cmp x y → cmp y x ≤ 0.

Lemma sort_insert_HdRel a x l :
  cmp a x ≤ 0 → HdRel (λ u v, cmp u v ≤ 0) a l →
  HdRel (λ u v, cmp u v ≤ 0) a (sort_insert cmp x l).
Proof.
  intros Hax Hal. destruct l as [|y l]; simpl; [by constructor|].
  case_decide; constructor; [done|]. by inv Hal.
Qed.

Lemma sort_insert_Sorted x l :
  Sorted (λ u v, cmp u v ≤ 0) l →
  Sorted (λ u v, cmp u v ≤ 0) (sort_insert cmp x l).
Proof.
  induction 1 as [|y l Hl IH Hhd]; simpl; [by repeat constructor|].
  case_decide as Hxy.
  - by repeat constructor.
  - constructor; [done|]. apply sort_insert_HdRel; [|done].
    apply cmp_total. lia.
Qed.

Lemma sort_Sorted l : Sorted (λ u v, cmp u v ≤ 0) (sort cmp l).
Proof.
  induction l as [|x l IH]; simpl; [constructor|].
  by apply sort_insert_Sorted.
Qed.

End sort.

(** ** Facts on [chain], [indexOf] and [slice] *)

Section chain.
Context {A : Type} (R : relation A).

Lemma chain_cons a b l : chain R (a :: b :: l) ↔ R a b ∧ chain R (b :: l).
Proof. done. Qed.

Lemma chain_app_r l1 l2 : chain R (l1 ++ l2) → chain R l2.
Proof.
  induction l1 as [|a l1 IH]; [done|]. simpl.
  destruct (l1 ++ l2) as [|b l] eqn:Heq.
  - apply app_eq_nil in Heq as [_ ->]. done.
  - intros [_ H]. by apply IH.
Qed.

Lemma chain_snoc l a b : chain R (l ++ [a]) → R a b → chain R ((l ++ [a]) ++ [b]).
Proof.
  intros Hl Hab. induction l as [|x l IH]; [done|].
  destruct l as [|y l]; simpl in *.
  - destruct Hl as [Hxa _]. done.
  - destruct Hl as [Hxy Hl]. split; [done|]. by apply IH.
Qed.

Lemma chain_tc x l y : chain R (x :: l ++ [y]) → tc R x y.
Proof.
  revert x. induction l as [|a l IH]; intros x.
  - intros [H _]. by apply tc_once.
  - intros [H Hl]. eapply tc_l; [done|]. by apply IH.
Qed.

End chain.

Lemma indexOfFrom_first x pre post i :
  x ∉ pre → indexOfFrom x (pre ++ x :: post) i = i + Z.of_nat (length pre).
Proof.
  revert i. induction pre as [|y pre IH]; intros i Hx; simpl.
  - rewrite decide_True by done. lia.
  - rewrite decide_False by set_solver. rewrite IH by set_solver. lia.
Qed.

(** The slice from the first occurrence of [x] to the end. *)
Lemma slice_indexOf x pre post :
  x ∉ pre →
  slice (indexOf x (pre ++ x :: post)) (pre ++ x :: post) = x :: post.
Proof.
  intros Hx. unfold indexOf, slice. rewrite indexOfFrom_first by done.
  rewrite decide_False by lia. rewrite length_app. simpl.
  rewrite Z.min_l by lia.
  replace (Z.to_nat (0 + Z.of_nat (length pre))) with (length pre) by lia.
  by rewrite drop_app_length.
Qed.

(** ** Facts on the messages *)

Lemma append_nil_inv (s1 s2 : string) : s1 +:+ s2 = "" → s1 = "" ∧ s2 = "".
Proof. destruct s1; [done|]. simpl. discriminate. Qed.

(** A decimal numeral has no space in it and is not empty, so a numeral
    that is followed by a space or by nothing can be read back from the
    front of a string. *)
Lemma pretty_N_go_spaceFree x s : spaceFree s → spaceFree (pretty_N_go x s).
Proof.
  revert s. induction (N.lt_wf_0 x) as [x _ IH]; intros s Hs.
  assert (x = 0 ∨ 0 < x)%N as [->|?] by lia.
  - by rewrite pretty_N_go_0.
  - rewrite pretty_N_go_step by done. apply IH; [by apply N.div_lt|].
    split; [|done]. unfold pretty_N_char. by repeat case_match.
Qed.

Lemma pretty_N_go_nonempty x s : s ≠ "" → pretty_N_go x s ≠ "".
Proof.
  revert s. induction (N.lt_wf_0 x) as [x _ IH]; intros s Hs.
  assert (x = 0 ∨ 0 < x)%N as [->|?] by lia.
  - by rewrite pretty_N_go_0.
  - rewrite pretty_N_go_step by done. apply IH; [by apply N.div_lt|done].
Qed.

Lemma pretty_N_spaceFree (x : N) : spaceFree (pretty x).
Proof.
  unfold pretty, pretty_N. case_decide; [by split|].
  by apply pretty_N_go_spaceFree.
Qed.

Lemma pretty_N_nonempty (x : N) : pretty x ≠ "".
Proof.
  unfold pretty, pretty_N. case_decide; [done|].
  rewrite pretty_N_go_step by lia. by apply pretty_N_go_nonempty.
Qed.

Lemma pretty_Z_spaceFree (z : Z) : spaceFree (pretty z).
Proof.
  destruct z as [|p|p]; unfold pretty, pretty_Z.
  - by split.
  - apply pretty_N_spaceFree.
  - split; [done|]. apply pretty_N_spaceFree.
Qed.

Lemma pretty_Z_nonempty (z : Z) : pretty z ≠ "".
Proof.
  destruct z as [|p|p]; unfold pretty, pretty_Z; [done| |done].
  apply pretty_N_nonempty.
Qed.

Lemma spaceFree_split s1 s2 t1 t2 :
  spaceFree s1 → spaceFree s2 → spaceLed t1 → spaceLed t2 →
  s1 +:+ t1 = s2 +:+ t2 → s1 = s2 ∧ t1 = t2.
Proof.
  revert s2. induction s1 as [|c s1 IH]; intros [|c' s2]; simpl.
  - done.
  - intros _ [Hc _] [->|[t ->]] _ [=]. by subst c'.
  - intros [Hc _] _ _ [->|[t ->]] [=]. by subst c.
  - intros [_ H1] [_ H2] Ht1 Ht2 [= -> H].
    by destruct (IH s2 H1 H2 Ht1 Ht2 H) as [-> ->].
Qed.

Lemma append_empty_r (s : string) : s +:+ "" = s.
Proof.
  induction s as [|c s IH]; [done|].
  change (String c (s +:+ "") = String c s). by rewrite IH.
Qed.

(** The message of a missing reference names the task and the id: both
    can be read back from it. *)
Lemma missingDependencyMessage_inj a d a' d' :
  missingDependencyMessage a d = missingDependencyMessage a' d' →
  a = a' ∧ d = d'.
Proof.
  unfold missingDependencyMessage. intros H.
  apply (inj (String.append "Task ")) in H.
  apply spaceFree_split in H as [Ha Hd];
    [|apply pretty_Z_spaceFree..|right; by eexists|right; by eexists].
  apply (inj (String.append " depends on non-existent task ")) in Hd.
  split; by apply (inj pretty).
Qed.

Lemma join_cons sep x l :
  join sep (x :: l) =
  x +:+ match l with [] => "" | _ => sep +:+ join sep l end.
Proof.
  destruct l; [|done]. change (join sep [x]) with x.
  symmetry. apply append_empty_r.
Qed.

Lemma join_arrow_pretty_inj (l l' : list Z) :
  join CircularDependencies.arrow (pretty <$> l) =
  join CircularDependencies.arrow (pretty <$> l') → l = l'.
Proof.
  revert l'. induction l as [|x l IH]; intros [|x' l'].
  - done.
  - rewrite fmap_cons, join_cons. simpl. intros H. symmetry in H.
    apply append_nil_inv in H as [H _]. by apply pretty_Z_nonempty in H.
  - rewrite fmap_cons, join_cons. simpl. intros H.
    apply append_nil_inv in H as [H _]. by apply pretty_Z_nonempty in H.
  - rewrite !fmap_cons, !join_cons. intros H.
    apply spaceFree_split in H as [Hx Hrest]; [|apply pretty_Z_spaceFree..| |].
    + apply (inj pretty) in Hx as ->. f_equal.
      destruct l as [|y l], l' as [|y' l']; [done|done|done|].
      apply IH. by apply (inj (String.append CircularDependencies.arrow)) in Hrest.
    + destruct (pretty <$> l); [by left|right; by eexists].
    + destruct (pretty <$> l'); [by left|right; by eexists].
Qed.

(** The message of a cycle spells the cycle out: the cycle can be read
    back from it. *)
Lemma cycleMessage_inj (c c' : list Z) :
  CircularDependencies.cycleMessage c = CircularDependencies.cycleMessage c' →
  c = c'.
Proof.
  unfold CircularDependencies.cycleMessage. intros H.
  apply (inj (String.append "Circular dependency: ")) in H.
  by apply join_arrow_pretty_inj.
Qed.

(** ** Facts on the dependency graph *)

Lemma depends_dependsOn tasks a b :
  depends (taskMap tasks) a b → dependsOn tasks a b.
Proof.
  intros (t & Ht & Hb). exists t. split_and!; [|by eapply taskMap_id|done].
  by eapply taskMap_elem.
Qed.

Lemma dependsOn_depends tasks a b :
  uniqueIds tasks → dependsOn tasks a b → depends (taskMap tasks) a b.
Proof.
  intros Hu (t & Ht & <- & Hb). exists t. split; [|done].
  by apply taskMap_lookup.
Qed.

Lemma tc_depends_dependsOn tasks a b :
  tc (depends (taskMap tasks)) a b → tc (dependsOn tasks) a b.
Proof.
  induction 1 as [a b H|a b c H _ IH].
  - by apply tc_once, depends_dependsOn.
  - eapply tc_l; [by apply depends_dependsOn|done].
Qed.

Lemma tc_dependsOn_depends tasks a b :
  uniqueIds tasks → tc (dependsOn tasks) a b →
  tc (depends (taskMap tasks)) a b.
Proof.
  intros Hu. induction 1 as [a b H|a b c H _ IH].
  - by apply tc_once, dependsOn_depends.
  - eapply tc_l; [by apply dependsOn_depends|done].
Qed.

Lemma acyclic_rank tasks (rank : Z → nat) :
  (∀ a b, dependsOn tasks a b → (rank b < rank a)%nat) → acyclic tasks.
Proof.
  intros Hrank a Hcyc.
  assert (∀ x y, tc (dependsOn tasks) x y → (rank y < rank x)%nat) as H.
  { induction 1 as [x y Hxy|x y z Hxy _ IH]; [by apply Hrank|].
    specialize (Hrank x y Hxy). lia. }
  specialize (H a a Hcyc). lia.
Qed.

(** ** Referential integrity *)

Section validateDependencyIds.

Lemma checkDeps_spec (ids : list Z) a deps acc :
  foldl (λ errors depId,
      if decide (depId ∈ (list_to_set ids : gset Z)) then errors
      else errors ++ [missingDependencyMessage a depId]) acc deps
  = acc ++ (missingDependencyMessage a <$> filter (λ d, d ∉ ids) deps).
Proof.
  revert acc. induction deps as [|d deps IH]; intros acc; simpl.
  { by rewrite app_nil_r. }
  rewrite IH, filter_cons. destruct (decide (d ∈ (list_to_set ids : gset Z))) as [Hd|Hd].
  - rewrite elem_of_list_to_set in Hd. by rewrite decide_False by tauto.
  - rewrite elem_of_list_to_set in Hd. rewrite decide_True by done.
    simpl. by rewrite <- app_assoc.
Qed.

Lemma checkTasks_spec (ids : list Z) tasks acc :
  foldl (λ errors t,
      foldl (λ errors depId,
          if decide (depId ∈ (list_to_set ids : gset Z)) then errors
          else errors ++ [missingDependencyMessage (task_id t) depId])
        errors (task_dependencies t)) acc tasks
  = acc ++ ((λ p, missingDependencyMessage p.1 p.2) <$>
      (tasks ≫= λ t, (λ d, (task_id t, d)) <$>
         filter (λ d, d ∉ ids) (task_dependencies t))).
Proof.
  revert acc. induction tasks as [|t tasks IH]; intros acc; simpl.
  { by rewrite app_nil_r. }
  rewrite IH, checkDeps_spec, fmap_app, <- app_assoc. do 2 f_equal.
  rewrite <- list_fmap_compose. done.
Qed.

Lemma missingReferences_elem tasks a d :
  (a, d) ∈ missingReferences tasks ↔
  dependsOn tasks a d ∧ d ∉ task_id <$> tasks.
Proof.
  unfold missingReferences, dependsOn. rewrite list_elem_of_bind. split.
  - intros (t & (d' & [= -> ->] & Hd)%list_elem_of_fmap & Ht).
    apply list_elem_of_filter in Hd as [Hd1 Hd2]. split; [|done].
    by exists t.
  - intros [(t & Ht & <- & Hd) Habs]. exists t. split; [|done].
    apply list_elem_of_fmap. exists d. split; [done|].
    by apply list_elem_of_filter.
Qed.

(** C6 as stated fails: the loops push one message per entry of a
    dependency list, not one per pair. A task that lists the same missing
    id twice gets the same message twice, for the one dangling pair there
    is. *)
Lemma validateDependencyIds_repeats_message :
  errors (validateDependencyIds [makeTask 1 [99; 99]]) =
    ["Task 1 depends on non-existent task 99";
     "Task 1 depends on non-existent task 99"] ∧
  ∀ a d,
    dependsOn [makeTask 1 [99; 99]] a d ∧ d ∉ task_id <$> [makeTask 1 [99; 99]] ↔
    (a, d) = (1, 99).
Proof.
  split; [vm_compute; reflexivity|]. intros a d. split.
  - intros [(t & ->%list_elem_of_singleton & <- & Hd) _]. simpl in Hd.
    f_equal. set_solver.
  - intros [= -> ->]. split; [|simpl; set_solver].
    exists (makeTask 1 [99; 99]). simpl. set_solver.
Qed.

(** C6, amended. The errors of [validateDependencyIds] are, in traversal
    order, the messages of the dangling references, one message for each
    entry of a dependency list whose id no task has: an id that a list
    repeats is reported once per occurrence, and when the ids of the tasks
    are unique and no list repeats an id there is exactly one message per
    pair of a task and a missing id. A message reads "Task <task id>
    depends on non-existent task <missing id>", with the ids as decimal
    numerals when they are below 10^21 in absolute value, and the task and
    the missing id can be read back from it. The walk is never cut short;
    [valid] is true exactly when there is no error, which is exactly when
    the task list is referentially complete. The function is a pure
    function of its input: it builds its own set and array and writes to
    nothing else. *)
Theorem validateDependencyIds_spec tasks :
  errors (validateDependencyIds tasks) =
    (λ p, missingDependencyMessage p.1 p.2) <$> missingReferences tasks ∧
  (∀ a d, plainNumber a → plainNumber d →
     missingDependencyMessage a d =
       "Task " +:+ pretty a +:+ " depends on non-existent task " +:+ pretty d) ∧
  (∀ a d a' d',
     missingDependencyMessage a d = missingDependencyMessage a' d' →
     a = a' ∧ d = d') ∧
  (∀ a d, (a, d) ∈ missingReferences tasks ↔
          dependsOn tasks a d ∧ d ∉ task_id <$> tasks) ∧
  (uniqueIds tasks → (∀ t, t ∈ tasks → NoDup (task_dependencies t)) →
   NoDup (missingReferences tasks) ∧
   NoDup (errors (validateDependencyIds tasks))) ∧
  (valid (validateDependencyIds tasks) = true ↔
   errors (validateDependencyIds tasks) = []) ∧
  (valid (validateDependencyIds tasks) = true ↔ referentiallyComplete tasks).
Proof.
  assert (errors (validateDependencyIds tasks) =
    (λ p, missingDependencyMessage p.1 p.2) <$> missingReferences tasks) as He.
  { unfold validateDependencyIds. simpl. by rewrite checkTasks_spec. }
  assert (valid (validateDependencyIds tasks) = true ↔
          errors (validateDependencyIds tasks) = []) as Hv.
  { unfold validateDependencyIds. simpl.
    by rewrite bool_decide_eq_true, length_zero_iff_nil. }
  split_and!; [exact He|done| |apply missingReferences_elem| |done|].
  - intros a d a' d'. apply missingDependencyMessage_inj.
  - intros Huniq Hdeps.
    assert (NoDup (missingReferences tasks)) as Hnodup.
    { unfold missingReferences. apply NoDup_bind.
      - intros t1 t2 p Ht1 Ht2 (d1 & -> & _)%list_elem_of_fmap
          (d2 & [= Hid _] & _)%list_elem_of_fmap.
        pose proof (taskMap_lookup tasks t1 Huniq Ht1) as H1.
        pose proof (taskMap_lookup tasks t2 Huniq Ht2) as H2.
        rewrite Hid in H1. congruence.
      - intros t Ht. apply NoDup_fmap_2_strong; [by intros d1 d2 _ _ [= ->]|].
        by apply NoDup_filter, Hdeps.
      - by eapply NoDup_fmap_1. }
    split; [done|]. rewrite He. apply NoDup_fmap_2_strong; [|done].
    intros [a d] [a' d'] _ _ H. simpl in H.
    by apply missingDependencyMessage_inj in H as [-> ->].
  - rewrite Hv, He. split.
    + intros Hnil%fmap_nil_inv t d Ht Hd.
      destruct (decide (d ∈ task_id <$> tasks)) as [|Habs]; [done|].
      assert ((task_id t, d) ∈ missingReferences tasks) as Hin.
      { apply missingReferences_elem. split; [by exists t|done]. }
      rewrite Hnil in Hin. by apply elem_of_nil in Hin.
    + intros Hc. destruct (missingReferences tasks) as [|[a d] l] eqn:Hm; [done|].
      exfalso. assert ((a, d) ∈ missingReferences tasks) as Hin by (rewrite Hm; left).
      apply missingReferences_elem in Hin as [(t & Ht & _ & Hd) Habs].
      destruct Habs. by eapply Hc.
Qed.

End validateDependencyIds.

(** ** Acyclicity check *)

Module CircularDependenciesFacts.
Import CircularDependencies CycleInvariant.

Section traversal.
Context (tm : gmap Z TaskMasterTask).

Local Abbreviation depends := (depends tm).
Local Abbreviation recordedCycle := (recordedCycle tm).
Local Abbreviation Inv := (Inv tm).
Local Abbreviation Post := (Post tm).
Local Abbreviation visit_ok := (visit_ok tm).
Local Abbreviation inv_stack := (inv_stack tm).
Local Abbreviation inv_nodup := (inv_nodup tm).
Local Abbreviation inv_disj := (inv_disj tm).
Local Abbreviation inv_sound := (inv_sound tm).
Local Abbreviation inv_self := (inv_self tm).

Lemma cd_Inv_initial : Inv [] initial.
Proof.
  split; simpl; [done|constructor|set_solver| |].
  - intros e He. by apply elem_of_nil in He.
  - intros k t Hk. by apply not_elem_of_empty in Hk.
Qed.

Lemma cd_visitDeps_spec v path :
  visit_ok v path → ∀ deps st, Inv path st →
  (∀ d, d ∈ deps → chain depends (path ++ [d])) →
  match visitDeps v deps path st with
  | Some st' =>
      Inv path st' ∧ visited st ⊆ visited st' ∧
      (∀ e, e ∈ errors st → e ∈ errors st') ∧
      (∀ d, d ∈ deps → d ∈ visiting st →
         cycleMessage (cycleOf d path) ∈ errors st') ∧
      (∀ d, d ∈ deps → d ∉ visiting st → d ∈ visited st')
  | None => False
  end.
Proof.
  intros Hv deps. induction deps as [|d deps IH]; intros st HI Hch; simpl.
  - split_and!; [done..| |]; intros d Hd; by apply elem_of_nil in Hd.
  - assert (chain depends (path ++ [d])) as Hd by (apply Hch; left).
    specialize (Hv d st HI Hd).
    destruct (v d path st) as [[b st1]|]; [|done].
    destruct Hv as (HI1 & Hvis1 & Herr1 & Hcyc1 & Hdone1).
    assert (∀ x, x ∈ deps → chain depends (path ++ [x])) as Hch'
      by (intros x Hx; apply Hch; by right).
    specialize (IH st1 HI1 Hch').
    destruct (visitDeps v deps path st1) as [st2|]; [|done].
    destruct IH as (HI2 & Hvis2 & Herr2 & Hcyc2 & Hdone2).
    assert (visiting st1 = visiting st) as Hsame
      by (by rewrite (inv_stack _ _ HI1), (inv_stack _ _ HI)).
    split_and!; [done|set_solver|by auto| |].
    + intros x [->|Hx]%elem_of_cons Hin; [by auto|].
      apply Hcyc2; [done|by rewrite Hsame].
    + intros x [->|Hx]%elem_of_cons Hin; [by auto|].
      apply Hdone2; [done|by rewrite Hsame].
Qed.

Lemma cycleOf_self taskId path : taskId ∉ path →
  cycleOf taskId (path ++ [taskId]) = [taskId; taskId].
Proof. intros H. unfold cycleOf. by rewrite slice_indexOf. Qed.

Lemma cd_visit_spec fuel path :
  (size (dom tm ∖ list_to_set path) < fuel)%nat → visit_ok (visit tm fuel) path.
Proof.
  revert path. induction fuel as [|fuel IH]; intros path Hsz d st HI Hch; [lia|].
  simpl. destruct (decide (d ∈ visited st)) as [Hvd|Hvd].
  { split_and!; [done..| |done]. intros Hin.
    pose proof (inv_disj _ _ HI). set_solver. }
  pose proof (inv_stack _ _ HI) as Hstack.
  destruct (decide (d ∈ visiting st)) as [Hvg|Hvg].
  { assert (d ∈ path) as Hin by (rewrite Hstack in Hvg; set_solver).
    apply list_elem_of_split_l in Hin as (pre & post & Hpath & Hpre).
    assert (cycleOf d path = d :: post ++ [d]) as Hcycle.
    { unfold cycleOf. subst path. by rewrite slice_indexOf. }
    fold (cycleOf d path). split_and!; simpl; [|done|set_solver|set_solver|done].
    destruct HI as [H1 H2 H3 H4 H5]. split; simpl; [done..| |].
    - intros e [He| ->%list_elem_of_singleton]%elem_of_app; [by apply H4|].
      exists d, post. split_and!; [by rewrite Hcycle| |].
      + subst path. apply NoDup_app in H2 as (_ & _ & H2). done.
      + subst path. rewrite <- app_assoc in Hch. simpl in Hch.
        by apply chain_app_r in Hch.
    - intros k t Hk Ht Hself. apply elem_of_app. left. by eapply H5. }
  assert (d ∉ path) as Hfresh by (rewrite Hstack in Hvg; set_solver).
  assert (Inv (path ++ [d]) (enter d st)) as HI1.
  { destruct HI as [H1 H2 H3 H4 H5]. split; simpl; [| | |done..].
    - rewrite H1, list_to_set_app_L. simpl. set_solver.
    - apply NoDup_app. split_and!; [done| |apply NoDup_singleton].
      intros x Hx ->%list_elem_of_singleton. done.
    - set_solver. }
  assert (∀ st2, Inv (path ++ [d]) st2 → visited st ⊆ visited st2 →
    (∀ e, e ∈ errors st → e ∈ errors st2) →
    (∀ t, tm !! d = Some t → d ∈ task_dependencies t →
          cycleMessage [d; d] ∈ errors st2) →
    Post d path st (leave d st2)) as Hleave.
  { intros st2 [H1 H2 H3 H4 H5] Hvis Herr Hself.
    split_and!; simpl; [|set_solver|done|done|set_solver].
    split; simpl; [| | |done|].
    - rewrite H1, list_to_set_app_L. simpl. set_solver.
    - apply (inv_nodup _ _ HI).
    - set_solver.
    - intros k t [->%elem_of_singleton|Hk]%elem_of_union Ht Hin; eauto. }
  destruct (tm !! d) as [t|] eqn:Ht.
  - assert (size (dom tm ∖ list_to_set (path ++ [d])) < fuel)%nat as Hsz'.
    { assert (dom tm ∖ list_to_set (path ++ [d]) ⊂ dom tm ∖ list_to_set path)
        as Hsub%subset_size; [|lia].
      assert (d ∈ dom tm) by (apply elem_of_dom; eauto).
      rewrite list_to_set_app_L. simpl. set_solver. }
    pose proof (cd_visitDeps_spec _ _ (IH _ Hsz') (task_dependencies t)
      (enter d st) HI1) as Hdeps.
    destruct (visitDeps (visit tm fuel) (task_dependencies t) (path ++ [d])
      (enter d st)) as [st2|].
    + destruct Hdeps as (HI2 & Hvis2 & Herr2 & Hcyc2 & _).
      { intros x Hx. apply chain_snoc; [done|]. by exists t. }
      apply Hleave; [done..|].
      intros t' [= <-] Hself. rewrite <- (cycleOf_self d path Hfresh).
      apply Hcyc2; [done|]. simpl. set_solver.
    + apply Hdeps. intros x Hx. apply chain_snoc; [done|]. by exists t.
  - apply Hleave; [done..|]. intros t' [=].
Qed.

Lemma cd_visitAll_spec fuel tasks st :
  (size (dom tm) < fuel)%nat → Inv [] st →
  match visitAll tm fuel tasks st with
  | Some st' =>
      Inv [] st' ∧ visited st ⊆ visited st' ∧
      (∀ e, e ∈ errors st → e ∈ errors st') ∧
      ∀ t, t ∈ tasks → task_id t ∈ visited st'
  | None => False
  end.
Proof.
  intros Hsz. revert st.
  assert (visit_ok (visit tm fuel) []) as Hv.
  { apply cd_visit_spec. simpl. by rewrite difference_empty_L. }
  induction tasks as [|t tasks IH]; intros st HI; simpl.
  - split_and!; [done..|]. intros t Ht. by apply elem_of_nil in Ht.
  - destruct (decide (task_id t ∈ visited st)) as [Hin|Hin].
    + specialize (IH st HI).
      destruct (visitAll tm fuel tasks st) as [st'|]; [|done].
      destruct IH as (? & ? & ? & Hall). split_and!; [done..|].
      intros x [->|Hx]%elem_of_cons; [set_solver|by apply Hall].
    + specialize (Hv (task_id t) st HI I).
      destruct (visit tm fuel (task_id t) [] st) as [[b st1]|]; [|done].
      destruct Hv as (HI1 & Hvis1 & Herr1 & _ & Hdone1).
      specialize (IH st1 HI1).
      destruct (visitAll tm fuel tasks st1) as [st'|]; [|done].
      destruct IH as (? & ? & ? & Hall). split_and!; [done|set_solver|by auto|].
      intros x [->|Hx]%elem_of_cons; [|by apply Hall].
      assert (task_id t ∈ visited st1); [|set_solver].
      apply Hdone1. rewrite (inv_stack _ _ HI). set_solver.
Qed.

End traversal.

End CircularDependenciesFacts.

(** *** What the validator reports *)

(** The state the validator ends in. *)
Lemma validateCircularDependencies_final tasks :
  ∃ st, validateCircularDependencies tasks =
          Some {| valid := bool_decide (length (CircularDependencies.errors st) = 0%nat);
                  errors := CircularDependencies.errors st |} ∧
        CycleInvariant.Inv (taskMap tasks) [] st ∧
        ∀ t, t ∈ tasks → task_id t ∈ CircularDependencies.visited st.
Proof.
  unfold validateCircularDependencies. simpl.
  pose proof (CircularDependenciesFacts.cd_visitAll_spec (taskMap tasks)
    (S (size (taskMap tasks))) tasks CircularDependencies.initial) as H.
  rewrite size_dom in H.
  specialize (H (Nat.lt_succ_diag_r _) (CircularDependenciesFacts.cd_Inv_initial _)).
  destruct (CircularDependencies.visitAll _ _ tasks _) as [st|]; [|done].
  destruct H as (HI & _ & _ & Hall). by exists st.
Qed.

(** *** The calls of a run and what they record *)

Module CycleCallsFacts.
Import CircularDependencies CycleInvariant CycleCalls CircularDependenciesFacts.

Lemma visit_unfold tm fuel taskId path st :
  visit tm (S fuel) taskId path st =
  if decide (taskId ∈ visited st) then Some (false, st)
  else if decide (taskId ∈ visiting st) then
    Some (true, pushError
      (cycleMessage (slice (indexOf taskId path) path ++ [taskId])) st)
  else
    match
      match tm !! taskId with
      | Some t =>
          visitDeps (visit tm fuel) (task_dependencies t) (path ++ [taskId])
            (enter taskId st)
      | None => Some (enter taskId st)
      end
    with
    | Some st2 => Some (false, leave taskId st2)
    | None => None
    end.
Proof. reflexivity. Qed.

Lemma visitDeps_app v l1 l2 path st :
  visitDeps v (l1 ++ l2) path st =
  match visitDeps v l1 path st with
  | Some st' => visitDeps v l2 path st'
  | None => None
  end.
Proof.
  revert st. induction l1 as [|d l1 IH]; intros st; simpl; [done|].
  destruct (v d path st) as [[b st1]|]; [apply IH|done].
Qed.

Lemma visitAll_app tm fuel l1 l2 st :
  visitAll tm fuel (l1 ++ l2) st =
  match visitAll tm fuel l1 st with
  | Some st' => visitAll tm fuel l2 st'
  | None => None
  end.
Proof.
  revert st. induction l1 as [|t l1 IH]; intros st; cbn [visitAll app]; [done|].
  destruct (decide (task_id t ∈ visited st)); [apply IH|].
  destruct (visit tm fuel (task_id t) [] st) as [[b st1]|]; [apply IH|done].
Qed.

Lemma cd_Inv_enter tm path d st :
  Inv tm path st → d ∉ visited st → d ∉ visiting st →
  Inv tm (path ++ [d]) (enter d st).
Proof.
  intros [H1 H2 H3 H4 H5] Hvd Hvg.
  assert (d ∉ path) as Hfresh by (rewrite H1 in Hvg; set_solver).
  split; simpl; [| | |done..].
  - rewrite H1, list_to_set_app_L. simpl. set_solver.
  - apply NoDup_app. split_and!; [done| |apply NoDup_singleton].
    intros x Hx ->%list_elem_of_singleton. done.
  - set_solver.
Qed.

Section calls.
Context (tasks : list TaskMasterTask).

Local Abbreviation tm := (taskMap tasks).

Lemma fuel_bound path :
  NoDup path → (∀ k, k ∈ path → is_Some (tm !! k)) →
  (length path ≤ size tm)%nat ∧
  (size (dom tm ∖ list_to_set path) < fuelAt tasks path)%nat.
Proof.
  intros Hnd Hkeys.
  assert ((list_to_set path : gset Z) ⊆ dom tm) as Hsub.
  { intros k Hk%elem_of_list_to_set. by apply elem_of_dom, Hkeys. }
  pose proof (subseteq_size _ _ Hsub) as Hle.
  rewrite size_list_to_set, size_dom in Hle by done.
  split; [done|]. rewrite size_difference by done.
  rewrite size_list_to_set, size_dom by done. unfold fuelAt. lia.
Qed.

Lemma fuelAt_nil : fuelAt tasks [] = S (size tm).
Proof. done. Qed.

Lemma fuelAt_step path d :
  (length path ≤ size tm)%nat →
  fuelAt tasks path = S (fuelAt tasks (path ++ [d])).
Proof. intros Hle. unfold fuelAt. rewrite length_app. simpl. lia. Qed.

(** At every call of the run, [path] is the stack: it lists the nodes of
    [visiting], each once, every one a key of the task map and each the
    dependent of the next; and the node of the call is a dependency of the
    last. *)
Lemma Reached_Inv d path st :
  Reached tasks d path st →
  Inv tm path st ∧ chain (depends tm) (path ++ [d]) ∧
  (∀ k, k ∈ path → is_Some (tm !! k)).
Proof.
  induction 1 as [before t after st Htasks Hrun Hfresh
    |parent path st t before depId after st' Hreached IH Hvd Hvg Ht Hdeps Hrun].
  - pose proof (cd_visitAll_spec tm (fuelAt tasks []) before initial) as H.
    rewrite Hrun in H. destruct H as (HI & _).
    { rewrite fuelAt_nil, size_dom. lia. }
    { apply cd_Inv_initial. }
    split_and!; [done|done|]. intros k Hk. by apply elem_of_nil in Hk.
  - destruct IH as (HI & Hch & Hkeys).
    assert (∀ k, k ∈ path ++ [parent] → is_Some (tm !! k)) as Hkeys'.
    { intros k [Hk| ->%list_elem_of_singleton]%elem_of_app;
        [by apply Hkeys|by eexists]. }
    pose proof (cd_Inv_enter tm path parent st HI Hvd Hvg) as HI1.
    destruct (fuel_bound (path ++ [parent]) (inv_nodup _ _ _ HI1) Hkeys')
      as [_ Hfuel].
    assert (∀ x, x ∈ task_dependencies t →
      chain (depends tm) ((path ++ [parent]) ++ [x])) as Hedge.
    { intros x Hx. apply chain_snoc; [done|]. by exists t. }
    pose proof (cd_visitDeps_spec tm _ _ (cd_visit_spec tm _ _ Hfuel) before
      (enter parent st) HI1) as H.
    rewrite Hrun in H. destruct H as (HI' & _).
    { intros x Hx. apply Hedge. rewrite Hdeps. set_solver. }
    split_and!; [done| |done].
    apply Hedge. rewrite Hdeps. set_solver.
Qed.

(** Every call of the run returns, and in the state the invariant
    describes. *)
Lemma Reached_Post d path st :
  Reached tasks d path st →
  (length path ≤ size tm)%nat ∧
  match visit tm (fuelAt tasks path) d path st with
  | Some (_, st') => Post tm d path st st'
  | None => False
  end.
Proof.
  intros (HI & Hch & Hkeys)%Reached_Inv.
  destruct (fuel_bound path (inv_nodup _ _ _ HI) Hkeys) as [Hle Hfuel].
  split; [done|]. by apply (cd_visit_spec tm _ _ Hfuel).
Qed.

Local Abbreviation allRecorded :=
  (λ st : State, ∀ e, e ∈ errors st → Recorded tasks e).

Lemma visit_Recorded n path d st :
  fuelAt tasks path = n → Reached tasks d path st → allRecorded st →
  match visit tm n d path st with
  | Some (_, st') => allRecorded st'
  | None => True
  end.
Proof.
  revert path d st. induction n as [|n IH]; intros path d st Hfuel Hreached Hrec;
    [done|].
  rewrite visit_unfold.
  destruct (decide (d ∈ visited st)) as [Hvd|Hvd]; [done|].
  destruct (decide (d ∈ visiting st)) as [Hvg|Hvg].
  { intros e [He| ->%list_elem_of_singleton]%elem_of_app; [by apply Hrec|].
    by exists d, path, st. }
  destruct (tm !! d) as [t|] eqn:Ht; [|exact Hrec].
  assert (fuelAt tasks (path ++ [d]) = n) as Hfuel'.
  { unfold fuelAt in *. rewrite length_app. simpl. lia. }
  assert (∀ rest before st1, task_dependencies t = before ++ rest →
    visitDeps (visit tm n) before (path ++ [d]) (enter d st) = Some st1 →
    allRecorded st1 →
    match visitDeps (visit tm n) rest (path ++ [d]) st1 with
    | Some st2 => allRecorded st2
    | None => True
    end) as Hloop.
  { induction rest as [|x rest IHrest]; intros before st1 Hdeps Hrun Hrec1;
      [done|].
    cbn [visitDeps].
    assert (Reached tasks x (path ++ [d]) st1) as Hx.
    { eapply reached_dependency; [done..|exact Hdeps|by rewrite Hfuel']. }
    specialize (IH (path ++ [d]) x st1 Hfuel' Hx Hrec1).
    destruct (visit tm n x (path ++ [d]) st1) as [[b st1']|] eqn:Hvisit; [|done].
    apply (IHrest (before ++ [x])); [by rewrite <- app_assoc| |done].
    rewrite visitDeps_app, Hrun. cbn [visitDeps]. by rewrite Hvisit. }
  specialize (Hloop (task_dependencies t) [] (enter d st) eq_refl eq_refl Hrec).
  destruct (visitDeps (visit tm n) (task_dependencies t) (path ++ [d])
              (enter d st)) as [st2|]; [exact Hloop|done].
Qed.

Lemma visitAll_Recorded fuel rest before st :
  fuel = fuelAt tasks [] → tasks = before ++ rest →
  visitAll tm fuel before initial = Some st → allRecorded st →
  match visitAll tm fuel rest st with
  | Some st' => allRecorded st'
  | None => True
  end.
Proof.
  intros Hfuel. revert before st.
  induction rest as [|t rest IH]; intros before st Htasks Hrun Hrec; [done|].
  cbn [visitAll]. destruct (decide (task_id t ∈ visited st)) as [Hvd|Hvd].
  - apply (IH (before ++ [t])); [by rewrite <- app_assoc| |done].
    rewrite visitAll_app, Hrun. cbn [visitAll]. by rewrite decide_True.
  - assert (Reached tasks (task_id t) [] st) as Ht.
    { eapply reached_top; [exact Htasks|by rewrite <- Hfuel|done]. }
    pose proof (visit_Recorded fuel [] (task_id t) st (eq_sym Hfuel) Ht Hrec) as H.
    destruct (visit tm fuel (task_id t) [] st) as [[b st1]|] eqn:Hvisit; [|done].
    apply (IH (before ++ [t])); [by rewrite <- app_assoc| |done].
    rewrite visitAll_app, Hrun. cbn [visitAll].
    rewrite decide_False by done. by rewrite Hvisit.
Qed.

(** What a call of the run has recorded stays on record to the end. *)
Lemma Reached_kept final d path st :
  visitAll tm (fuelAt tasks []) tasks initial = Some final →
  Reached tasks d path st →
  ∀ b st', visit tm (fuelAt tasks path) d path st = Some (b, st') →
    ∀ e, e ∈ errors st' → e ∈ errors final.
Proof.
  intros Hfinal Hreached.
  induction Hreached as [before t after st Htasks Hrun Hfresh
    |parent path st t before depId after st' Hreached IH Hvd Hvg Ht Hdeps Hrun];
    intros b st_d Hvisit e He.
  - assert (Reached tasks (task_id t) [] st) as Hcall by (by eapply reached_top).
    destruct (Reached_Post _ _ _ Hcall) as [_ HP]. rewrite Hvisit in HP.
    destruct HP as (HI & _).
    assert (visitAll tm (fuelAt tasks []) (before ++ t :: after) initial =
            Some final) as H by (by rewrite <- Htasks).
    rewrite visitAll_app, Hrun in H. cbn [visitAll] in H.
    rewrite decide_False in H by done. rewrite Hvisit in H.
    pose proof (cd_visitAll_spec tm (fuelAt tasks []) after st_d) as Hrest.
    rewrite H in Hrest. destruct Hrest as (_ & _ & Hmono & _); [|done|by auto].
    rewrite fuelAt_nil, size_dom. lia.
  - assert (Reached tasks depId (path ++ [parent]) st') as Hcall
      by (by eapply reached_dependency).
    destruct (Reached_Post _ _ _ Hcall) as [_ HP]. rewrite Hvisit in HP.
    destruct HP as (HI & _).
    destruct (Reached_Post _ _ _ Hreached) as [Hle HPparent].
    destruct (Reached_Inv _ _ _ Hcall) as (HI' & Hch & Hkeys).
    destruct (fuel_bound _ (inv_nodup _ _ _ HI') Hkeys) as [_ Hfuel].
    rewrite (fuelAt_step path parent Hle) in HPparent, IH.
    rewrite visit_unfold in HPparent, IH.
    rewrite !decide_False in HPparent, IH by done.
    rewrite Ht, Hdeps, visitDeps_app, Hrun in HPparent, IH.
    cbn [visitDeps] in HPparent, IH. rewrite Hvisit in HPparent, IH.
    pose proof (cd_visitDeps_spec tm _ _ (cd_visit_spec tm _ _ Hfuel) after
      st_d HI) as Hrest.
    destruct (visitDeps (visit tm (fuelAt tasks (path ++ [parent]))) after
                (path ++ [parent]) st_d) as [st2|]; [|done].
    destruct Hrest as (_ & _ & Hmono & _).
    { intros x Hx. apply chain_snoc; [by apply (Reached_Inv _ _ _ Hreached)|].
      exists t. split; [done|]. rewrite Hdeps. set_solver. }
    apply (IH false (leave parent st2) eq_refl). simpl. by apply Hmono.
Qed.

(** The errors of a run are what its calls have recorded. *)
Lemma run_Recorded final :
  visitAll tm (fuelAt tasks []) tasks initial = Some final →
  ∀ e, e ∈ errors final ↔ Recorded tasks e.
Proof.
  intros Hfinal e. split.
  - pose proof (visitAll_Recorded (fuelAt tasks []) tasks [] initial
      eq_refl eq_refl eq_refl) as H.
    rewrite Hfinal in H. apply H. intros e' He'. by apply elem_of_nil in He'.
  - intros (d & path & st & Hreached & Hvd & Hvg & ->).
    destruct (Reached_Post _ _ _ Hreached) as [Hle _].
    eapply (Reached_kept final d path st Hfinal Hreached true).
    + rewrite (fuelAt_step path d Hle), visit_unfold.
      rewrite decide_False by done. by rewrite decide_True by done.
    + simpl. set_solver.
Qed.

End calls.

End CycleCallsFacts.

(** The errors of the validator are what the calls of its run have
    recorded. *)
Lemma validateCircularDependencies_Recorded tasks :
  ∃ r, validateCircularDependencies tasks = Some r ∧
    ∀ e, e ∈ errors r ↔ CycleCalls.Recorded tasks e.
Proof.
  destruct (validateCircularDependencies_final tasks) as (final & Hr & _).
  eexists. split; [exact Hr|]. cbn [errors].
  unfold validateCircularDependencies in Hr. cbv zeta in Hr.
  destruct (CircularDependencies.visitAll (taskMap tasks)
              (S (size (taskMap tasks))) tasks CircularDependencies.initial)
    as [st|] eqn:Hrun; [|done].
  injection Hr as _ Herr. rewrite <- Herr.
  by apply CycleCallsFacts.run_Recorded.
Qed.

(** C9. When [visit] meets a node that is on the stack, it records the
    slice of the stack that starts at the first occurrence of the node,
    followed by the node again. At every call [visit(taskId, path)] that a
    run of the validator makes, [path] is the traversal stack: it lists
    the nodes that are being visited, each once and in the order they were
    entered, each a dependency of the one before, and [taskId] is a
    dependency of the last. When [taskId] is on it, the call pushes the
    message of [taskId], the nodes above its occurrence on the stack in
    traversal order, and [taskId] again, and nothing else happens. The
    errors the validator returns are exactly the messages its calls have
    pushed in this way, so each spells out a node, a simple path of
    dependency edges from it and the node again. A message is the text
    "Circular dependency: " followed by the ids of the cycle joined by the
    arrow of the source, with the ids as decimal numerals when they are
    below 10^21 in absolute value, and the cycle can be read back from it.
    A task whose dependency list holds its own id is recorded as the cycle
    of that one node, "id -> id". *)
Theorem validateCircularDependencies_records_stack_slice tasks :
  (∀ cycle, Forall plainNumber cycle →
     CircularDependencies.cycleMessage cycle =
       "Circular dependency: " +:+ join " â†’ " (pretty <$> cycle)) ∧
  (∀ x, plainNumber x →
     CircularDependencies.cycleMessage [x; x] =
       "Circular dependency: " +:+ pretty x +:+ " â†’ " +:+ pretty x) ∧
  (∀ cycle cycle',
     CircularDependencies.cycleMessage cycle =
       CircularDependencies.cycleMessage cycle' → cycle = cycle') ∧
  (∀ taskId path st, CycleCalls.Reached tasks taskId path st →
     CircularDependencies.visiting st = list_to_set path ∧ NoDup path ∧
     chain (depends (taskMap tasks)) (path ++ [taskId]) ∧
     (taskId ∈ path →
      ∃ before after, path = before ++ taskId :: after ∧ (taskId ∉ before) ∧
        slice (indexOf taskId path) path ++ [taskId] =
          taskId :: after ++ [taskId] ∧
        CircularDependencies.visit (taskMap tasks)
          (CycleCalls.fuelAt tasks path) taskId path st =
          Some (true,
                CircularDependencies.pushError
                  (CircularDependencies.cycleMessage
                     (taskId :: after ++ [taskId])) st))) ∧
  ∃ r, validateCircularDependencies tasks = Some r ∧
    (∀ e, e ∈ errors r ↔ CycleCalls.Recorded tasks e) ∧
    (∀ e, e ∈ errors r →
       ∃ x post, e = CircularDependencies.cycleMessage (x :: post ++ [x]) ∧
                 NoDup (x :: post) ∧
                 chain (depends (taskMap tasks)) (x :: post ++ [x])) ∧
    (∀ t, taskMap tasks !! task_id t = Some t →
       task_id t ∈ task_dependencies t →
       CircularDependencies.cycleMessage [task_id t; task_id t] ∈ errors r).
Proof.
  split_and!.
  - done.
  - done.
  - apply cycleMessage_inj.
  - intros taskId path st Hreached.
    destruct (CycleCallsFacts.Reached_Inv _ _ _ _ Hreached) as (HI & Hch & Hkeys).
    destruct (CycleCallsFacts.Reached_Post _ _ _ _ Hreached) as [Hle _].
    split_and!; [apply HI|apply HI|done|]. intros Hin.
    apply list_elem_of_split_l in Hin as (before & after & Hpath & Hbefore).
    exists before, after. split_and!; [done|done| |].
    + subst path. by rewrite slice_indexOf.
    + rewrite (CycleCallsFacts.fuelAt_step tasks path taskId Hle),
        CycleCallsFacts.visit_unfold.
      assert (taskId ∈ CircularDependencies.visiting st) as Hvg.
      { rewrite (CycleInvariant.inv_stack _ _ _ HI), Hpath. set_solver. }
      rewrite decide_False
        by (pose proof (CycleInvariant.inv_disj _ _ _ HI); set_solver).
      rewrite decide_True by done. subst path. by rewrite slice_indexOf.
  - destruct (validateCircularDependencies_final tasks) as (st & Hr & HI & Hall).
    destruct (validateCircularDependencies_Recorded tasks) as (r & Hr' & Hrec).
    exists r. split; [done|]. rewrite Hr in Hr'. injection Hr' as <-.
    cbn [errors] in *. split_and!; [done| |].
    + apply (CycleInvariant.inv_sound _ _ _ HI).
    + intros t Ht Hself.
      eapply (CycleInvariant.inv_self _ _ _ HI); [|done..].
      apply Hall. by eapply taskMap_elem.
Qed.

(** C10. The acyclicity check never reports a missing reference: on every
    task list without a dependency cycle it returns [valid = true] and no
    error, whether or not every dependency id exists. An absent id is
    entered and left like a task without dependencies. *)
Theorem validateCircularDependencies_ignores_missing tasks :
  acyclic tasks →
  validateCircularDependencies tasks = Some {| valid := true; errors := [] |}.
Proof.
  intros Hac.
  destruct (validateCircularDependencies_final tasks) as (st & -> & HI & _).
  destruct (CircularDependencies.errors st) as [|e l] eqn:He; [done|].
  exfalso.
  destruct (CycleInvariant.inv_sound _ _ _ HI e)
    as (x & post & _ & _ & Hchain); [rewrite He; left|].
  eapply Hac, tc_depends_dependsOn, chain_tc, Hchain.
Qed.

Lemma scenarioC_acyclic : acyclic scenarioC.
Proof.
  apply (acyclic_rank _ (λ k, if decide (k = 1) then 1%nat else 0%nat)).
  intros a b (t & ->%list_elem_of_singleton & <- & ->%list_elem_of_singleton).
  simpl. lia.
Qed.

Lemma validateCircularDependencies_ignores_missing_witness :
  validateCircularDependencies scenarioC = Some {| valid := true; errors := [] |} ∧
  ¬ referentiallyComplete scenarioC.
Proof.
  split.
  - apply validateCircularDependencies_ignores_missing, scenarioC_acyclic.
  - intros Hc. specialize (Hc (makeTask 1 [99]) 99).
    unfold scenarioC in Hc. simpl in Hc. set_solver.
Defined.

(** ** Topological tiering sort *)

Module TopologicalSortFacts.
Import TopologicalSort SortInvariant.

(** *** The dependency graph and the invariant of the traversal *)

Lemma depTierMax_ext m m' deps acc :
  (∀ d, d ∈ deps → default 0 (m !! d) = default 0 (m' !! d)) →
  depTierMax m deps acc = depTierMax m' deps acc.
Proof.
  revert acc. induction deps as [|d deps IH]; intros acc H; [done|].
  unfold depTierMax in *. simpl. rewrite (H d) by set_solver.
  apply IH. intros x Hx. apply H. set_solver.
Qed.

Lemma depTierMax_ge_acc m deps acc : acc ≤ depTierMax m deps acc.
Proof.
  revert acc. induction deps as [|d deps IH]; intros acc; [done|].
  unfold depTierMax in *. simpl.
  etrans; [|apply IH]. lia.
Qed.

Lemma depTierMax_ge m deps acc d :
  d ∈ deps → default 0 (m !! d) ≤ depTierMax m deps acc.
Proof.
  revert acc. induction deps as [|x deps IH]; intros acc Hd.
  - by apply elem_of_nil in Hd.
  - apply elem_of_cons in Hd as [->|Hd].
    + unfold depTierMax. simpl.
      etrans; [|apply depTierMax_ge_acc]. lia.
    + unfold depTierMax in *. simpl. by apply IH.
Qed.

Lemma depTierMax_attained m deps acc :
  depTierMax m deps acc = acc ∨
  ∃ d, d ∈ deps ∧ depTierMax m deps acc = default 0 (m !! d).
Proof.
  revert acc. induction deps as [|x deps IH]; intros acc; [by left|].
  unfold depTierMax in *. simpl.
  destruct (IH (Z.max acc (default 0 (m !! x)))) as [->|(d&Hd&->)].
  - destruct (Z.max_spec acc (default 0 (m !! x))) as [[_ ->]|[_ ->]].
    + right. exists x. split; [set_solver|done].
    + by left.
  - right. exists d. split; [set_solver|done].
Qed.

Section traversal.
Context (tm : gmap Z TaskMasterTask).
Hypothesis tm_id : ∀ k t, tm !! k = Some t → task_id t = k.

Local Abbreviation depends := (depends tm).
Local Abbreviation Inv := (Inv tm).
Local Abbreviation Post := (Post tm).
Local Abbreviation PostDeps := (PostDeps tm).
Local Abbreviation ThrowPost := (ThrowPost tm).
Local Abbreviation visit_ok := (visit_ok tm).
Local Abbreviation inv_dom := (inv_dom tm).
Local Abbreviation inv_ids := (inv_ids tm).
Local Abbreviation inv_nodup := (inv_nodup tm).
Local Abbreviation inv_sorted := (inv_sorted tm).
Local Abbreviation inv_tier := (inv_tier tm).
Local Abbreviation inv_disj := (inv_disj tm).

Lemma Inv_initial : Inv initial.
Proof.
  split; simpl; try set_solver. constructor.
Qed.

Lemma Inv_enter taskId st :
  Inv st → taskId ∉ visited st → Inv (enter taskId st).
Proof.
  intros HI Hn. destruct HI as [H1 H2 H3 H4 H5 H6].
  split; simpl; try done. clear -H6 Hn. set_solver.
Qed.

Lemma inv_visited_key st k : Inv st → k ∈ visited st → is_Some (tm !! k).
Proof.
  intros HI Hk. rewrite <- (inv_ids _ HI) in Hk.
  apply elem_of_list_to_set, list_elem_of_fmap in Hk as (s&->&Hs).
  destruct (inv_sorted _ HI s Hs) as [H _]. simpl. eauto.
Qed.

Lemma inv_tier_defined st k : Inv st → k ∈ visited st →
  tierMap st !! k = Some (getTier st k).
Proof.
  intros HI Hk. rewrite <- (inv_dom _ HI) in Hk.
  apply elem_of_dom in Hk as [v Hv]. unfold getTier. by rewrite Hv.
Qed.

Lemma Inv_leave t st :
  Inv st → tm !! task_id t = Some t → task_id t ∉ visited st →
  (∀ d, d ∈ task_dependencies t → d ∈ visited st) →
  Inv (leave (task_id t) t
         (depTierMax (tierMap st) (task_dependencies t) (-1) + 1) st).
Proof.
  intros HI Ht Hn Hdeps.
  assert (Hext : ∀ t', (∀ d, d ∈ task_dependencies t' → d ∈ visited st) →
    depTierMax (<[task_id t := depTierMax (tierMap st) (task_dependencies t) (-1) + 1]> (tierMap st))
      (task_dependencies t') (-1)
    = depTierMax (tierMap st) (task_dependencies t') (-1)).
  { intros t' Hd. apply depTierMax_ext. intros d Hin. f_equal.
    apply lookup_insert_ne. intros Heq. apply Hn. rewrite Heq. by apply Hd. }
  split; simpl.
  - rewrite dom_insert_L. by rewrite (inv_dom _ HI).
  - rewrite fmap_app, list_to_set_app_L. simpl.
    rewrite (inv_ids _ HI). set_solver.
  - rewrite fmap_app. apply NoDup_app. split; [apply (inv_nodup _ HI)|].
    split; [|apply NoDup_singleton].
    intros x Hx ->%list_elem_of_singleton. simpl in Hx.
    apply Hn. rewrite <- (inv_ids _ HI). by apply elem_of_list_to_set.
  - intros s [Hs| ->%list_elem_of_singleton]%elem_of_app.
    + destruct (inv_sorted _ HI s Hs) as [H1 H2]. split; [done|].
      rewrite lookup_insert_ne; [done|]. intros Heq. apply Hn.
      rewrite Heq, <- (inv_ids _ HI). apply elem_of_list_to_set.
      apply list_elem_of_fmap. by exists s.
    + simpl. split; [done|]. by rewrite lookup_insert_eq.
  - intros k t' Hk Hk'.
    destruct (decide (k = task_id t)) as [->|Hne].
    + assert (t' = t) as -> by congruence.
      split; [set_solver|]. rewrite lookup_insert_eq, Hext; done.
    + assert (Hkv : k ∈ visited st) by set_solver.
      destruct (inv_tier _ HI k t' Hkv Hk') as [H1 H2].
      split; [set_solver|].
      rewrite lookup_insert_ne by done. by rewrite Hext.
  - pose proof (inv_disj _ HI). set_solver.
Qed.

Lemma visitDeps_spec v V :
  visit_ok v V → ∀ deps acc st, Inv st → visiting st = V →
  match visitDeps v deps acc st with
  | Some (Return (m, st')) => PostDeps deps acc st m st'
  | Some (Throw msg) => ∃ d, d ∈ deps ∧ ThrowPost d V msg
  | None => False
  end.
Proof.
  intros Hv deps. induction deps as [|d deps IH]; intros acc st HI HV; simpl.
  - split_and!; try done. intros d Hd. by apply elem_of_nil in Hd.
  - specialize (Hv d st HI HV).
    destruct (v d st) as [[[depTier st1]|msg]|]; [|by exists d; set_solver|done].
    destruct Hv as (HI1 & HV1 & Hvis1 & Hd1 & Hsub1 & Htier1).
    specialize (IH (Z.max acc depTier) st1 HI1 (eq_trans HV1 HV)).
    destruct (visitDeps v deps (Z.max acc depTier) st1) as [[[m st2]|msg]|];
      [|destruct IH as (x & Hx & HT); exists x; set_solver|done].
    destruct IH as (HI2 & HV2 & Hvis2 & Hsub2 & Hdeps2 & Hm).
    split_and!; try done.
    + congruence.
    + set_solver.
    + by etrans.
    + intros x [->|Hx]%elem_of_cons; [set_solver|by apply Hdeps2].
    + rewrite Hm. unfold depTierMax. simpl.
      by rewrite (lookup_weaken _ _ _ _ Htier1 Hsub2).
Qed.

Lemma visit_spec fuel V :
  (size (dom tm ∖ V) < fuel)%nat → visit_ok (visit tm fuel) V.
Proof.
  revert V. induction fuel as [|fuel IH]; intros V Hsz d st HI HV; [lia|].
  simpl. destruct (decide (d ∈ visited st)) as [Hvd|Hvd].
  { split_and!; try done. by apply inv_tier_defined. }
  destruct (decide (d ∈ visiting st)) as [Hvg|Hvg].
  { exists d. split; [done|]. left. split; [done|]. left. by rewrite <- HV. }
  destruct (tm !! d) as [t|] eqn:Ht; [|by exists d; split; [|right]].
  assert (task_id t = d) as Hid by eauto.
  assert (size (dom tm ∖ ({[d]} ∪ V)) < fuel)%nat as Hsz'.
  { assert (dom tm ∖ ({[d]} ∪ V) ⊂ dom tm ∖ V) as Hsub%subset_size; [|lia].
    assert (d ∈ dom tm) by (apply elem_of_dom; eauto).
    rewrite HV in Hvg. set_solver. }
  pose proof (visitDeps_spec _ _ (IH _ Hsz') (task_dependencies t) (-1)
    (enter d st) (Inv_enter _ _ HI Hvd)) as Hdeps.
  simpl in Hdeps. rewrite HV in Hdeps. specialize (Hdeps eq_refl).
  destruct (visitDeps (visit tm fuel) (task_dependencies t) (-1) (enter d st))
    as [[[m st']|msg]|]; [| |done].
  - destruct Hdeps as (HI' & HV' & Hvis' & Hsub' & Hdeps' & ->).
    simpl in *.
    assert (d ∉ visited st') as Hfresh.
    { pose proof (inv_disj _ HI'). rewrite HV' in *. set_solver. }
    subst d. split_and!; simpl.
    + by apply Inv_leave.
    + rewrite HV'. set_solver.
    + set_solver.
    + set_solver.
    + etrans; [done|]. apply insert_subseteq.
      rewrite <- not_elem_of_dom, (inv_dom _ HI'). done.
    + by rewrite lookup_insert_eq.
  - destruct Hdeps as (x & Hx & k & Hreach & Hk).
    assert (depends d x) as Hedge by (by exists t).
    exists k. split; [by eapply rtc_l|].
    destruct Hk as [[-> [Hin|Hcyc]]|Hnf]; [| |by right].
    + left. split; [done|].
      apply elem_of_union in Hin as [->%elem_of_singleton|Hin]; [|by left].
      right. by eapply tc_rtc_r; [apply tc_once|].
    + left. split; [done|]. by right.
Qed.

Lemma visitAll_spec fuel tasks st :
  (size (dom tm) < fuel)%nat → Inv st → visiting st = ∅ →
  match visitAll tm fuel tasks st with
  | Some (Return st') =>
      Inv st' ∧ visiting st' = ∅ ∧ visited st ⊆ visited st' ∧
      ∀ t, t ∈ tasks → task_id t ∈ visited st'
  | Some (Throw msg) => ∃ t, t ∈ tasks ∧ ThrowPost (task_id t) ∅ msg
  | None => False
  end.
Proof.
  intros Hsz. revert st.
  assert (visit_ok (visit tm fuel) ∅) as Hv.
  { apply visit_spec. by rewrite difference_empty_L. }
  induction tasks as [|t tasks IH]; intros st HI HV; simpl.
  - split_and!; try done. intros t Ht. by apply elem_of_nil in Ht.
  - destruct (decide (task_id t ∈ visited st)) as [Hin|Hin].
    + specialize (IH st HI HV).
      destruct (visitAll tm fuel tasks st) as [[st'|msg]|]; [| |done].
      * destruct IH as (? & ? & ? & Hall). split_and!; try done.
        intros x [->|Hx]%elem_of_cons; [set_solver|by apply Hall].
      * destruct IH as (x & Hx & HT). exists x. set_solver.
    + specialize (Hv (task_id t) st HI HV).
      destruct (visit tm fuel (task_id t) st) as [[[r st1]|msg]|];
        [|by exists t; set_solver|done].
      destruct Hv as (HI1 & HV1 & Hvis1 & Hd1 & _ & _).
      specialize (IH st1 HI1 (eq_trans HV1 HV)).
      destruct (visitAll tm fuel tasks st1) as [[st'|msg]|]; [| |done].
      * destruct IH as (? & ? & ? & Hall). split_and!; try done.
        -- set_solver.
        -- intros x [->|Hx]%elem_of_cons; [set_solver|by apply Hall].
      * destruct IH as (x & Hx & HT). exists x. set_solver.
Qed.

(** Along an edge out of a finished node the tier strictly decreases. *)
Lemma inv_edge st a b :
  Inv st → a ∈ visited st → depends a b →
  b ∈ visited st ∧ getTier st b < getTier st a.
Proof.
  intros HI Ha (t & Ht & Hb).
  destruct (inv_tier _ HI a t Ha Ht) as [Hdeps Htier].
  split; [by apply Hdeps|].
  unfold getTier at 2. rewrite Htier. simpl.
  pose proof (depTierMax_ge (tierMap st) _ (-1) b Hb). unfold getTier. lia.
Qed.

Lemma inv_path st a b :
  Inv st → a ∈ visited st → tc depends a b →
  b ∈ visited st ∧ getTier st b < getTier st a.
Proof.
  intros HI Ha Hab. induction Hab as [a b Hab|a b c Hab Hbc IH].
  - by apply inv_edge.
  - destruct (inv_edge st a b HI Ha Hab) as [Hb Hlt].
    destruct (IH Hb) as [Hc Hlt']. split; [done|lia].
Qed.

Lemma inv_tier_nonneg st k : Inv st → k ∈ visited st → 0 ≤ getTier st k.
Proof.
  intros HI Hk. destruct (inv_visited_key st k HI Hk) as [t Ht].
  destruct (inv_tier _ HI k t Hk Ht) as [_ Htier].
  unfold getTier. rewrite Htier. simpl.
  pose proof (depTierMax_ge_acc (tierMap st) (task_dependencies t) (-1)). lia.
Qed.

Lemma tc_depends_key a b : tc depends a b → is_Some (tm !! a).
Proof.
  intros H. destruct H as [a b (t & Ht & _)|a b c (t & Ht & _) _]; eauto.
Qed.

(** A traversal that finishes everything certifies the graph. *)
Lemma inv_total_acyclic st :
  Inv st → visited st = dom tm → ∀ a, ¬ tc depends a a.
Proof.
  intros HI Hall a Hcyc.
  assert (a ∈ visited st) as Ha.
  { rewrite Hall. apply elem_of_dom. by eapply tc_depends_key. }
  destruct (inv_path st a a HI Ha Hcyc). lia.
Qed.

Lemma inv_total_complete st :
  Inv st → visited st = dom tm → ∀ a b, depends a b → is_Some (tm !! b).
Proof.
  intros HI Hall a b Hab.
  assert (a ∈ visited st) as Ha.
  { rewrite Hall. apply elem_of_dom. destruct Hab as (t & Ht & _). eauto. }
  destruct (inv_edge st a b HI Ha Hab) as [Hb _].
  by eapply inv_visited_key.
Qed.

(** The tiers are determined by the graph, not by the order of the walk. *)
Lemma inv_tier_unique st st' :
  Inv st → Inv st' → visited st = visited st' →
  ∀ k, k ∈ visited st → getTier st k = getTier st' k.
Proof.
  intros HI HI' Hv.
  assert (∀ n : nat, ∀ k, k ∈ visited st →
    (Z.to_nat (getTier st k) < n)%nat → getTier st k = getTier st' k) as H.
  { induction n as [|n IH]; intros k Hk Hlt; [lia|].
    destruct (inv_visited_key st k HI Hk) as [t Ht].
    destruct (inv_tier _ HI k t Hk Ht) as [Hdeps Htier].
    assert (k ∈ visited st') as Hk' by (by rewrite <- Hv).
    destruct (inv_tier _ HI' k t Hk' Ht) as [_ Htier'].
    assert (getTier st k = depTierMax (tierMap st) (task_dependencies t) (-1) + 1)
      as Hk1 by (unfold getTier; by rewrite Htier).
    unfold getTier at 2. rewrite Hk1, Htier'. simpl. f_equal.
    apply depTierMax_ext. intros d Hd. apply (IH d); [by apply Hdeps|].
    assert (depends k d) as Hedge by (by exists t).
    destruct (inv_edge st k d HI Hk Hedge) as [Hdv Hlt'].
    pose proof (inv_tier_nonneg st d HI Hdv). lia. }
  intros k Hk. eapply H; [done|]. apply Nat.lt_succ_diag_r.
Qed.

Lemma inv_sorted_incl st st' :
  Inv st → Inv st' → visited st = visited st' →
  ∀ s, s ∈ sorted st → s ∈ sorted st'.
Proof.
  intros HI HI' Hv s Hs.
  destruct (inv_sorted _ HI s Hs) as [Htm Ht].
  assert (task_id (task s) ∈ visited st) as Hin.
  { rewrite <- (inv_ids _ HI).
    apply elem_of_list_to_set, list_elem_of_fmap. by exists s. }
  pose proof (inv_tier_unique st st' HI HI' Hv _ Hin) as Huniq.
  rewrite Hv, <- (inv_ids _ HI') in Hin.
  apply elem_of_list_to_set, list_elem_of_fmap in Hin as (s' & Hid & Hs').
  destruct (inv_sorted _ HI' s' Hs') as [Htm' Ht'].
  simpl in Hid. rewrite <- Hid in Htm', Ht'.
  unfold getTier in Huniq. rewrite Ht, Ht' in Huniq. simpl in Huniq.
  assert (s' = s) as ->; [|done].
  destruct s, s'; simpl in *. f_equal; congruence.
Qed.

Lemma inv_sorted_Permutation st st' :
  Inv st → Inv st' → visited st = visited st' → sorted st ≡ₚ sorted st'.
Proof.
  intros HI HI' Hv. apply NoDup_Permutation.
  - eapply NoDup_fmap_1, (inv_nodup _ HI).
  - eapply NoDup_fmap_1, (inv_nodup _ HI').
  - intros s. split; by apply inv_sorted_incl.
Qed.

End traversal.

(** Every outcome of [topologicalSort], read on the task map. *)
Lemma topologicalSort_cases tasks :
  match topologicalSort tasks with
  | Some (Return out) =>
      ∃ st, Inv (taskMap tasks) st ∧ visited st = dom (taskMap tasks) ∧
            out = sort compareSorted (sorted st)
  | Some (Throw msg) =>
      ∃ k, (msg = circularMessage k ∧ tc (depends (taskMap tasks)) k k) ∨
           (msg = notFoundMessage k ∧ taskMap tasks !! k = None ∧
            ∃ a, is_Some (taskMap tasks !! a) ∧
                 rtc (depends (taskMap tasks)) a k)
  | None => False
  end.
Proof.
  unfold topologicalSort. simpl.
  pose proof (visitAll_spec (taskMap tasks) (taskMap_id tasks)
    (S (size (taskMap tasks))) tasks initial) as H.
  rewrite size_dom in H.
  specialize (H (Nat.lt_succ_diag_r _) (Inv_initial _ (taskMap_id tasks)) eq_refl).
  destruct (visitAll _ _ tasks initial) as [[st|msg]|]; [| |done].
  - destruct H as (HI & _ & _ & Hall). exists st. split_and!; [done| |done].
    apply set_eq. intros k. split.
    + intros Hk. apply elem_of_dom. by eapply inv_visited_key.
    + rewrite taskMap_dom.
      intros (t & -> & Ht)%elem_of_list_to_set%list_elem_of_fmap. by apply Hall.
  - destruct H as (t & Ht & k & Hreach & [[-> [Hin|Hcyc]]|[-> Hnone]]).
    + by apply not_elem_of_empty in Hin.
    + exists k. by left.
    + exists k. right. split_and!; [done..|].
      exists (task_id t). split; [by apply taskMap_key|done].
Qed.

(** *** From the task map to the task list *)

Lemma complete_reach tasks a k :
  referentiallyComplete tasks → is_Some (taskMap tasks !! a) →
  rtc (depends (taskMap tasks)) a k → is_Some (taskMap tasks !! k).
Proof.
  intros Hc Ha Hreach. induction Hreach as [a|a b c Hab _ IH]; [done|].
  apply IH. destruct Hab as (t & Ht & Hb).
  apply elem_of_dom. rewrite taskMap_dom. apply elem_of_list_to_set.
  eapply Hc; [by eapply taskMap_elem|done].
Qed.

(** On an acyclic, referentially complete task set the sort returns. *)
Lemma topologicalSort_returns tasks :
  acyclic tasks → referentiallyComplete tasks →
  ∃ out, topologicalSort tasks = Some (Return out).
Proof.
  intros Hac Hc. pose proof (topologicalSort_cases tasks) as H.
  destruct (topologicalSort tasks) as [[out|msg]|]; [by exists out| |done].
  exfalso. destruct H as (k & [[_ Hcyc]|(_ & Hnone & a & Ha & Hreach)]).
  - by apply (Hac k), tc_depends_dependsOn.
  - pose proof (complete_reach tasks a k Hc Ha Hreach) as [? ?]. congruence.
Qed.

(** Conversely, a returning sort certifies the task set. *)
Lemma topologicalSort_Return_graph tasks out :
  uniqueIds tasks → topologicalSort tasks = Some (Return out) →
  acyclic tasks ∧ referentiallyComplete tasks.
Proof.
  intros Hu Hret. pose proof (topologicalSort_cases tasks) as H.
  rewrite Hret in H. destruct H as (st & HI & Hall & _). split.
  - intros a Hcyc%(tc_dependsOn_depends _ _ _ Hu).
    by eapply inv_total_acyclic; eauto using taskMap_id.
  - intros t d Ht Hd.
    assert (depends (taskMap tasks) (task_id t) d) as Hdep.
    { apply dependsOn_depends; [done|]. by exists t. }
    eapply inv_total_complete in Hdep; eauto using taskMap_id.
    apply elem_of_dom in Hdep. rewrite taskMap_dom in Hdep.
    by apply elem_of_list_to_set in Hdep.
Qed.

(** *** The order of the output *)

Lemma compareSorted_le a b :
  compareSorted a b ≤ 0 ↔
  tier a < tier b ∨
  (tier a = tier b ∧ task_id (task a) ≤ task_id (task b)).
Proof. unfold compareSorted. case_decide; lia. Qed.

Lemma compareSorted_total a b : 0 < compareSorted a b → compareSorted b a ≤ 0.
Proof. unfold compareSorted. repeat case_decide; lia. Qed.

Lemma compareSorted_trans a b c :
  compareSorted a b ≤ 0 → compareSorted b c ≤ 0 → compareSorted a c ≤ 0.
Proof. rewrite !compareSorted_le. lia. Qed.

Lemma sort_StronglySorted l :
  StronglySorted (λ a b, compareSorted a b ≤ 0) (sort compareSorted l).
Proof.
  apply Sorted.Sorted_StronglySorted.
  - intros a b c. apply compareSorted_trans.
  - apply sort_Sorted, compareSorted_total.
Qed.

Lemma StronglySorted_lookup_lt {A} (R : relation A) l i j x y :
  StronglySorted R l → l !! i = Some x → l !! j = Some y → (i < j)%nat →
  R x y.
Proof.
  intros Hl. revert i j. induction Hl as [|a l Hl IH Hall]; intros i j Hi Hj Hlt.
  { by rewrite lookup_nil in Hi. }
  destruct j as [|j]; [lia|]. simpl in Hj. destruct i as [|i]; simpl in Hi.
  - inv Hi. rewrite Forall_forall in Hall. apply Hall.
    by eapply list_elem_of_lookup_2.
  - apply (IH i j); [done..|lia].
Qed.

Lemma topologicalSort_output tasks out :
  topologicalSort tasks = Some (Return out) →
  ∃ st, Inv (taskMap tasks) st ∧ visited st = dom (taskMap tasks) ∧
        out ≡ₚ sorted st ∧
        StronglySorted (λ a b, compareSorted a b ≤ 0) out.
Proof.
  intros Hret. pose proof (topologicalSort_cases tasks) as H.
  rewrite Hret in H. destruct H as (st & HI & Hall & ->).
  exists st. split_and!; [done..|apply sort_Permutation|apply sort_StronglySorted].
Qed.

Section output.
Context (tasks : list TaskMasterTask) (st : State).
Hypothesis HI : Inv (taskMap tasks) st.
Hypothesis Hall : visited st = dom (taskMap tasks).

Lemma sorted_of_id k :
  k ∈ visited st →
  ∃ s, s ∈ sorted st ∧ task_id (task s) = k ∧ tier s = getTier st k.
Proof.
  intros Hk. pose proof Hk as Hk'. rewrite <- (inv_ids _ _ HI) in Hk'.
  apply elem_of_list_to_set, list_elem_of_fmap in Hk' as (s & -> & Hs).
  exists s. split_and!; [done..|].
  destruct (inv_sorted _ _ HI s Hs) as [_ Ht]. simpl.
  unfold getTier. by rewrite Ht.
Qed.

Lemma sorted_visited s : s ∈ sorted st → task_id (task s) ∈ visited st.
Proof.
  intros Hs. rewrite <- (inv_ids _ _ HI).
  apply elem_of_list_to_set, list_elem_of_fmap. by exists s.
Qed.

Lemma sorted_tier s : s ∈ sorted st → tier s = getTier st (task_id (task s)).
Proof.
  intros Hs. destruct (inv_sorted _ _ HI s Hs) as [_ Ht].
  unfold getTier. by rewrite Ht.
Qed.

Lemma sorted_dep_tier s d :
  s ∈ sorted st → d ∈ task_dependencies (task s) →
  d ∈ visited st ∧ getTier st d < tier s.
Proof.
  intros Hs Hd. rewrite (sorted_tier s Hs).
  eapply inv_edge; eauto using taskMap_id, sorted_visited.
  exists (task s). split; [|done]. by destruct (inv_sorted _ _ HI s Hs).
Qed.

Lemma sorted_tasks_Permutation :
  uniqueIds tasks → task <$> sorted st ≡ₚ tasks.
Proof.
  intros Hu. apply NoDup_Permutation.
  - eapply (NoDup_fmap_1 task_id). rewrite <- list_fmap_compose.
    apply (inv_nodup _ _ HI).
  - by eapply NoDup_fmap_1.
  - intros t. split.
    + intros (s & -> & Hs)%list_elem_of_fmap.
      destruct (inv_sorted _ _ HI s Hs) as [Ht _]. by eapply taskMap_elem.
    + intros Ht.
      assert (task_id t ∈ visited st) as Hv.
      { rewrite Hall. apply elem_of_dom. by apply taskMap_key. }
      destruct (sorted_of_id _ Hv) as (s & Hs & Hid & _).
      apply list_elem_of_fmap. exists s. split; [|done].
      destruct (inv_sorted _ _ HI s Hs) as [Hs' _].
      rewrite Hid, (taskMap_lookup tasks t Hu Ht) in Hs'. congruence.
Qed.

Lemma sorted_tierRule out s :
  out ≡ₚ sorted st → s ∈ out → tierRule out s.
Proof.
  intros Hperm Hs. rewrite Hperm in Hs.
  destruct (inv_sorted _ _ HI s Hs) as [Htm Htier].
  destruct (inv_tier _ _ HI _ _ (sorted_visited s Hs) Htm) as [Hdeps Htier'].
  rewrite Htier in Htier'. injection Htier' as Htier'.
  exists (getTier st <$> task_dependencies (task s)). split.
  - apply Forall2_fmap_r, Forall_Forall2_diag, Forall_forall.
    intros d Hd. destruct (sorted_of_id d (Hdeps d Hd)) as (sd & Hsd & ? & ?).
    exists sd. by rewrite Hperm.
  - destruct (task_dependencies (task s)) as [|d0 deps] eqn:Hds; simpl.
    { rewrite Htier'. done. }
    exists (depTierMax (tierMap st) (d0 :: deps) (-1)).
    split; [|lia]. split.
    + destruct (depTierMax_attained (tierMap st) (d0 :: deps) (-1))
        as [Hm|(d & Hd & Hm)].
      * pose proof (depTierMax_ge (tierMap st) (d0 :: deps) (-1) d0) as Hge.
        assert (d0 ∈ d0 :: deps) as Hin by set_solver.
        assert (0 ≤ getTier st d0) as Hnn
          by (eapply inv_tier_nonneg; eauto using taskMap_id).
        unfold getTier in Hnn. rewrite Hm in Hge.
        specialize (Hge Hin). lia.
      * rewrite Hm. change (getTier st d ∈ getTier st <$> (d0 :: deps)).
        apply list_elem_of_fmap. by exists d.
    + intros x Hx. change (x ∈ getTier st <$> (d0 :: deps)) in Hx.
      apply list_elem_of_fmap in Hx as (d & -> & Hd).
      by apply depTierMax_ge.
Qed.

End output.

(** *** Correctness on valid task sets *)

(** C1. On every acyclic, referentially complete task set (unique ids),
    [topologicalSort] returns; the tasks of the output are the input tasks,
    each exactly once; every tier obeys the tier rule (0 without
    dependencies, otherwise 1 plus the greatest tier among the
    dependencies); and every dependency of a task stands at a strictly
    smaller index of the output than the task. *)
Theorem topologicalSort_correct tasks :
  uniqueIds tasks → acyclic tasks → referentiallyComplete tasks →
  ∃ out, topologicalSort tasks = Some (Return out) ∧
    task <$> out ≡ₚ tasks ∧
    (∀ s, s ∈ out → tierRule out s) ∧
    (∀ i s d, out !! i = Some s → d ∈ task_dependencies (task s) →
       ∃ j sd, (j < i)%nat ∧ out !! j = Some sd ∧ task_id (task sd) = d).
Proof.
  intros Hu Hac Hc.
  destruct (topologicalSort_returns tasks Hac Hc) as [out Hret].
  exists out. split; [done|].
  destruct (topologicalSort_output tasks out Hret)
    as (st & HI & Hall & Hperm & Hsorted).
  split_and!.
  - rewrite Hperm. by eapply sorted_tasks_Permutation.
  - intros s Hs. by eapply sorted_tierRule.
  - intros i s d Hi Hd.
    assert (s ∈ sorted st) as Hs.
    { rewrite <- Hperm. by eapply list_elem_of_lookup_2. }
    destruct (sorted_dep_tier tasks st HI s d Hs Hd) as [Hdv Hlt].
    destruct (sorted_of_id tasks st HI d Hdv) as (sd & Hsd & Hid & Htier).
    rewrite <- Hperm in Hsd.
    apply list_elem_of_lookup in Hsd as [j Hj].
    exists j, sd. split_and!; [|done..].
    destruct (lt_eq_lt_dec j i) as [[Hji|Hji]|Hji]; [done| |].
    + subst j. rewrite Hi in Hj. injection Hj as <-. lia.
    + pose proof (StronglySorted_lookup_lt _ _ _ _ _ _ Hsorted Hi Hj Hji) as Hle.
      apply compareSorted_le in Hle. lia.
Qed.

Lemma scenarioA_uniqueIds : uniqueIds scenarioA.
Proof. unfold uniqueIds. simpl. repeat (constructor; [set_solver|]). constructor. Qed.

Lemma topologicalSort_correct_witness :
  ∃ out, topologicalSort scenarioA = Some (Return out) ∧
    task <$> out ≡ₚ scenarioA ∧
    (∀ s, s ∈ out → tierRule out s) ∧
    (∀ i s d, out !! i = Some s → d ∈ task_dependencies (task s) →
       ∃ j sd, (j < i)%nat ∧ out !! j = Some sd ∧ task_id (task sd) = d).
Proof.
  apply topologicalSort_correct.
  - apply scenarioA_uniqueIds.
  - eapply topologicalSort_Return_graph;
      [apply scenarioA_uniqueIds|vm_compute; reflexivity].
  - eapply topologicalSort_Return_graph;
      [apply scenarioA_uniqueIds|vm_compute; reflexivity].
Defined.

(** *** Determinism *)

Lemma taskMap_Permutation tasks tasks' :
  uniqueIds tasks → tasks ≡ₚ tasks' → taskMap tasks = taskMap tasks'.
Proof.
  intros Hu Hp. assert (uniqueIds tasks') as Hu'.
  { unfold uniqueIds. by rewrite <- Hp. }
  apply map_eq. intros k.
  destruct (taskMap tasks !! k) as [t|] eqn:Hk.
  - pose proof (taskMap_id _ _ _ Hk) as <-.
    symmetry. apply taskMap_lookup; [done|].
    rewrite <- Hp. by eapply taskMap_elem.
  - destruct (taskMap tasks' !! k) as [t|] eqn:Hk'; [|done].
    pose proof (taskMap_id _ _ _ Hk') as <-.
    apply taskMap_elem in Hk'. rewrite <- Hp in Hk'.
    by rewrite (taskMap_lookup tasks t Hu Hk') in Hk.
Qed.

Lemma dependsOn_Permutation tasks tasks' a b :
  tasks ≡ₚ tasks' → dependsOn tasks a b → dependsOn tasks' a b.
Proof. intros Hp (t & Ht & ?). exists t. by rewrite <- Hp. Qed.

Lemma tc_dependsOn_Permutation tasks tasks' a b :
  tasks ≡ₚ tasks' → tc (dependsOn tasks') a b → tc (dependsOn tasks) a b.
Proof.
  intros Hp. induction 1 as [a b H|a b c H _ IH].
  - by eapply tc_once, dependsOn_Permutation.
  - eapply tc_l; [|done]. by eapply dependsOn_Permutation.
Qed.

Lemma graph_Permutation tasks tasks' :
  tasks ≡ₚ tasks' → acyclic tasks ∧ referentiallyComplete tasks →
  acyclic tasks' ∧ referentiallyComplete tasks'.
Proof.
  intros Hp [Hac Hc]. split.
  - intros a Hcyc. apply (Hac a). by eapply tc_dependsOn_Permutation.
  - intros t d Ht Hd. rewrite <- Hp in Ht |- *. by eapply Hc.
Qed.

Lemma StronglySorted_strict l :
  StronglySorted (λ a b, compareSorted a b ≤ 0) l →
  NoDup ((task_id ∘ task) <$> l) → StronglySorted sortedBefore l.
Proof.
  induction 1 as [|x l Hl IH Hall]; intros Hnd; [constructor|].
  apply NoDup_cons in Hnd as [Hx Hnd]. constructor; [by apply IH|].
  rewrite Forall_forall in Hall |- *. intros y Hy.
  specialize (Hall y Hy). apply compareSorted_le in Hall.
  assert (task_id (task x) ≠ task_id (task y)) as Hne.
  { intros Heq. apply Hx. simpl. rewrite Heq.
    apply list_elem_of_fmap. by exists y. }
  unfold sortedBefore. lia.
Qed.

(** C3. The output does not depend on the order of the input array: on a
    task set (unique ids) and any permutation of it the sort returns the
    same sequence, which is strictly ascending in (tier, id); when the sort
    throws on one of them it throws on the other. *)
Theorem topologicalSort_deterministic tasks tasks' :
  uniqueIds tasks → tasks ≡ₚ tasks' →
  match topologicalSort tasks with
  | Some (Return out) =>
      topologicalSort tasks' = Some (Return out) ∧ StronglySorted sortedBefore out
  | Some (Throw _) => ∃ msg', topologicalSort tasks' = Some (Throw msg')
  | None => False
  end.
Proof.
  intros Hu Hp. assert (uniqueIds tasks') as Hu'.
  { unfold uniqueIds. by rewrite <- Hp. }
  pose proof (topologicalSort_cases tasks') as Hcases'.
  destruct (topologicalSort tasks) as [[out|msg]|] eqn:Hret.
  - destruct (topologicalSort_output tasks out Hret)
      as (st & HI & Hall & Hperm & Hsorted).
    assert (NoDup ((task_id ∘ task) <$> out)) as Hnd.
    { rewrite Hperm. apply (inv_nodup _ _ HI). }
    split; [|by apply StronglySorted_strict].
    pose proof (topologicalSort_Return_graph tasks out Hu Hret) as Hg.
    apply (graph_Permutation _ _ Hp) in Hg as [Hac' Hc'].
    destruct (topologicalSort_returns tasks' Hac' Hc') as [out' Hret'].
    rewrite Hret'. do 2 f_equal.
    destruct (topologicalSort_output tasks' out' Hret')
      as (st' & HI' & Hall' & Hperm' & Hsorted').
    rewrite <- (taskMap_Permutation _ _ Hu Hp) in HI', Hall'.
    assert (visited st = visited st') as Hv by congruence.
    assert (sorted st ≡ₚ sorted st') as Hss
      by (eapply inv_sorted_Permutation; eauto using taskMap_id).
    symmetry.
    apply (StronglySorted_unique_strong (λ a b, compareSorted a b ≤ 0));
      [|done..|by rewrite Hperm, Hperm'].
    intros x1 x2 Hx1 Hx2 H12%compareSorted_le H21%compareSorted_le.
    rewrite Hperm in Hx1. rewrite Hperm', <- Hss in Hx2.
    destruct (inv_sorted _ _ HI x1 Hx1) as [Htm1 _].
    destruct (inv_sorted _ _ HI x2 Hx2) as [Htm2 _].
    assert (task_id (task x1) = task_id (task x2)) as Hid by lia.
    assert (tier x1 = tier x2) as Htier by lia.
    rewrite Hid in Htm1. destruct x1, x2; simpl in *. f_equal; congruence.
  - destruct (topologicalSort tasks') as [[out'|msg']|] eqn:Hret';
      [|by eauto|done].
    exfalso.
    pose proof (topologicalSort_Return_graph tasks' out' Hu' Hret') as Hg.
    apply (graph_Permutation tasks' tasks) in Hg as [Hac Hc]; [|done].
    destruct (topologicalSort_returns tasks Hac Hc) as [out Hout]. congruence.
  - pose proof (topologicalSort_cases tasks) as Hcases.
    by rewrite Hret in Hcases.
Qed.

Lemma topologicalSort_deterministic_witness :
  match topologicalSort scenarioA with
  | Some (Return out) =>
      topologicalSort scenarioA' = Some (Return out) ∧ StronglySorted sortedBefore out
  | Some (Throw _) => ∃ msg', topologicalSort scenarioA' = Some (Throw msg')
  | None => False
  end.
Proof.
  apply topologicalSort_deterministic.
  - apply scenarioA_uniqueIds.
  - unfold scenarioA, scenarioA'.
    etrans; [apply Permutation_swap|]. apply Permutation_skip, Permutation_swap.
Defined.

(** *** Failure modes *)

Lemma circular_notFound_distinct k k' : circularMessage k ≠ notFoundMessage k'.
Proof. unfold circularMessage, notFoundMessage. simpl. discriminate. Qed.

(** What a thrown message says about the task list. *)
Lemma topologicalSort_Throw tasks msg :
  topologicalSort tasks = Some (Throw msg) →
  ∃ k, (msg = circularMessage k ∧ tc (dependsOn tasks) k k) ∨
       (msg = notFoundMessage k ∧ (k ∉ task_id <$> tasks) ∧
        ∃ a, dependsOn tasks a k).
Proof.
  intros Hret. pose proof (topologicalSort_cases tasks) as H.
  rewrite Hret in H.
  destruct H as (k & [[-> Hcyc]|(-> & Hnone & a & Ha & Hreach)]); exists k.
  - left. split; [done|]. by apply tc_depends_dependsOn.
  - right. split_and!; [done| |].
    + intros Hk. apply not_elem_of_dom in Hnone. apply Hnone.
      rewrite taskMap_dom. by apply elem_of_list_to_set.
    + apply rtc_inv_r in Hreach as [->|(y & _ & Hy)].
      * destruct Ha as [? ?]. congruence.
      * exists y. by apply depends_dependsOn.
Qed.

(** C7 as stated fails: a task set that contains a cycle (2 depends on 2)
    and whose traversal first meets the missing id 99 fails with the
    unresolved-reference error, not with the cycle error. *)
Lemma topologicalSort_cycle_not_reported :
  let tasks := [makeTask 1 [99]; makeTask 2 [2]] in
  uniqueIds tasks ∧ tc (dependsOn tasks) 2 2 ∧
  topologicalSort tasks = Some (Throw (notFoundMessage 99)) ∧
  ∀ k, topologicalSort tasks ≠ Some (Throw (circularMessage k)).
Proof.
  assert (topologicalSort [makeTask 1 [99]; makeTask 2 [2]]
          = Some (Throw (notFoundMessage 99))) as Hres by (vm_compute; reflexivity).
  simpl. split_and!.
  - unfold uniqueIds. simpl. repeat (constructor; [set_solver|]). constructor.
  - apply tc_once. exists (makeTask 2 [2]). split_and!; [set_solver|done|].
    simpl. set_solver.
  - done.
  - intros k. rewrite Hres. intros H.
    assert (circularMessage k = notFoundMessage 99) as H' by congruence.
    by apply circular_notFound_distinct in H'.
Qed.

(** C7, amended. [topologicalSort] never runs out of fuel; it throws
    exactly on the task sets that are cyclic or referentially incomplete;
    every thrown message is the cycle message for a node on a cycle or the
    unresolved-reference message for a referenced id that no task has, and
    the two messages are never equal; on a referentially complete task set
    with a cycle the message is the cycle message, on an acyclic task set
    with a missing reference it is the unresolved-reference message. *)
Theorem topologicalSort_failure_modes tasks :
  uniqueIds tasks →
  topologicalSort tasks ≠ None ∧
  (∀ k k', circularMessage k ≠ notFoundMessage k') ∧
  (∀ msg, topologicalSort tasks = Some (Throw msg) →
     ∃ k, (msg = circularMessage k ∧ tc (dependsOn tasks) k k) ∨
          (msg = notFoundMessage k ∧ (k ∉ task_id <$> tasks) ∧
           ∃ a, dependsOn tasks a k)) ∧
  (¬ (acyclic tasks ∧ referentiallyComplete tasks) →
     ∃ msg, topologicalSort tasks = Some (Throw msg)) ∧
  (referentiallyComplete tasks → ¬ acyclic tasks →
     ∃ k, topologicalSort tasks = Some (Throw (circularMessage k))) ∧
  (acyclic tasks → ¬ referentiallyComplete tasks →
     ∃ k, topologicalSort tasks = Some (Throw (notFoundMessage k))).
Proof.
  intros Hu.
  assert (topologicalSort tasks ≠ None) as Hfuel.
  { intros H. pose proof (topologicalSort_cases tasks) as Hc.
    by rewrite H in Hc. }
  assert (¬ (acyclic tasks ∧ referentiallyComplete tasks) →
          ∃ msg, topologicalSort tasks = Some (Throw msg)) as Hthrow.
  { intros Hbad. destruct (topologicalSort tasks) as [[out|msg]|] eqn:Hret.
    - destruct Hbad. by eapply topologicalSort_Return_graph.
    - by exists msg.
    - done. }
  split_and!; [done|apply circular_notFound_distinct|
               apply topologicalSort_Throw|done| |].
  - intros Hc Hac. destruct Hthrow as [msg Hmsg]; [tauto|].
    destruct (topologicalSort_Throw tasks msg Hmsg)
      as (k & [[-> _]|(_ & Hk & a & t & Ht & _ & Hd)]); [by exists k|].
    destruct Hk. by eapply Hc.
  - intros Hac Hc. destruct Hthrow as [msg Hmsg]; [tauto|].
    destruct (topologicalSort_Throw tasks msg Hmsg)
      as (k & [[_ Hcyc]|(-> & _)]); [|by exists k].
    by destruct (Hac k).
Qed.

Lemma topologicalSort_failure_modes_witness :
  topologicalSort scenarioB ≠ None ∧
  (∀ k k', circularMessage k ≠ notFoundMessage k') ∧
  (∀ msg, topologicalSort scenarioB = Some (Throw msg) →
     ∃ k, (msg = circularMessage k ∧ tc (dependsOn scenarioB) k k) ∨
          (msg = notFoundMessage k ∧ (k ∉ task_id <$> scenarioB) ∧
           ∃ a, dependsOn scenarioB a k)) ∧
  (¬ (acyclic scenarioB ∧ referentiallyComplete scenarioB) →
     ∃ msg, topologicalSort scenarioB = Some (Throw msg)) ∧
  (referentiallyComplete scenarioB → ¬ acyclic scenarioB →
     ∃ k, topologicalSort scenarioB = Some (Throw (circularMessage k))) ∧
  (acyclic scenarioB → ¬ referentiallyComplete scenarioB →
     ∃ k, topologicalSort scenarioB = Some (Throw (notFoundMessage k))).
Proof.
  apply topologicalSort_failure_modes.
  unfold uniqueIds. simpl. repeat (constructor; [set_solver|]). constructor.
Defined.

(** Which of the two errors a task set with both defects gets depends on
    the order of the input array. *)
Example topologicalSort_error_follows_order :
  topologicalSort [makeTask 1 [1]; makeTask 2 [99]]
    = Some (Throw (circularMessage 1)) ∧
  topologicalSort [makeTask 2 [99]; makeTask 1 [1]]
    = Some (Throw (notFoundMessage 99)).
Proof. split; vm_compute; reflexivity. Qed.

End TopologicalSortFacts.

(** ** Identifier mapping store *)

Section mappingStore.

(** C8. [addSubtask] for a parent id that no entry of the store carries
    throws the "not found" error and returns the store it was given: no
    entry is added and every later lookup answers as before. *)
Theorem addSubtask_unregistered_parent (this : IdMapper.t)
    (taskTmId subtaskTmId : Z) (beadsId : string) :
  (∀ t, t ∈ IdMapper.tasks this → TaskMapping.tmId t ≠ taskTmId) →
  IdMapper.getEpicId taskTmId this = None ∧
  IdMapper.addSubtask taskTmId subtaskTmId beadsId this =
    (Throw ("Task " +:+ pretty taskTmId +:+ " not found in mapping"), this).
Proof.
  intros Hnone.
  assert (list_find (λ t, TaskMapping.tmId t = taskTmId) (IdMapper.tasks this)
          = None) as Hfind.
  { apply list_find_None, Forall_forall. intros t Ht. by apply Hnone. }
  unfold IdMapper.getEpicId, IdMapper.addSubtask. by rewrite Hfind.
Qed.

Lemma addSubtask_unregistered_parent_witness :
  IdMapper.getEpicId 99 (IdMapper.addEpic 1 "bd-abc" IdMapper.new) = None ∧
  IdMapper.addSubtask 99 1 "bd-x.1" (IdMapper.addEpic 1 "bd-abc" IdMapper.new) =
    (Throw ("Task " +:+ pretty 99 +:+ " not found in mapping"),
     IdMapper.addEpic 1 "bd-abc" IdMapper.new).
Proof.
  apply addSubtask_unregistered_parent.
  intros t ->%list_elem_of_singleton. simpl. lia.
Defined.

Lemma subtaskOfJSON_toJSON s : subtaskOfJSON (subtaskToJSON s) = Some s.
Proof. by destruct s. Qed.

Lemma taskOfJSON_toJSON t : taskOfJSON (taskToJSON t) = Some t.
Proof.
  destruct t as [n b subs]. unfold taskOfJSON, taskToJSON. simpl.
  rewrite (mapM_fmap_Some subtaskOfJSON subtaskToJSON); [done|].
  intros s. apply subtaskOfJSON_toJSON.
Qed.

Lemma tasksOfJSON_toJSON f : tasksOfJSON (mappingFileToJSON f) = Some (mf_tasks f).
Proof.
  unfold tasksOfJSON, mappingFileToJSON. simpl.
  apply (mapM_fmap_Some taskOfJSON taskToJSON). intros t. apply taskOfJSON_toJSON.
Qed.

(** A value is read at the declared types only when it is the JSON value
    of what is read. *)
Lemma mapM_exact {A} (ofJSON : json → option A) (toJSON : A → json) l k :
  (∀ j a, ofJSON j = Some a → j = toJSON a) →
  mapM ofJSON l = Some k → l = toJSON <$> k.
Proof.
  intros Hexact Hm. apply mapM_Some in Hm.
  induction Hm as [|j a l k Hja _ IH]; [done|].
  rewrite fmap_cons. f_equal; [by apply Hexact|done].
Qed.

Lemma subtaskOfJSON_exact j s : subtaskOfJSON j = Some s → j = subtaskToJSON s.
Proof.
  unfold subtaskOfJSON. intros H.
  repeat case_match; try done. destruct_and!. by simplify_eq.
Qed.

Lemma taskOfJSON_exact j t : taskOfJSON j = Some t → j = taskToJSON t.
Proof.
  unfold taskOfJSON. intros H.
  repeat case_match; try done. destruct_and!. simplify_eq.
  apply bind_Some in H as (subs & Hsubs & [= <-]).
  unfold taskToJSON. simpl.
  by rewrite (mapM_exact _ _ _ _ subtaskOfJSON_exact Hsubs).
Qed.

Lemma tasksOfJSON_exact data ts :
  tasksOfJSON data = Some ts ↔
  property "tasks" data = Some (JArray (taskToJSON <$> ts)).
Proof.
  unfold tasksOfJSON. split.
  - destruct (property "tasks" data) as [[| | | |items|]|]; try done.
    simpl. intros Hm. by rewrite (mapM_exact _ _ _ _ taskOfJSON_exact Hm).
  - intros ->. simpl.
    apply (mapM_fmap_Some taskOfJSON taskToJSON). intros t. apply taskOfJSON_toJSON.
Qed.

(** When [load] hands back a store of the declared type. *)
Lemma load_Mapping filePath fs this :
  IdMapper.load filePath fs = Return (IdMapper.Mapping this) ↔
  ∃ data, documents fs !! filePath = Some data ∧
    property "tasks" data = Some (JArray (taskToJSON <$> IdMapper.tasks this)).
Proof.
  unfold IdMapper.load. split.
  - destruct (documents fs !! filePath) as [data|]; [|done].
    intros Hload. exists data. split; [done|]. apply tasksOfJSON_exact.
    destruct data; try done;
      destruct (tasksOfJSON _) as [ts|]; try done;
      injection Hload as <-; done.
  - intros (data & -> & Htasks).
    pose proof (proj2 (tasksOfJSON_exact data _) Htasks) as ->.
    destruct data; try done. by destruct this.
Qed.

(** [save] throws exactly when the platform rejects the write. *)
Lemma save_cases filePath now this fs :
  match IdMapper.save filePath now this fs with
  | Return fs' =>
      rejected fs !! filePath = None ∧
      documents fs' = <[filePath := mappingFileToJSON
        {| version := "1.0"; generatedAt := now;
           mf_tasks := IdMapper.tasks this |}]> (documents fs) ∧
      rejected fs' = rejected fs
  | Throw message => rejected fs !! filePath = Some message
  end.
Proof.
  unfold IdMapper.save, writeFile.
  by destruct (rejected fs !! filePath).
Qed.

Lemma load_save filePath now this fs fs' :
  IdMapper.save filePath now this fs = Return fs' →
  IdMapper.load filePath fs' = Return (IdMapper.Mapping this).
Proof.
  intros Hsave. pose proof (save_cases filePath now this fs) as H.
  rewrite Hsave in H. destruct H as (_ & Hdoc & _).
  unfold IdMapper.load. rewrite Hdoc, lookup_insert_eq.
  change (match mappingFileToJSON ?f with JNull => ?a | _ => ?b end) with b.
  rewrite tasksOfJSON_toJSON. simpl. by destruct this.
Qed.

(** C4. Round trip of the mapping store: whatever the store holds -- in
    particular after any sequence of [addEpic] and [addSubtask] calls --
    loading the file that [save] has just written succeeds and yields a
    store that answers [getEpicId] and [getSubtaskId] as the saved store
    does, for every id and every pair of ids. [save] writes the file
    unless the platform rejects the write, in which case it throws the
    platform's error. *)
Theorem load_save_roundtrip :
  (∀ filePath now this fs,
     match IdMapper.save filePath now this fs with
     | Return fs' =>
         rejected fs !! filePath = None ∧
         IdMapper.load filePath fs' = Return (IdMapper.Mapping this)
     | Throw message => rejected fs !! filePath = Some message
     end) ∧
  (∀ ops filePath now fs,
     rejected fs !! filePath = None →
     ∃ fs' loaded,
       IdMapper.save filePath now (build ops) fs = Return fs' ∧
       IdMapper.load filePath fs' = Return (IdMapper.Mapping loaded) ∧
       (∀ tmId, IdMapper.getEpicId tmId loaded
                = IdMapper.getEpicId tmId (build ops)) ∧
       (∀ taskTmId subtaskTmId,
          IdMapper.getSubtaskId taskTmId subtaskTmId loaded
          = IdMapper.getSubtaskId taskTmId subtaskTmId (build ops))).
Proof.
  split.
  - intros filePath now this fs.
    pose proof (save_cases filePath now this fs) as H.
    pose proof (load_save filePath now this fs) as Hload.
    destruct (IdMapper.save filePath now this fs) as [fs'|message]; [|done].
    split; [apply H|by apply Hload].
  - intros ops filePath now fs Hfree.
    pose proof (save_cases filePath now (build ops) fs) as H.
    pose proof (load_save filePath now (build ops) fs) as Hload.
    destruct (IdMapper.save filePath now (build ops) fs) as [fs'|message];
      [|congruence].
    exists fs', (build ops). split_and!; [done|by apply Hload|done..].
Qed.

End mappingStore.

(** ** The loops of the synchronisation phases *)

Lemma forEach_cons {A} (x : A) l body w :
  forEach (x :: l) body w =
  match body x w with
  | (Return _, w') => forEach l body w'
  | (Throw message, w') => (Throw message, w')
  end.
Proof. reflexivity. Qed.

(** ** Creation phases *)

Section creation.
Context (cli : BeadsCli).

Lemma getEpicId_addEpic tmId beadsId this :
  IdMapper.getEpicId tmId (IdMapper.addEpic tmId beadsId this) =
  Some (default beadsId (IdMapper.getEpicId tmId this)).
Proof.
  unfold IdMapper.getEpicId, IdMapper.addEpic. simpl.
  destruct (list_find (λ t, TaskMapping.tmId t = tmId) (IdMapper.tasks this))
    as [[i x]|] eqn:Hfind.
  - by rewrite (list_find_app_l _ _ _ _ _ Hfind).
  - rewrite (list_find_app_r _ _ _ Hfind). simpl.
    by rewrite decide_True by done.
Qed.

Lemma createEpic_unfold task w :
  createEpic task cli w =
  let c := CreateEpic (task_title task) (formatEpicDescription task)
             (mapPriority (task_priority task)) in
  match bd cli (calls w) c with
  | Return result =>
      (Return (id result),
       {| mapper := IdMapper.addEpic (task_id task) (id result) (mapper w);
          calls := calls w ++ [c] |})
  | Throw message =>
      (Throw message, {| mapper := mapper w; calls := calls w ++ [c] |})
  end.
Proof.
  unfold createEpic, bind, call, withMapper, ret. simpl.
  by destruct (bd cli (calls w) _).
Qed.

Local Abbreviation childBody := (childBody cli).

Lemma childBody_calls task epicId subtask w :
  calls (childBody task epicId subtask w).2 =
  calls w ++ [CreateChild epicId (subtask_title subtask)
                (formatChildDescription subtask)].
Proof.
  unfold childBody, bind, call, withMapper. simpl.
  destruct (bd cli (calls w) _) as [result|msg]; simpl; [|done].
  by destruct (IdMapper.addSubtask _ _ _ _).
Qed.

Lemma forEach_childBody task epicId subtasks w :
  ∃ n, (n ≤ length subtasks)%nat ∧
    calls (forEach subtasks (childBody task epicId) w).2 =
      calls w ++ take n ((λ s, CreateChild epicId (subtask_title s)
                                 (formatChildDescription s)) <$> subtasks) ∧
    ((forEach subtasks (childBody task epicId) w).1 = Return () →
     n = length subtasks).
Proof.
  revert w. induction subtasks as [|s subtasks IH]; intros w.
  { exists 0%nat. simpl. by rewrite app_nil_r. }
  pose proof (childBody_calls task epicId s w) as Hc.
  rewrite forEach_cons.
  destruct (childBody task epicId s w) as [[[]|msg] w1] eqn:Hbody; simpl in *.
  - destruct (IH w1) as (n & Hn & Hc' & Hret).
    exists (S n). split_and!; [lia| |intros H; f_equal; by apply Hret].
    rewrite Hc', Hc. simpl. by rewrite <- app_assoc.
  - exists 1%nat. split_and!; [lia| |done]. by rewrite Hc.
Qed.

End creation.

(** ** Status propagation *)

Section statusSyncer.
Context (cli : BeadsCli).

Lemma mapStatus_literal s :
  mapStatus (status_literal s) =
  match s with
  | pending => {| sa_status := None; sa_close := false |}
  | in_progress => {| sa_status := Some "in_progress"; sa_close := false |}
  | done => {| sa_status := None; sa_close := true |}
  | deferred => {| sa_status := Some "deferred"; sa_close := false |}
  | cancelled => {| sa_status := None; sa_close := true |}
  | blocked => {| sa_status := Some "blocked"; sa_close := false |}
  end.
Proof. destruct s; reflexivity. Qed.

(** One entity: the code after the id lookup issues the calls of the
    specified action and nothing else, and leaves the mapper alone. *)
Lemma syncEpicStatus_calls task w :
  mapper (syncEpicStatus task cli w).2 = mapper w ∧
  calls (syncEpicStatus task cli w).2 =
    calls w ++ statusCalls (IdMapper.getEpicId (task_id task) (mapper w))
                 (task_status task).
Proof.
  unfold syncEpicStatus, statusCalls, bind, readMapper. simpl.
  destruct (truthy (IdMapper.getEpicId (task_id task) (mapper w))) as [epicId|];
    [|by rewrite app_nil_r].
  rewrite mapStatus_literal.
  destruct (task_status task); simpl; unfold bind, call, ret; simpl;
    try (by rewrite app_nil_r);
    by destruct (bd cli (calls w) _).
Qed.

Local Abbreviation subtaskBody := (subtaskBody cli).

Lemma subtaskBody_calls task subtask w :
  mapper (subtaskBody task subtask w).2 = mapper w ∧
  calls (subtaskBody task subtask w).2 =
    calls w ++ statusCalls
      (IdMapper.getSubtaskId (task_id task) (subtask_id subtask) (mapper w))
      (subtask_status subtask).
Proof.
  unfold subtaskBody, statusCalls, bind, readMapper. simpl.
  destruct (truthy (IdMapper.getSubtaskId _ _ (mapper w))) as [subtaskId|];
    [|by rewrite app_nil_r].
  rewrite mapStatus_literal.
  destruct (subtask_status subtask); simpl; unfold bind, call, ret; simpl;
    try (by rewrite app_nil_r);
    by destruct (bd cli (calls w) _).
Qed.

Lemma forEach_subtaskBody task subtasks w :
  ∃ n, (n ≤ length subtasks)%nat ∧
    mapper (forEach subtasks (subtaskBody task) w).2 = mapper w ∧
    calls (forEach subtasks (subtaskBody task) w).2 =
      calls w ++ (take n subtasks ≫= λ subtask,
        statusCalls
          (IdMapper.getSubtaskId (task_id task) (subtask_id subtask) (mapper w))
          (subtask_status subtask)) ∧
    ((forEach subtasks (subtaskBody task) w).1 = Return () →
     n = length subtasks).
Proof.
  revert w. induction subtasks as [|s subtasks IH]; intros w.
  { exists 0%nat. simpl. by rewrite app_nil_r. }
  destruct (subtaskBody_calls task s w) as [Hm Hc].
  rewrite forEach_cons.
  destruct (subtaskBody task s w) as [[[]|msg] w1] eqn:Hbody; simpl in *.
  - destruct (IH w1) as (n & Hn & Hm' & Hc' & Hret).
    exists (S n). split_and!; [lia|congruence| |intros H; f_equal; by apply Hret].
    rewrite Hc', Hc, Hm. simpl. by rewrite app_assoc.
  - exists 1%nat. split_and!; [lia|done| |done].
    rewrite Hc. simpl. by rewrite app_nil_r.
Qed.

Lemma syncSubtaskStatus_calls task w :
  ∃ n, (n ≤ length (default [] (task_subtasks task)))%nat ∧
    mapper (syncSubtaskStatus task cli w).2 = mapper w ∧
    calls (syncSubtaskStatus task cli w).2 =
      calls w ++ (take n (default [] (task_subtasks task)) ≫= λ subtask,
        statusCalls
          (IdMapper.getSubtaskId (task_id task) (subtask_id subtask) (mapper w))
          (subtask_status subtask)) ∧
    ((syncSubtaskStatus task cli w).1 = Return () →
     n = length (default [] (task_subtasks task))).
Proof.
  unfold syncSubtaskStatus.
  destruct (task_subtasks task) as [subtasks|]; simpl.
  - apply forEach_subtaskBody.
  - exists 0%nat. simpl. by rewrite app_nil_r.
Qed.

Lemma syncTask_calls task w :
  ((_ <-- syncEpicStatus task cli ;; syncSubtaskStatus task cli) w).1 = Return () →
  mapper ((_ <-- syncEpicStatus task cli ;; syncSubtaskStatus task cli) w).2
    = mapper w ∧
  calls ((_ <-- syncEpicStatus task cli ;; syncSubtaskStatus task cli) w).2
    = calls w ++ entityCalls (mapper w) task.
Proof.
  destruct (syncEpicStatus_calls task w) as [Hm Hc].
  unfold bind. destruct (syncEpicStatus task cli w) as [[[]|msg] w1]; [|done].
  simpl in Hm, Hc. intros Hret.
  destruct (syncSubtaskStatus_calls task w1) as (n & Hn & Hm' & Hc' & Hall).
  rewrite (Hall Hret), firstn_all in Hc'.
  split; [congruence|]. unfold entityCalls.
  by rewrite Hc', Hc, Hm, app_assoc.
Qed.

Lemma syncAllStatuses_calls tasks w :
  (syncAllStatuses tasks cli w).1 = Return () →
  mapper (syncAllStatuses tasks cli w).2 = mapper w ∧
  calls (syncAllStatuses tasks cli w).2 =
    calls w ++ (tasks ≫= entityCalls (mapper w)).
Proof.
  unfold syncAllStatuses. revert w.
  induction tasks as [|task tasks IH]; intros w.
  { simpl. by rewrite app_nil_r. }
  rewrite forEach_cons.
  pose proof (syncTask_calls task w) as Htask.
  destruct ((_ <-- syncEpicStatus task cli ;; syncSubtaskStatus task cli) w)
    as [[[]|msg] w1]; [|done].
  destruct (Htask eq_refl) as [Hm Hc]. simpl in Hm, Hc.
  intros Hret. destruct (IH w1 Hret) as [Hm' Hc'].
  split; [congruence|].
  rewrite Hc', Hc, Hm. simpl. by rewrite app_assoc.
Qed.


End statusSyncer.

(** ** The scenarios of the specification, run on the embedding *)

Example scenario_A_sort :
  TopologicalSort.topologicalSort scenarioA' =
    Some (Return
      [{| TopologicalSort.task := makeTask 1 []; TopologicalSort.tier := 0 |};
       {| TopologicalSort.task := makeTask 2 [1]; TopologicalSort.tier := 1 |};
       {| TopologicalSort.task := makeTask 3 [1; 2]; TopologicalSort.tier := 2 |}]).
Proof. vm_compute. reflexivity. Qed.

Example scenario_B_cycle :
  TopologicalSort.topologicalSort scenarioB =
    Some (Throw "Circular dependency detected involving task 1") ∧
  validateCircularDependencies scenarioB =
    Some {| valid := false;
            errors := ["Circular dependency: 1 â†’ 3 â†’ 2 â†’ 1"] |}.
Proof. split; vm_compute; reflexivity. Qed.

Example scenario_C_missing :
  validateDependencyIds scenarioC =
    {| valid := false; errors := ["Task 1 depends on non-existent task 99"] |} ∧
  TopologicalSort.topologicalSort scenarioC =
    Some (Throw "Task 99 referenced but not found").
Proof. split; vm_compute; reflexivity. Qed.

Example scenario_D_roundtrip :
  let this := (IdMapper.addSubtask 1 1 "X-1.1"
                 (IdMapper.addEpic 1 "X-1" IdMapper.new)).2 in
  match IdMapper.save "map.json" "2026-01-01T00:00:00.000Z" this ∅ with
  | Return fs =>
      match IdMapper.load "map.json" fs with
      | Return (IdMapper.Mapping loaded) =>
          IdMapper.getEpicId 1 loaded = Some "X-1" ∧
          IdMapper.getSubtaskId 1 1 loaded = Some "X-1.1"
      | _ => False
      end
  | _ => False
  end.
Proof. vm_compute. done. Qed.

Example scenario_E_status :
  let w := {| mapper := IdMapper.addEpic 1 "bd-1" IdMapper.new; calls := [] |} in
  calls (syncAllStatuses [withStatus done (makeTask 1 [])] mockCli w).2
    = [Close "bd-1"] ∧
  calls (syncAllStatuses [withStatus pending (makeTask 1 [])] mockCli w).2 = [].
Proof. vm_compute. done. Qed.

(** A self-dependency is reported as the cycle of the one node. *)
Example self_dependency_cycle :
  validateCircularDependencies [makeTask 1 [1]] =
    Some {| valid := false; errors := ["Circular dependency: 1 â†’ 1"] |}.
Proof. vm_compute. reflexivity. Qed.

(** * Further properties of the code *)

(** ** The acyclicity validator finds every cycle *)

Module CycleCompletenessFacts.
Import CircularDependencies CycleInvariant CycleCompleteness.

Section ranked.
Context (tm : gmap Z TaskMasterTask).

Lemma Ranked_initial : Ranked tm initial.
Proof.
  intros _. exists (λ _, 0%nat). intros k t d Hk.
  by apply not_elem_of_empty in Hk.
Qed.

Lemma Ranked_leave k st :
  Ranked tm st → k ∉ visited st →
  (errors st = [] → ∀ t d, tm !! k = Some t → d ∈ task_dependencies t →
     d ∈ visited st) →
  Ranked tm (leave k st).
Proof.
  intros HR Hk Hdeps Herr. simpl in Herr.
  destruct (HR Herr) as [rank Hrank].
  set (top := match tm !! k with
              | Some t => S (max_list (rank <$> task_dependencies t))
              | None => 0%nat
              end).
  exists (λ x, if decide (x = k) then top else rank x).
  intros x t d [->%elem_of_singleton|Hx]%elem_of_union Ht Hd; simpl.
  - assert (d ∈ visited st) as Hdv by eauto.
    split; [set_solver|].
    rewrite decide_False by (intros ->; done). rewrite decide_True by done.
    unfold top. rewrite Ht.
    assert (rank d ≤ max_list (rank <$> task_dependencies t))%nat; [|lia].
    apply max_list_elem_of_le, list_elem_of_fmap. eauto.
  - destruct (Hrank x t d Hx Ht Hd) as [Hdv Hlt].
    split; [set_solver|].
    rewrite !decide_False by (intros ->; done). done.
Qed.

Lemma visitDeps_ranked v path :
  visit_ok tm v path → ranked_ok tm v path →
  ∀ deps st, Inv tm path st →
  (∀ d, d ∈ deps → chain (depends tm) (path ++ [d])) →
  Ranked tm st →
  match visitDeps v deps path st with
  | Some st' => Ranked tm st'
  | None => True
  end.
Proof.
  intros Hv Hr deps. induction deps as [|d deps IH]; intros st HI Hch HR; simpl.
  - done.
  - assert (chain (depends tm) (path ++ [d])) as Hd by (apply Hch; left).
    specialize (Hv d st HI Hd). specialize (Hr d st HI Hd HR).
    destruct (v d path st) as [[b st1]|]; [|done].
    destruct Hv as (HI1 & _). apply IH; [done| |done].
    intros x Hx. apply Hch. by right.
Qed.

Lemma visit_ranked fuel path :
  (size (dom tm ∖ list_to_set path) < fuel)%nat →
  ranked_ok tm (visit tm fuel) path.
Proof.
  revert path. induction fuel as [|fuel IH]; intros path Hsz d st HI Hch HR; [lia|].
  simpl. destruct (decide (d ∈ visited st)) as [Hvd|Hvd]; [done|].
  pose proof (inv_stack _ _ _ HI) as Hstack.
  destruct (decide (d ∈ visiting st)) as [Hvg|Hvg].
  { intros Herr. simpl in Herr. by apply app_nil in Herr as [_ ?]. }
  assert (d ∉ path) as Hfresh by (rewrite Hstack in Hvg; set_solver).
  assert (Inv tm (path ++ [d]) (enter d st)) as HI1.
  { destruct HI as [H1 H2 H3 H4 H5]. split; simpl; [| | |done..].
    - rewrite H1, list_to_set_app_L. simpl. set_solver.
    - apply NoDup_app. split_and!; [done| |apply NoDup_singleton].
      intros x Hx ->%list_elem_of_singleton. done.
    - set_solver. }
  assert (Ranked tm (enter d st)) as HR1 by done.
  destruct (tm !! d) as [t|] eqn:Ht.
  - assert (size (dom tm ∖ list_to_set (path ++ [d])) < fuel)%nat as Hsz'.
    { assert (dom tm ∖ list_to_set (path ++ [d]) ⊂ dom tm ∖ list_to_set path)
        as Hsub%subset_size; [|lia].
      assert (d ∈ dom tm) by (apply elem_of_dom; eauto).
      rewrite list_to_set_app_L. simpl. set_solver. }
    assert (∀ x, x ∈ task_dependencies t →
      chain (depends tm) ((path ++ [d]) ++ [x])) as Hch'.
    { intros x Hx. apply chain_snoc; [done|]. by exists t. }
    pose proof (CircularDependenciesFacts.cd_visitDeps_spec tm _ _
      (CircularDependenciesFacts.cd_visit_spec tm _ _ Hsz')
      (task_dependencies t) (enter d st) HI1 Hch') as Hdeps.
    pose proof (visitDeps_ranked _ _
      (CircularDependenciesFacts.cd_visit_spec tm _ _ Hsz') (IH _ Hsz')
      (task_dependencies t) (enter d st) HI1 Hch' HR1) as HR2.
    destruct (visitDeps (visit tm fuel) (task_dependencies t) (path ++ [d])
      (enter d st)) as [st2|]; [|done].
    destruct Hdeps as (HI2 & Hvis2 & Herr2 & Hcyc2 & Hdone2).
    apply Ranked_leave; [done| |].
    + pose proof (CycleInvariant.inv_disj _ _ _ HI2) as Hdisj.
      rewrite (inv_stack _ _ _ HI2), list_to_set_app_L in Hdisj.
      simpl in Hdisj. set_solver.
    + intros Hnone t' x Ht' Hx. rewrite Ht in Ht'. injection Ht' as <-.
      destruct (decide (x ∈ visiting (enter d st))) as [Hin|Hin].
      * specialize (Hcyc2 x Hx Hin). rewrite Hnone in Hcyc2.
        by apply elem_of_nil in Hcyc2.
      * by apply Hdone2.
  - apply Ranked_leave; [done| |].
    + pose proof (CycleInvariant.inv_disj _ _ _ HI). set_solver.
    + intros _ t' x Ht'. by rewrite Ht in Ht'.
Qed.

Lemma visitAll_ranked fuel tasks st :
  (size (dom tm) < fuel)%nat → Inv tm [] st → Ranked tm st →
  match visitAll tm fuel tasks st with
  | Some st' => Ranked tm st'
  | None => True
  end.
Proof.
  intros Hsz. revert st.
  assert (size (dom tm ∖ list_to_set []) < fuel)%nat as Hsz'.
  { simpl. by rewrite difference_empty_L. }
  induction tasks as [|t tasks IH]; intros st HI HR; simpl; [done|].
  destruct (decide (task_id t ∈ visited st)) as [Hin|Hin]; [by apply IH|].
  pose proof (CircularDependenciesFacts.cd_visit_spec tm _ _ Hsz'
    (task_id t) st HI I) as Hv.
  pose proof (visit_ranked _ _ Hsz' (task_id t) st HI I HR) as Hr.
  destruct (visit tm fuel (task_id t) [] st) as [[b st1]|]; [|done].
  destruct Hv as (HI1 & _). by apply IH.
Qed.

(** A ranking of a set that holds every key leaves no room for a cycle. *)
Lemma Ranked_acyclic (V : gset Z) (rank : Z → nat) :
  dom tm ⊆ V →
  (∀ k t d, k ∈ V → tm !! k = Some t → d ∈ task_dependencies t →
     d ∈ V ∧ (rank d < rank k)%nat) →
  ∀ a, ¬ tc (depends tm) a a.
Proof.
  intros Hdom Hrank.
  assert (∀ a b, tc (depends tm) a b → a ∈ V → b ∈ V ∧ (rank b < rank a)%nat)
    as Hpath.
  { intros a b Hab. induction Hab as [a b (t & Ht & Hd)|a b c (t & Ht & Hd) _ IH];
      intros Ha.
    - by eapply Hrank.
    - destruct (Hrank a t b Ha Ht Hd) as [Hb Hlt].
      destruct (IH Hb) as [Hc Hlt']. split; [done|lia]. }
  intros a Haa.
  assert (a ∈ V) as Ha.
  { apply Hdom, elem_of_dom. inversion Haa as [? ? (t & Ht & _)|? ? ? (t & Ht & _)];
      eauto. }
  destruct (Hpath a a Haa Ha). lia.
Qed.

End ranked.

End CycleCompletenessFacts.

(** The walk as a whole: what it has on record at the end is empty exactly
    when the walked graph has no cycle. *)
Lemma validateCircularDependencies_graph tasks :
  ∃ errs, validateCircularDependencies tasks =
            Some {| valid := bool_decide (length errs = 0%nat); errors := errs |} ∧
    (errs = [] ↔ ∀ a, ¬ tc (depends (taskMap tasks)) a a).
Proof.
  unfold validateCircularDependencies.
  set (tm := taskMap tasks).
  pose proof (CircularDependenciesFacts.cd_visitAll_spec tm (S (size tm)) tasks
    CircularDependencies.initial) as Hspec.
  pose proof (CycleCompletenessFacts.visitAll_ranked tm (S (size tm)) tasks
    CircularDependencies.initial) as Hrank.
  destruct (CircularDependencies.visitAll tm (S (size tm)) tasks
    CircularDependencies.initial) as [st|].
  2: { exfalso. apply Hspec; [rewrite size_dom; lia|].
       apply CircularDependenciesFacts.cd_Inv_initial. }
  destruct Hspec as (HI & _ & _ & Hall);
    [rewrite size_dom; lia|apply CircularDependenciesFacts.cd_Inv_initial|].
  assert (CycleCompleteness.Ranked tm st) as HR.
  { apply Hrank; [rewrite size_dom; lia| |].
    - apply CircularDependenciesFacts.cd_Inv_initial.
    - apply CycleCompletenessFacts.Ranked_initial. }
  eexists. split; [done|]. split.
  - intros Herr. destruct (HR Herr) as [rank Hrk].
    apply (CycleCompletenessFacts.Ranked_acyclic tm
             (CircularDependencies.visited st) rank); [|done].
    intros k Hk. unfold tm in Hk. rewrite taskMap_dom in Hk.
    apply elem_of_list_to_set, list_elem_of_fmap in Hk as (t & -> & Ht).
    by apply Hall.
  - intros Hac. destruct (CircularDependencies.errors st) as [|e es] eqn:He;
      [done|].
    destruct (CycleInvariant.inv_sound _ _ _ HI e) as (x & post & _ & _ & Hch).
    { rewrite He. left. }
    destruct (Hac x). by eapply chain_tc.
Qed.

Lemma validateDependencyIds_valid tasks :
  valid (validateDependencyIds tasks) = true ↔ referentiallyComplete tasks.
Proof.
  unfold validateDependencyIds. simpl.
  rewrite bool_decide_eq_true, length_zero_iff_nil, checkTasks_spec. simpl.
  fold (missingReferences tasks). split.
  - intros Hnil%fmap_nil_inv t d Ht Hd.
    destruct (decide (d ∈ task_id <$> tasks)) as [|Habs]; [done|].
    assert ((task_id t, d) ∈ missingReferences tasks) as Hin.
    { apply missingReferences_elem. split; [by exists t|done]. }
    rewrite Hnil in Hin. by apply elem_of_nil in Hin.
  - intros Hc. destruct (missingReferences tasks) as [|[a d] l] eqn:Hm; [done|].
    exfalso. assert ((a, d) ∈ missingReferences tasks) as Hin by (rewrite Hm; left).
    apply missingReferences_elem in Hin as [(t & Ht & _ & Hd) Habs].
    destruct Habs. by eapply Hc.
Qed.

(** X1. The acyclicity validator is exact on the graph it walks (the task
    map, where a later task with the same id replaces an earlier one): it
    answers, it reports [valid] exactly when it has recorded no error, and
    that is exactly when no task depends on itself through one or more
    dependency edges. For a list with unique ids the walked graph is the
    dependency relation of the list. *)
Theorem validateCircularDependencies_exact tasks :
  ∃ r, validateCircularDependencies tasks = Some r ∧
    (valid r = true ↔ errors r = []) ∧
    (valid r = true ↔ ∀ a, ¬ tc (depends (taskMap tasks)) a a) ∧
    (uniqueIds tasks → (valid r = true ↔ acyclic tasks)).
Proof.
  destruct (validateCircularDependencies_graph tasks) as (errs & -> & Hexact).
  eexists. split; [done|]. simpl.
  assert (bool_decide (length errs = 0%nat) = true ↔ errs = []) as Hvalid.
  { rewrite bool_decide_eq_true. apply length_zero_iff_nil. }
  split_and!; [done|by rewrite Hvalid|].
  intros Huniq. rewrite Hvalid, Hexact. unfold acyclic. split; intros H a Ha.
  - apply (H a). by apply tc_dependsOn_depends.
  - apply (H a). by apply tc_depends_dependsOn.
Qed.

(** ** The validators guard the sort *)

(** X2. The two validators together are the guard of the sort, as the
    command uses them: when both accept a task list the sort returns, and
    for a list with unique ids the converse holds too, so the validators
    accept exactly the task sets the sort can order. *)
Theorem validators_guard_topologicalSort tasks :
  (valid (validateDependencyIds tasks) = true →
   validateCircularDependencies tasks = Some {| valid := true; errors := [] |} →
   ∃ out, TopologicalSort.topologicalSort tasks = Some (Return out)) ∧
  (uniqueIds tasks →
   ∀ out, TopologicalSort.topologicalSort tasks = Some (Return out) →
     valid (validateDependencyIds tasks) = true ∧
     validateCircularDependencies tasks = Some {| valid := true; errors := [] |}).
Proof.
  destruct (validateCircularDependencies_graph tasks) as (errs & Hcirc & Hexact).
  split.
  - intros Hdep%validateDependencyIds_valid Hc.
    rewrite Hcirc in Hc. injection Hc as _ Herrs.
    pose proof (proj1 Hexact Herrs) as Hac.
    pose proof (TopologicalSortFacts.topologicalSort_cases tasks) as H.
    destruct (TopologicalSort.topologicalSort tasks) as [[out|msg]|];
      [by exists out| |done].
    exfalso. destruct H as (k & [[_ Hcyc]|(_ & Hnone & a & Ha & Hreach)]).
    + by apply (Hac k).
    + pose proof (TopologicalSortFacts.complete_reach tasks a k Hdep Ha Hreach)
        as [? ?]. congruence.
  - intros Huniq out Hout.
    destruct (TopologicalSortFacts.topologicalSort_Return_graph tasks out Huniq Hout)
      as [Hac Hcomplete].
    split; [by apply validateDependencyIds_valid|].
    rewrite Hcirc. assert (errs = []) as ->; [|done].
    apply Hexact. intros a Ha. apply (Hac a). by apply tc_depends_dependsOn.
Qed.

(** ** The tiers of the sort *)

Lemma foldl_max_spec t tiers :
  foldl Z.max t tiers ∈ t :: tiers ∧
  ∀ x, x ∈ t :: tiers → x ≤ foldl Z.max t tiers.
Proof.
  revert t. induction tiers as [|u tiers IH]; intros t; simpl.
  - split; [left|]. intros x Hx%list_elem_of_singleton. lia.
  - destruct (IH (Z.max t u)) as [Hin Hle]. split.
    + apply elem_of_cons in Hin as [Heq|Hin]; [|by do 2 right].
      rewrite Heq. destruct (Z.max_spec t u) as [[_ ->]|[_ ->]];
        [right; left|left].
    + assert (Z.max t u ≤ foldl Z.max (Z.max t u) tiers) as Hm
        by (apply Hle; left).
      intros x [->|[->|Hx]%elem_of_cons]%elem_of_cons; [lia..|].
      apply Hle. by right.
Qed.

Lemma maxTier_spec out :
  (∀ s, s ∈ out → TopologicalSort.tier s < maxTier out) ∧
  (out ≠ [] → ∃ s, s ∈ out ∧ TopologicalSort.tier s = maxTier out - 1).
Proof.
  unfold maxTier. destruct out as [|s0 out].
  { split; [|done]. intros s Hs. by apply elem_of_nil in Hs. }
  rewrite fmap_cons.
  destruct (foldl_max_spec (TopologicalSort.tier s0)
              (TopologicalSort.tier <$> out)) as [Hin Hle].
  split.
  - intros s Hs.
    assert (TopologicalSort.tier s ≤
            foldl Z.max (TopologicalSort.tier s0) (TopologicalSort.tier <$> out));
      [|lia].
    apply Hle. change (TopologicalSort.tier s ∈
      TopologicalSort.tier <$> (s0 :: out)).
    apply list_elem_of_fmap. by exists s.
  - intros _. change (foldl Z.max (TopologicalSort.tier s0)
      (TopologicalSort.tier <$> out) ∈ TopologicalSort.tier <$> (s0 :: out)) in Hin.
    apply list_elem_of_fmap in Hin as (s & Hs & Hin).
    exists s. split; [done|lia].
Qed.

(** X3. The tiers of a returned sort are the levels 0, 1, ..., N-1 with
    none left out, where N is the number the command prints as the count
    of dependency tiers ([maxTier]): every tier lies in that range, every
    level of the range holds a task, a task above level 0 has a dependency
    exactly one level below it, and there are at most as many levels as
    tasks. *)
Theorem topologicalSort_tiers_contiguous tasks out :
  TopologicalSort.topologicalSort tasks = Some (Return out) →
  (∀ s, s ∈ out → 0 ≤ TopologicalSort.tier s < maxTier out) ∧
  (∀ n, 0 ≤ n < maxTier out → ∃ s, s ∈ out ∧ TopologicalSort.tier s = n) ∧
  (∀ s, s ∈ out → 0 < TopologicalSort.tier s →
     ∃ sd, sd ∈ out ∧
       task_id (TopologicalSort.task sd) ∈
         task_dependencies (TopologicalSort.task s) ∧
       TopologicalSort.tier sd = TopologicalSort.tier s - 1) ∧
  maxTier out ≤ Z.of_nat (length out).
Proof.
  intros Hret.
  destruct (TopologicalSortFacts.topologicalSort_output tasks out Hret)
    as (st & HI & Hall & Hperm & _).
  destruct (maxTier_spec out) as [Hlt Htop].
  assert (∀ s, s ∈ out → 0 ≤ TopologicalSort.tier s) as Hnn.
  { intros s Hs. rewrite Hperm in Hs.
    rewrite (TopologicalSortFacts.sorted_tier tasks st HI s Hs).
    eapply TopologicalSortFacts.inv_tier_nonneg;
      eauto using taskMap_id, TopologicalSortFacts.sorted_visited. }
  assert (∀ s, s ∈ out → 0 < TopologicalSort.tier s →
     ∃ sd, sd ∈ out ∧
       task_id (TopologicalSort.task sd) ∈
         task_dependencies (TopologicalSort.task s) ∧
       TopologicalSort.tier sd = TopologicalSort.tier s - 1) as Hpred.
  { intros s Hs Hpos. rewrite Hperm in Hs.
    destruct (SortInvariant.inv_sorted _ _ HI s Hs) as [Htm Htier].
    destruct (SortInvariant.inv_tier _ _ HI _ _
      (TopologicalSortFacts.sorted_visited tasks st HI s Hs) Htm)
      as [Hdeps Htier'].
    rewrite Htier in Htier'. injection Htier' as Htier'.
    destruct (TopologicalSortFacts.depTierMax_attained
      (TopologicalSort.tierMap st)
      (task_dependencies (TopologicalSort.task s)) (-1)) as [Hm|(d & Hd & Hm)];
      [lia|].
    destruct (TopologicalSortFacts.sorted_of_id tasks st HI d (Hdeps d Hd))
      as (sd & Hsd & Hid & Htd).
    exists sd. rewrite Hperm. split_and!; [done|by rewrite Hid|].
    rewrite Htd. unfold TopologicalSort.getTier. lia. }
  assert (∀ k s, s ∈ out → ∀ n, 0 ≤ n →
     TopologicalSort.tier s = n + Z.of_nat k →
     ∃ s', s' ∈ out ∧ TopologicalSort.tier s' = n) as Hdown.
  { induction k as [|k IH]; intros s Hs n Hn Heq.
    - exists s. split; [done|lia].
    - destruct (Hpred s Hs) as (sd & Hsd & _ & Htd); [lia|].
      apply (IH sd Hsd n Hn). lia. }
  assert (∀ n, 0 ≤ n < maxTier out →
     ∃ s, s ∈ out ∧ TopologicalSort.tier s = n) as Hlevels.
  { intros n Hn.
    destruct Htop as (s & Hs & Htop);
      [intros ->; unfold maxTier in Hn; simpl in Hn; lia|].
    apply (Hdown (Z.to_nat (TopologicalSort.tier s - n)) s Hs n); lia. }
  split_and!; [|done|done|].
  - intros s Hs. split; [by apply Hnn|by apply Hlt].
  - assert (seqZ 0 (maxTier out) ⊆+ TopologicalSort.tier <$> out) as Hsub.
    { apply NoDup_submseteq; [apply NoDup_seqZ|].
      intros n Hn%elem_of_seqZ.
      destruct (Hlevels n) as (s & Hs & <-); [lia|].
      apply list_elem_of_fmap. by exists s. }
    apply submseteq_length in Hsub.
    rewrite length_seqZ, length_fmap in Hsub.
    assert (0 ≤ maxTier out); [|lia].
    unfold maxTier. destruct out as [|s0 out']; [done|]. rewrite fmap_cons.
    destruct (foldl_max_spec (TopologicalSort.tier s0)
                (TopologicalSort.tier <$> out')) as [_ Hle].
    specialize (Hle (TopologicalSort.tier s0)).
    specialize (Hnn s0). 
    assert (TopologicalSort.tier s0 ≤ foldl Z.max (TopologicalSort.tier s0)
      (TopologicalSort.tier <$> out')) by (apply Hle; left).
    assert (0 ≤ TopologicalSort.tier s0) by (apply Hnn; left). lia.
Qed.

Lemma topologicalSort_tiers_contiguous_witness :
  ∃ out, TopologicalSort.topologicalSort scenarioA = Some (Return out) ∧
    (∀ s, s ∈ out → 0 ≤ TopologicalSort.tier s < maxTier out) ∧
    (∀ n, 0 ≤ n < maxTier out → ∃ s, s ∈ out ∧ TopologicalSort.tier s = n) ∧
    (∀ s, s ∈ out → 0 < TopologicalSort.tier s →
       ∃ sd, sd ∈ out ∧
         task_id (TopologicalSort.task sd) ∈
           task_dependencies (TopologicalSort.task s) ∧
         TopologicalSort.tier sd = TopologicalSort.tier s - 1) ∧
    maxTier out ≤ Z.of_nat (length out).
Proof.
  eexists. split; [vm_compute; reflexivity|].
  apply (topologicalSort_tiers_contiguous scenarioA).
  vm_compute. reflexivity.
Defined.

(** ** The mapping store: what a lookup sees after an update *)

Lemma list_find_insert_same {A} (P : A → Prop) `{!∀ x, Decision (P x)}
    (l : list A) (i : nat) (x x' : A) :
  l !! i = Some x → (P x ↔ P x') →
  list_find P (<[i:=x']> l) =
    (λ p, (p.1, if decide (p.1 = i) then x' else p.2)) <$> list_find P l.
Proof.
  intros Hi HP. revert i Hi. induction l as [|y l IH]; intros i Hi; [done|].
  destruct i as [|i]; simpl in *.
  - injection Hi as ->.
    destruct (decide (P x)), (decide (P x')); try tauto; try done.
    by destruct (list_find P l) as [[j z]|].
  - destruct (decide (P y)); [done|].
    rewrite (IH i Hi). destruct (list_find P l) as [[j z]|]; simpl; [|done].
    do 2 f_equal. by repeat case_decide; try lia.
Qed.

Lemma foldl_add_length {A} (f : A → nat) (l : list A) (n : nat) :
  foldl (λ sum t, sum + f t)%nat n l = (n + sum_list (f <$> l))%nat.
Proof.
  revert n. induction l as [|x l IH]; intros n; csimpl; [lia|].
  rewrite IH. lia.
Qed.

Lemma sum_list_insert {A} (f : A → nat) (l : list A) i x x' :
  l !! i = Some x → f x' = S (f x) →
  sum_list (f <$> <[i:=x']> l) = S (sum_list (f <$> l)).
Proof.
  intros Hi Hf. revert i Hi. induction l as [|y l IH]; intros i Hi; [done|].
  destruct i as [|i]; csimpl in *.
  - injection Hi as ->. lia.
  - rewrite (IH i Hi). lia.
Qed.

(** X4. Registering an epic adds a last-ranked entry: a lookup of any task
    id that was already registered answers as before (the first
    registration of an id wins), the new id answers only for a task that
    had none, subtask lookups are unchanged, and the statistics count one
    more epic and the same children. *)
Theorem addEpic_lookup tmId beadsId this :
  (∀ k, IdMapper.getEpicId k (IdMapper.addEpic tmId beadsId this) =
     match IdMapper.getEpicId k this with
     | Some b => Some b
     | None => if decide (k = tmId) then Some beadsId else None
     end) ∧
  (∀ t s, IdMapper.getSubtaskId t s (IdMapper.addEpic tmId beadsId this) =
          IdMapper.getSubtaskId t s this) ∧
  IdMapper.getStats (IdMapper.addEpic tmId beadsId this) =
    (S (IdMapper.getStats this).1, (IdMapper.getStats this).2).
Proof.
  split_and!.
  - intros k. unfold IdMapper.getEpicId, IdMapper.addEpic. simpl.
    destruct (list_find (λ t, TaskMapping.tmId t = k) (IdMapper.tasks this))
      as [[i x]|] eqn:Hfind.
    + by rewrite (list_find_app_l _ _ _ _ _ Hfind).
    + rewrite (list_find_app_r _ _ _ Hfind). simpl.
      destruct (decide (tmId = k)) as [->|Hne].
      * by rewrite decide_True by done.
      * by rewrite decide_False by congruence.
  - intros t s. unfold IdMapper.getSubtaskId, IdMapper.addEpic. simpl.
    destruct (list_find (λ x, TaskMapping.tmId x = t) (IdMapper.tasks this))
      as [[i x]|] eqn:Hfind.
    + by rewrite (list_find_app_l _ _ _ _ _ Hfind).
    + rewrite (list_find_app_r _ _ _ Hfind). simpl.
      by destruct (decide (tmId = t)).
  - unfold IdMapper.getStats, IdMapper.addEpic. simpl.
    rewrite length_app, foldl_snoc. simpl. f_equal; lia.
Qed.

Lemma addSubtask_registered taskTmId subtaskTmId beadsId this :
  taskTmId ∈ TaskMapping.tmId <$> IdMapper.tasks this →
  ∃ this',
    IdMapper.addSubtask taskTmId subtaskTmId beadsId this = (Return (), this') ∧
    (∀ k, IdMapper.getEpicId k this' = IdMapper.getEpicId k this) ∧
    (∀ t s, IdMapper.getSubtaskId t s this' =
       match IdMapper.getSubtaskId t s this with
       | Some b => Some b
       | None =>
           if decide (t = taskTmId ∧ s = subtaskTmId) then Some beadsId else None
       end) ∧
    IdMapper.getStats this' =
      ((IdMapper.getStats this).1, S (IdMapper.getStats this).2).
Proof.
  intros (e & He & Hin)%list_elem_of_fmap.
  destruct (list_find_elem_of (λ t, TaskMapping.tmId t = taskTmId)
              (IdMapper.tasks this) e Hin (eq_sym He)) as [[i task] Hfind].
  pose proof Hfind as (Hi & Hid & Hfirst)%list_find_Some.
  unfold IdMapper.addSubtask. rewrite Hfind.
  set (task' := {| TaskMapping.tmId := TaskMapping.tmId task;
                   TaskMapping.beadsId := TaskMapping.beadsId task;
                   TaskMapping.subtasks := TaskMapping.subtasks task ++
                     [{| SubtaskMapping.tmId := subtaskTmId;
                         SubtaskMapping.beadsId := beadsId |}] |}).
  eexists. split; [done|].
  assert (∀ k, list_find (λ t, TaskMapping.tmId t = k)
                 (<[i:=task']> (IdMapper.tasks this)) =
               (λ p, (p.1, if decide (p.1 = i) then task' else p.2)) <$>
                 list_find (λ t, TaskMapping.tmId t = k) (IdMapper.tasks this))
    as Hins.
  { intros k. by apply (list_find_insert_same _ _ _ task). }
  split_and!.
  - intros k. unfold IdMapper.getEpicId. simpl. rewrite Hins.
    destruct (list_find (λ t, TaskMapping.tmId t = k) (IdMapper.tasks this))
      as [[j y]|] eqn:Hk; simpl; [|done].
    destruct (decide (j = i)) as [->|]; [|done].
    apply list_find_Some in Hk as (Hj & _).
    assert (y = task) as -> by congruence. done.
  - intros t s. unfold IdMapper.getSubtaskId. simpl. rewrite Hins.
    destruct (list_find (λ x, TaskMapping.tmId x = t) (IdMapper.tasks this))
      as [[j y]|] eqn:Ht; simpl.
    + pose proof Ht as (Hj & Hjt & Hjfirst)%list_find_Some.
      destruct (decide (j = i)) as [->|Hne].
      * assert (y = task) as -> by congruence. simpl.
        destruct (list_find (λ x, SubtaskMapping.tmId x = s)
                    (TaskMapping.subtasks task)) as [[n z]|] eqn:Hs.
        { by rewrite (list_find_app_l _ _ _ _ _ Hs). }
        rewrite (list_find_app_r _ _ _ Hs). simpl.
        destruct (decide (subtaskTmId = s)) as [->|Hs'].
        -- by rewrite decide_True by (split; congruence).
        -- rewrite decide_False; [done|]. intros [_ ->]. done.
      * destruct (list_find (λ x, SubtaskMapping.tmId x = s)
                    (TaskMapping.subtasks y)) as [[n z]|]; simpl; [done|].
        rewrite decide_False; [done|]. intros [-> _].
        destruct (Nat.lt_total j i) as [Hlt|[?|Hlt]]; [|done|].
        -- by apply (Hfirst j y).
        -- by apply (Hjfirst i task).
    + rewrite decide_False; [done|]. intros [-> _].
      apply list_find_None in Ht. rewrite Forall_forall in Ht.
      by apply (Ht e).
  - unfold IdMapper.getStats. simpl.
    rewrite length_insert, !foldl_add_length.
    rewrite (sum_list_insert _ _ i task task' Hi);
      [done|simpl; by rewrite length_app, Nat.add_1_r].
Qed.

(** X5. Registering a subtask under a task that has an entry succeeds and
    touches only that task's first entry: every epic lookup answers as
    before, a subtask lookup that had an answer keeps it (the first
    registration of a pair wins), the new id answers only for the pair that
    had none, and the statistics count one more child and the same epics. *)
Theorem addSubtask_lookup taskTmId subtaskTmId beadsId this :
  taskTmId ∈ TaskMapping.tmId <$> IdMapper.tasks this →
  ∃ this',
    IdMapper.addSubtask taskTmId subtaskTmId beadsId this = (Return (), this') ∧
    (∀ k, IdMapper.getEpicId k this' = IdMapper.getEpicId k this) ∧
    (∀ t s, IdMapper.getSubtaskId t s this' =
       match IdMapper.getSubtaskId t s this with
       | Some b => Some b
       | None =>
           if decide (t = taskTmId ∧ s = subtaskTmId) then Some beadsId else None
       end) ∧
    IdMapper.getStats this' =
      ((IdMapper.getStats this).1, S (IdMapper.getStats this).2).
Proof. apply addSubtask_registered. Qed.

Lemma addSubtask_lookup_witness :
  ∃ this',
    IdMapper.addSubtask 1 2 "bd-abc.2" (IdMapper.addEpic 1 "bd-abc" IdMapper.new)
      = (Return (), this') ∧
    IdMapper.getSubtaskId 1 2 this' = Some "bd-abc.2" ∧
    IdMapper.getStats this' = (1%nat, 1%nat).
Proof.
  destruct (addSubtask_lookup 1 2 "bd-abc.2"
              (IdMapper.addEpic 1 "bd-abc" IdMapper.new))
    as (this' & Hadd & _ & Hsub & Hstats).
  { simpl. set_solver. }
  exists this'. split_and!; [done| |done].
  by rewrite Hsub.
Defined.

(** ** Dependency wiring *)

Lemma forEachCounting_cons {A} (x : A) l body count w :
  forEachCounting (x :: l) body count w =
  match body x count w with
  | (Return count', w') => forEachCounting l body count' w'
  | (Throw message, w') => (Throw message, w')
  end.
Proof. reflexivity. Qed.

Section wiring.
Context (cli : BeadsCli) {E : Type} (edgeCall : E → option BdCall).

Local Abbreviation Wired := (Wired cli edgeCall).

Lemma Wired_nil count w : Wired [] count w (Return count, w).
Proof.
  split; [done|]. exists 0%nat, []. simpl.
  split_and!; [lia|constructor|by rewrite app_nil_r|done|lia].
Qed.

(** The run stops in front of an edge it cannot resolve. *)
Lemma Wired_unresolved e edges count w message :
  edgeCall e = None → Wired (e :: edges) count w (Throw message, w).
Proof.
  intros He. split; [done|]. exists 0%nat, []. simpl.
  split_and!; [lia|constructor|by rewrite app_nil_r|]. left. by exists e.
Qed.

(** One resolved edge: the call is issued, and the tracker's answer
    decides. *)
Lemma Wired_one e c count w :
  edgeCall e = Some c →
  Wired [e] count w
    (match bd cli (calls w) c with
     | Return _ => Return (count + 1)
     | Throw message => Throw message
     end, {| mapper := mapper w; calls := calls w ++ [c] |}).
Proof.
  intros He. split; [done|]. exists 1%nat, [c]. simpl.
  split_and!; [lia|by repeat constructor|done|].
  destruct (bd cli (calls w) c) as [res|message] eqn:Hbd; [split; [done|lia]|].
  right. exists [], c. by rewrite app_nil_r.
Qed.

Lemma Wired_app edges1 edges2 count w r1 r2 :
  Wired edges1 count w r1 →
  match r1.1 with
  | Return count1 => Wired edges2 count1 r1.2 r2
  | Throw _ => r2 = r1
  end →
  Wired (edges1 ++ edges2) count w r2.
Proof.
  intros (Hm1 & n1 & issued1 & Hn1 & Hf1 & Hc1 & Hr1) H2.
  destruct r1 as [[count1|message] w1]; simpl in *.
  - destruct Hr1 as [-> ->].
    destruct H2 as (Hm2 & n2 & issued2 & Hn2 & Hf2 & Hc2 & Hr2).
    split; [congruence|].
    exists (length edges1 + n2)%nat, (issued1 ++ issued2).
    rewrite firstn_all in Hf1.
    split_and!.
    + rewrite length_app. lia.
    + rewrite take_app_add'; [|done]. by apply Forall2_app.
    + by rewrite Hc2, Hc1, app_assoc.
    + destruct (r2.1) as [count2|message].
      * destruct Hr2 as [-> ->]. rewrite length_app. split; lia.
      * destruct Hr2 as [(e & He & Hnone)|(issued' & c & -> & Hbd)].
        -- left. exists e. split; [|done].
           by rewrite lookup_app_r, Nat.add_comm, Nat.add_sub by lia.
        -- right. exists (issued1 ++ issued'), c.
           split; [by rewrite app_assoc|].
           by rewrite app_assoc, <- Hc1.
  - subst r2. simpl. split; [done|].
    exists n1, issued1. split_and!; [rewrite length_app; lia| |done|].
    + destruct Hr1 as [(e & He & _)|(issued' & c & -> & _)].
      * apply lookup_lt_Some in He. by rewrite take_app_le by lia.
      * destruct (decide (n1 ≤ length edges1)%nat); [|lia].
        by rewrite take_app_le by lia.
    + destruct Hr1 as [(e & He & Hnone)|Hr1]; [left|by right].
      exists e. split; [|done]. by apply lookup_app_l_Some.
Qed.

(** A loop whose body wires the edges of each element wires the edges of
    the list. *)
Lemma forEachCounting_Wired {A} (this : IdMapper.t) (edgesOf : A → list E)
    (body : A → Z → Sync Z) :
  (∀ x count w, mapper w = this → Wired (edgesOf x) count w (body x count w)) →
  ∀ l count w, mapper w = this →
    Wired (l ≫= edgesOf) count w (forEachCounting l body count w).
Proof.
  intros Hbody l. induction l as [|x l IH]; intros count w Hw.
  { apply Wired_nil. }
  rewrite forEachCounting_cons, bind_cons.
  pose proof (Hbody x count w Hw) as Hx.
  eapply Wired_app; [exact Hx|].
  destruct (body x count w) as [[count1|message] w1]; simpl; [|done].
  apply IH. destruct Hx as [Hm _]. simpl in Hm. congruence.
Qed.

End wiring.

Lemma bind_singleton_fmap {A B} (f : A → B) (l : list A) :
  (l ≫= λ x, [f x]) = f <$> l.
Proof. induction l as [|x l IH]; [done|]. rewrite bind_cons, IH. done. Qed.

(** A body that resolves the blocking end, issues the call and counts it
    wires its one edge. *)
Lemma edgeBody_Wired {E} cli (edgeCall : E → option BdCall) (e : E)
    (blockingId : option string) (blockedId : string) count w :
  edgeCall e = (b ← truthy blockingId; Some (AddDependency blockedId b)) →
  ∀ message,
  Wired cli edgeCall [e] count w
    (match truthy blockingId with
     | None => throw message
     | Some b => _ <-- call cli (AddDependency blockedId b) ;; ret (count + 1)
     end w).
Proof.
  intros He message. destruct (truthy blockingId) as [b|]; simpl in He.
  - pose proof (Wired_one cli edgeCall e _ count w He) as H.
    unfold bind, call, ret. simpl.
    by destruct (bd cli (calls w) (AddDependency blockedId b)).
  - by apply Wired_unresolved.
Qed.

Section wireEpicDependencies.
Context (cli : BeadsCli) (this : IdMapper.t).

Lemma epicDependenciesOf_Wired task count w :
  mapper w = this →
  Wired cli (epicEdgeCall this)
    ((λ d, (task_id task, d)) <$> task_dependencies task) count w
    (epicDependenciesOf cli task count w).
Proof.
  intros Hw. unfold epicDependenciesOf.
  destruct (decide (length (task_dependencies task) = 0%nat)) as [Hnil|Hdeps].
  { apply length_zero_iff_nil in Hnil. rewrite Hnil. apply Wired_nil. }
  unfold bind at 1, readMapper at 1. simpl. rewrite Hw.
  destruct (truthy (IdMapper.getEpicId (task_id task) this))
    as [blockedEpicId|] eqn:Hblocked.
  - rewrite <- bind_singleton_fmap.
    apply (forEachCounting_Wired cli (epicEdgeCall this) this); [|done].
    intros depId count' w' Hw'.
    unfold epicDependencyBody, bind at 1, readMapper at 1. simpl. rewrite Hw'.
    apply edgeBody_Wired. unfold epicEdgeCall. simpl. by rewrite Hblocked.
  - destruct (task_dependencies task) as [|d deps]; [done|].
    apply Wired_unresolved. unfold epicEdgeCall. simpl. by rewrite Hblocked.
Qed.

Lemma wireEpicDependencies_Wired tasks w :
  mapper w = this →
  Wired cli (epicEdgeCall this) (epicEdges tasks) 0 w
    (wireEpicDependencies tasks cli w).
Proof.
  intros Hw. unfold wireEpicDependencies, epicEdges.
  apply (forEachCounting_Wired cli (epicEdgeCall this) this); [|done].
  intros task count w'. apply epicDependenciesOf_Wired.
Qed.

End wireEpicDependencies.

Section wireSubtaskDependencies.
Context (cli : BeadsCli) (this : IdMapper.t).

Lemma subtaskDependenciesOf_Wired task subtask count w :
  mapper w = this →
  Wired cli (subtaskEdgeCall this)
    ((λ d, (task_id task, subtask_id subtask, d)) <$>
       default [] (subtask_dependencies subtask)) count w
    (subtaskDependenciesOf cli task subtask count w).
Proof.
  intros Hw. unfold subtaskDependenciesOf.
  destruct (subtask_dependencies subtask) as [[|d deps]|] eqn:Hdeps;
    [apply Wired_nil| |apply Wired_nil].
  change (default [] (Some (d :: deps))) with (d :: deps).
  remember (d :: deps) as dependencies eqn:Hcons.
  unfold bind at 1, readMapper at 1. simpl. rewrite Hw.
  destruct (truthy (IdMapper.getSubtaskId (task_id task) (subtask_id subtask) this))
    as [blockedId|] eqn:Hblocked.
  - rewrite <- bind_singleton_fmap.
    apply (forEachCounting_Wired cli (subtaskEdgeCall this) this); [|done].
    intros depId count' w' Hw'.
    unfold subtaskDependencyBody, bind at 1, readMapper at 1. simpl. rewrite Hw'.
    apply edgeBody_Wired. unfold subtaskEdgeCall. simpl. by rewrite Hblocked.
  - subst dependencies. rewrite fmap_cons.
    apply Wired_unresolved. unfold subtaskEdgeCall. simpl. by rewrite Hblocked.
Qed.

Lemma subtaskDependenciesIn_Wired task count w :
  mapper w = this →
  Wired cli (subtaskEdgeCall this)
    (default [] (task_subtasks task) ≫= λ s,
       (λ d, (task_id task, subtask_id s, d)) <$>
         default [] (subtask_dependencies s)) count w
    (subtaskDependenciesIn cli task count w).
Proof.
  intros Hw. unfold subtaskDependenciesIn.
  destruct (task_subtasks task) as [subtasks|]; simpl; [|apply Wired_nil].
  apply (forEachCounting_Wired cli (subtaskEdgeCall this) this); [|done].
  intros subtask count' w'. apply subtaskDependenciesOf_Wired.
Qed.

Lemma wireSubtaskDependencies_Wired tasks w :
  mapper w = this →
  Wired cli (subtaskEdgeCall this) (subtaskEdges tasks) 0 w
    (wireSubtaskDependencies tasks cli w).
Proof.
  intros Hw. unfold wireSubtaskDependencies, subtaskEdges.
  apply (forEachCounting_Wired cli (subtaskEdgeCall this) this); [|done].
  intros task count w'. apply subtaskDependenciesIn_Wired.
Qed.

End wireSubtaskDependencies.

(** With a tracker that carries out every call, a wiring run returns
    exactly when every edge can be resolved. *)
Lemma Wired_succeeds {E} cli (edgeCall : E → option BdCall) edges count w r :
  succeeds cli → Wired cli edgeCall edges count w r →
  (∃ count', r.1 = Return count') ↔ Forall (λ e, is_Some (edgeCall e)) edges.
Proof.
  intros Hcli (_ & n & issued & Hn & Hf & Hc & Hr). split.
  - intros [count' Hret]. rewrite Hret in Hr. destruct Hr as [-> _].
    rewrite firstn_all in Hf. apply Forall_forall. intros e He.
    apply list_elem_of_lookup in He as [i Hi].
    destruct (Forall2_lookup_l _ _ _ _ _ Hf Hi) as (c & _ & Hec). by exists c.
  - intros Hall. destruct (r.1) as [count'|message]; [by exists count'|].
    exfalso. destruct Hr as [(e & He & Hnone)|(issued' & c & _ & Hbd)].
    + rewrite Forall_forall in Hall.
      destruct (Hall e) as [c Hc']; [by eapply list_elem_of_lookup_2|].
      congruence.
    + destruct (Hcli (calls w ++ issued') c) as [res Hres]. congruence.
Qed.

(** X6. A run of [wireEpicDependencies] never touches the mapper and walks
    the dependency edges task by task in input order: the calls it has
    issued are the [bd dep add] calls of the first [n] edges, blocked side
    the dependent task's epic and blocking side the dependency's. When it
    returns it has served every edge and the count it returns is the
    number of calls. When it throws it has stopped either in front of an
    edge one end of which has no (non-empty) epic id in the mapper, with no
    call issued for that edge, or on the call the tracker refused. A task
    without dependencies contributes no edge and is never looked up. *)
Theorem wireEpicDependencies_run cli tasks w :
  let r := wireEpicDependencies tasks cli w in
  mapper r.2 = mapper w ∧
  ∃ (n : nat) (issued : list BdCall),
    (n ≤ length (epicEdges tasks))%nat ∧
    Forall2 (λ e c, epicEdgeCall (mapper w) e = Some c)
      (take n (epicEdges tasks)) issued ∧
    calls r.2 = calls w ++ issued ∧
    match r.1 with
    | Return count => n = length (epicEdges tasks) ∧ count = Z.of_nat n
    | Throw message =>
        (∃ e, epicEdges tasks !! n = Some e ∧ epicEdgeCall (mapper w) e = None) ∨
        (∃ issued' c, issued = issued' ++ [c] ∧
           bd cli (calls w ++ issued') c = Throw message)
    end.
Proof.
  simpl.
  destruct (wireEpicDependencies_Wired cli (mapper w) tasks w eq_refl)
    as (Hm & n & issued & Hn & Hf & Hc & Hr).
  split; [done|]. exists n, issued. split_and!; [done..|].
  destruct ((wireEpicDependencies tasks cli w).1); [|done].
  destruct Hr as [-> ->]. split; [done|lia].
Qed.

(** X7. A run of [wireSubtaskDependencies] never touches the mapper and
    walks the dependency edges among subtasks, task by task and subtask by
    subtask in input order; both ends of an edge are resolved under the
    same parent task, so a dependency id names a sibling subtask. The
    calls issued are those of the first [n] edges; a run that returns has
    served every edge and returns their number; a run that throws has
    stopped in front of an edge with an end that has no (non-empty) id in
    the mapper, or on the call the tracker refused. Tasks without a
    subtask list and subtasks without dependencies contribute no edge. *)
Theorem wireSubtaskDependencies_run cli tasks w :
  let r := wireSubtaskDependencies tasks cli w in
  mapper r.2 = mapper w ∧
  ∃ (n : nat) (issued : list BdCall),
    (n ≤ length (subtaskEdges tasks))%nat ∧
    Forall2 (λ e c, subtaskEdgeCall (mapper w) e = Some c)
      (take n (subtaskEdges tasks)) issued ∧
    calls r.2 = calls w ++ issued ∧
    match r.1 with
    | Return count => n = length (subtaskEdges tasks) ∧ count = Z.of_nat n
    | Throw message =>
        (∃ e, subtaskEdges tasks !! n = Some e ∧
              subtaskEdgeCall (mapper w) e = None) ∨
        (∃ issued' c, issued = issued' ++ [c] ∧
           bd cli (calls w ++ issued') c = Throw message)
    end.
Proof.
  simpl.
  destruct (wireSubtaskDependencies_Wired cli (mapper w) tasks w eq_refl)
    as (Hm & n & issued & Hn & Hf & Hc & Hr).
  split; [done|]. exists n, issued. split_and!; [done..|].
  destruct ((wireSubtaskDependencies tasks cli w).1); [|done].
  destruct Hr as [-> ->]. split; [done|lia].
Qed.

(** The two wiring phases in sequence. *)
Lemma wireAllDependencies_unfold tasks cli w :
  wireAllDependencies tasks cli w =
  match wireEpicDependencies tasks cli w with
  | (Return epicDeps, w1) =>
      match wireSubtaskDependencies tasks cli w1 with
      | (Return subtaskDeps, w2) =>
          (Return {| epicDeps := epicDeps; subtaskDeps := subtaskDeps |}, w2)
      | (Throw message, w2) => (Throw message, w2)
      end
  | (Throw message, w1) => (Throw message, w1)
  end.
Proof.
  unfold wireAllDependencies, bind, ret.
  destruct (wireEpicDependencies tasks cli w) as [[e|m] w1]; [|done].
  by destruct (wireSubtaskDependencies tasks cli w1) as [[s|m] w2].
Qed.

Lemma wireAllDependencies_effect cli tasks w :
  succeeds cli →
  let r := wireAllDependencies tasks cli w in
  ((∃ counts, r.1 = Return counts) ↔
   Forall (λ e, is_Some (epicEdgeCall (mapper w) e)) (epicEdges tasks) ∧
   Forall (λ e, is_Some (subtaskEdgeCall (mapper w) e)) (subtaskEdges tasks)) ∧
  (∀ counts, r.1 = Return counts →
     mapper r.2 = mapper w ∧
     epicDeps counts = Z.of_nat (length (epicEdges tasks)) ∧
     subtaskDeps counts = Z.of_nat (length (subtaskEdges tasks)) ∧
     ∃ issuedEpic issuedSubtask,
       calls r.2 = calls w ++ issuedEpic ++ issuedSubtask ∧
       Forall2 (λ e c, epicEdgeCall (mapper w) e = Some c)
         (epicEdges tasks) issuedEpic ∧
       Forall2 (λ e c, subtaskEdgeCall (mapper w) e = Some c)
         (subtaskEdges tasks) issuedSubtask).
Proof.
  intros Hcli. simpl. rewrite wireAllDependencies_unfold.
  pose proof (wireEpicDependencies_Wired cli (mapper w) tasks w eq_refl) as HE.
  pose proof (Wired_succeeds _ _ _ _ _ _ Hcli HE) as HEret.
  destruct (wireEpicDependencies tasks cli w) as [[e|m] w1]; simpl in *.
  2: { split; [|done]. split; [by intros [? ?]|].
       intros [Hall _]. apply HEret in Hall as [? ?]. done. }
  destruct HE as (Hm1 & n1 & issued1 & Hn1 & Hf1 & Hc1 & [-> ->]).
  simpl in Hm1, Hc1. rewrite firstn_all in Hf1.
  pose proof (wireSubtaskDependencies_Wired cli (mapper w) tasks w1 Hm1) as HS.
  pose proof (Wired_succeeds _ _ _ _ _ _ Hcli HS) as HSret.
  destruct (wireSubtaskDependencies tasks cli w1) as [[s|m] w2]; simpl in *.
  2: { split; [|done]. split; [by intros [? ?]|].
       intros [_ Hall]. apply HSret in Hall as [? ?]. done. }
  destruct HS as (Hm2 & n2 & issued2 & Hn2 & Hf2 & Hc2 & [-> ->]).
  simpl in Hm2, Hc2. rewrite firstn_all in Hf2.
  split.
  - split; [|by eauto]. intros _. split.
    + apply HEret. by eexists.
    + apply HSret. by eexists.
  - intros counts [= <-]. simpl. split_and!; [congruence|lia|lia|].
    exists issued1, issued2. split_and!; [|done..].
    by rewrite Hc2, Hc1, app_assoc.
Qed.

(** X8. With a tracker that carries out every call,
    [wireAllDependencies] returns exactly when every dependency edge among
    tasks and every dependency edge among subtasks has a (non-empty)
    destination id for both ends. It then leaves the mapper as it was, has
    issued one [bd dep add] per edge, the edges among tasks first, and
    returns the two edge counts. *)
Theorem wireAllDependencies_returns cli tasks w :
  succeeds cli →
  let r := wireAllDependencies tasks cli w in
  ((∃ counts, r.1 = Return counts) ↔
   Forall (λ e, is_Some (epicEdgeCall (mapper w) e)) (epicEdges tasks) ∧
   Forall (λ e, is_Some (subtaskEdgeCall (mapper w) e)) (subtaskEdges tasks)) ∧
  (∀ counts, r.1 = Return counts →
     mapper r.2 = mapper w ∧
     epicDeps counts = Z.of_nat (length (epicEdges tasks)) ∧
     subtaskDeps counts = Z.of_nat (length (subtaskEdges tasks)) ∧
     ∃ issuedEpic issuedSubtask,
       calls r.2 = calls w ++ issuedEpic ++ issuedSubtask ∧
       Forall2 (λ e c, epicEdgeCall (mapper w) e = Some c)
         (epicEdges tasks) issuedEpic ∧
       Forall2 (λ e c, subtaskEdgeCall (mapper w) e = Some c)
         (subtaskEdges tasks) issuedSubtask).
Proof. apply wireAllDependencies_effect. Qed.

Lemma mockCli_succeeds : succeeds mockCli.
Proof. intros history c. destruct c; by eexists. Qed.

Lemma wireAllDependencies_returns_witness :
  let w := {| mapper := mappedF; calls := [] |} in
  let r := wireAllDependencies scenarioF mockCli w in
  ((∃ counts, r.1 = Return counts) ↔
   Forall (λ e, is_Some (epicEdgeCall (mapper w) e)) (epicEdges scenarioF) ∧
   Forall (λ e, is_Some (subtaskEdgeCall (mapper w) e)) (subtaskEdges scenarioF)) ∧
  (∀ counts, r.1 = Return counts →
     mapper r.2 = mapper w ∧
     epicDeps counts = Z.of_nat (length (epicEdges scenarioF)) ∧
     subtaskDeps counts = Z.of_nat (length (subtaskEdges scenarioF)) ∧
     ∃ issuedEpic issuedSubtask,
       calls r.2 = calls w ++ issuedEpic ++ issuedSubtask ∧
       Forall2 (λ e c, epicEdgeCall (mapper w) e = Some c)
         (epicEdges scenarioF) issuedEpic ∧
       Forall2 (λ e c, subtaskEdgeCall (mapper w) e = Some c)
         (subtaskEdges scenarioF) issuedSubtask).
Proof.
  apply (wireAllDependencies_returns mockCli scenarioF
           {| mapper := mappedF; calls := [] |} mockCli_succeeds).
Defined.

(** ** Creation of the epics *)

Lemma createEpics_cons cli task tasks w :
  createEpics (task :: tasks) cli w =
  match bd cli (calls w) (epicCall task) with
  | Return result =>
      createEpics tasks cli
        {| mapper := IdMapper.addEpic (task_id task) (id result) (mapper w);
           calls := calls w ++ [epicCall task] |}
  | Throw message =>
      (Throw message, {| mapper := mapper w; calls := calls w ++ [epicCall task] |})
  end.
Proof.
  unfold createEpics. rewrite forEach_cons. unfold bind at 1.
  rewrite createEpic_unfold. fold (epicCall task). simpl.
  by destruct (bd cli (calls w) (epicCall task)).
Qed.

Lemma createEpics_trace cli tasks w :
  let r := createEpics tasks cli w in
  ∃ results : list BeadsCreateResult,
    (length results ≤ length tasks)%nat ∧
    (∀ i result, results !! i = Some result →
       ∃ task, tasks !! i = Some task ∧
         bd cli (calls w ++ (epicCall <$> take i tasks)) (epicCall task)
           = Return result) ∧
    IdMapper.tasks (mapper r.2) =
      IdMapper.tasks (mapper w) ++ zip_with epicEntry tasks results ∧
    match r.1 with
    | Return _ =>
        length results = length tasks ∧
        calls r.2 = calls w ++ (epicCall <$> tasks)
    | Throw message =>
        ∃ task, tasks !! length results = Some task ∧
          bd cli (calls w ++ (epicCall <$> take (length results) tasks))
             (epicCall task) = Throw message ∧
          calls r.2 = calls w ++ (epicCall <$> take (S (length results)) tasks)
    end.
Proof.
  simpl. revert w. induction tasks as [|task tasks IH]; intros w.
  { exists []. simpl. rewrite !app_nil_r. split_and!; done. }
  rewrite createEpics_cons.
  destruct (bd cli (calls w) (epicCall task)) as [result|message] eqn:Hbd.
  - set (w1 := {| mapper := IdMapper.addEpic (task_id task) (id result) (mapper w);
                  calls := calls w ++ [epicCall task] |}).
    destruct (IH w1) as (results & Hlen & Hres & Hm & Hr).
    exists (result :: results). split_and!.
    + simpl. lia.
    + intros [|i] result' Hi; simpl in *.
      * injection Hi as <-. exists task. by rewrite app_nil_r.
      * destruct (Hres i result' Hi) as (task' & Ht' & Hbd').
        exists task'. split; [done|]. by rewrite <- app_assoc in Hbd'.
    + rewrite Hm. simpl. by rewrite <- app_assoc.
    + destruct (createEpics tasks cli w1) as [[[]|message] w2]; simpl in *.
      * destruct Hr as [Hlen' Hc]. split; [lia|].
        rewrite Hc. by rewrite <- app_assoc.
      * destruct Hr as (task' & Ht' & Hbd' & Hc).
        exists task'. split_and!; [done| |].
        -- by rewrite <- app_assoc in Hbd'.
        -- rewrite Hc. by rewrite <- app_assoc.
  - exists []. simpl. rewrite !app_nil_r. split_and!; [lia| |done|].
    + intros i result Hi. by rewrite lookup_nil in Hi.
    + by exists task.
Qed.

(** X9. [createEpics] is fail-fast and records as it goes. The tasks are
    served in input order; each call sees the calls issued before it; an
    answer is recorded at once as a new last entry of the mapper, and no
    entry the mapper had is moved or removed. A run that returns has
    issued one creation call per task and recorded every answer. A run
    that throws has stopped on the call the tracker refused: that call was
    issued, no entry was recorded for its task, the tasks before it are
    recorded, and the tasks after it were not attempted. *)
Theorem createEpics_run cli tasks w :
  let r := createEpics tasks cli w in
  ∃ results : list BeadsCreateResult,
    (length results ≤ length tasks)%nat ∧
    (∀ i result, results !! i = Some result →
       ∃ task, tasks !! i = Some task ∧
         bd cli (calls w ++ (epicCall <$> take i tasks)) (epicCall task)
           = Return result) ∧
    IdMapper.tasks (mapper r.2) =
      IdMapper.tasks (mapper w) ++ zip_with epicEntry tasks results ∧
    match r.1 with
    | Return _ =>
        length results = length tasks ∧
        calls r.2 = calls w ++ (epicCall <$> tasks)
    | Throw message =>
        ∃ task, tasks !! length results = Some task ∧
          bd cli (calls w ++ (epicCall <$> take (length results) tasks))
             (epicCall task) = Throw message ∧
          calls r.2 = calls w ++ (epicCall <$> take (S (length results)) tasks)
    end.
Proof. apply createEpics_trace. Qed.

(** ** Creation of the children *)

Lemma getEpicId_is_Some k this :
  is_Some (IdMapper.getEpicId k this) ↔
  k ∈ TaskMapping.tmId <$> IdMapper.tasks this.
Proof.
  unfold IdMapper.getEpicId. rewrite fmap_is_Some. split.
  - intros [[i e] (Hi & He & _)%list_find_Some].
    apply list_elem_of_fmap. exists e. split; [done|].
    by eapply list_elem_of_lookup_2.
  - intros (e & -> & He)%list_elem_of_fmap.
    by eapply (list_find_elem_of (λ t, TaskMapping.tmId t = TaskMapping.tmId e)).
Qed.

Lemma keepsAnswers_refl this : keepsAnswers this this.
Proof. by split. Qed.

Lemma keepsAnswers_trans this1 this2 this3 :
  keepsAnswers this1 this2 → keepsAnswers this2 this3 → keepsAnswers this1 this3.
Proof.
  intros [He1 Hs1] [He2 Hs2]. split.
  - intros k. by rewrite He2.
  - intros t s x Hx. by apply Hs2, Hs1.
Qed.

(** What one [addSubtask] does to the lookups, whether it returns or
    throws. *)
Lemma addSubtask_effect taskTmId subtaskTmId beadsId this :
  keepsAnswers this (IdMapper.addSubtask taskTmId subtaskTmId beadsId this).2 ∧
  (∀ t s x,
     IdMapper.getSubtaskId t s
       (IdMapper.addSubtask taskTmId subtaskTmId beadsId this).2 = Some x →
     IdMapper.getSubtaskId t s this = Some x ∨ x = beadsId) ∧
  ((IdMapper.addSubtask taskTmId subtaskTmId beadsId this).1 = Return () →
   is_Some (IdMapper.getSubtaskId taskTmId subtaskTmId
     (IdMapper.addSubtask taskTmId subtaskTmId beadsId this).2)) ∧
  (is_Some (IdMapper.getEpicId taskTmId this) →
   (IdMapper.addSubtask taskTmId subtaskTmId beadsId this).1 = Return ()).
Proof.
  destruct (decide (taskTmId ∈ TaskMapping.tmId <$> IdMapper.tasks this))
    as [Hreg|Hreg].
  - destruct (addSubtask_registered taskTmId subtaskTmId beadsId this Hreg)
      as (this' & -> & He & Hs & _). simpl.
    split_and!; [split; [done|]| | |done].
    + intros t s x Hx. by rewrite Hs, Hx.
    + intros t s x. rewrite Hs.
      destruct (IdMapper.getSubtaskId t s this); [by left|].
      case_decide; [|done]. intros [= <-]. by right.
    + intros _. rewrite Hs.
      destruct (IdMapper.getSubtaskId taskTmId subtaskTmId this); [done|].
      by rewrite decide_True.
  - assert (IdMapper.addSubtask taskTmId subtaskTmId beadsId this =
            (Throw (IdMapper.notFoundMessage taskTmId), this)) as ->.
    { unfold IdMapper.addSubtask.
      destruct (list_find _ (IdMapper.tasks this)) as [[i e]|] eqn:Hfind; [|done].
      destruct Hreg. apply list_find_Some in Hfind as (Hi & <- & _).
      apply list_elem_of_fmap. exists e. split; [done|].
      by eapply list_elem_of_lookup_2. }
    simpl. split_and!; [apply keepsAnswers_refl|by left|done|].
    intros Hsome. by apply getEpicId_is_Some in Hsome.
Qed.

Section children.
Context (cli : BeadsCli).

Lemma childBody_effect task epicId subtask w :
  keepsAnswers (mapper w) (mapper (childBody cli task epicId subtask w).2) ∧
  ((childBody cli task epicId subtask w).1 = Return () →
   is_Some (IdMapper.getSubtaskId (task_id task) (subtask_id subtask)
              (mapper (childBody cli task epicId subtask w).2))) ∧
  (succeeds cli → is_Some (IdMapper.getEpicId (task_id task) (mapper w)) →
   (childBody cli task epicId subtask w).1 = Return ()) ∧
  (namesCreated cli → subtaskIdsNonEmpty (mapper w) →
   subtaskIdsNonEmpty (mapper (childBody cli task epicId subtask w).2)).
Proof.
  unfold childBody, bind, call, withMapper. simpl.
  set (c := CreateChild epicId (subtask_title subtask)
              (formatChildDescription subtask)).
  destruct (bd cli (calls w) c) as [result|message] eqn:Hbd; simpl.
  - destruct (addSubtask_effect (task_id task) (subtask_id subtask) (id result)
                (mapper w)) as (Hkeep & Hnew & Hret & Hok).
    destruct (IdMapper.addSubtask (task_id task) (subtask_id subtask) (id result)
                (mapper w)) as [r this']; simpl in *.
    split_and!; [done..|].
    intros Hnames Hne t s x Hx. destruct (Hnew t s x Hx) as [Hold| ->].
    + by eapply Hne.
    + apply (Hnames _ _ _ Hbd).
  - split_and!; [apply keepsAnswers_refl|done| |done].
    intros Hcli _. destruct (Hcli (calls w) c) as [? ?]. congruence.
Qed.

Lemma forEach_childBody_effect task epicId subtasks w :
  keepsAnswers (mapper w)
    (mapper (forEach subtasks (childBody cli task epicId) w).2) ∧
  ((forEach subtasks (childBody cli task epicId) w).1 = Return () →
   Forall (λ subtask,
       is_Some (IdMapper.getSubtaskId (task_id task) (subtask_id subtask)
         (mapper (forEach subtasks (childBody cli task epicId) w).2)))
     subtasks) ∧
  (succeeds cli → is_Some (IdMapper.getEpicId (task_id task) (mapper w)) →
   (forEach subtasks (childBody cli task epicId) w).1 = Return ()) ∧
  (namesCreated cli → subtaskIdsNonEmpty (mapper w) →
   subtaskIdsNonEmpty
     (mapper (forEach subtasks (childBody cli task epicId) w).2)).
Proof.
  revert w. induction subtasks as [|s subtasks IH]; intros w.
  { simpl. split_and!; [apply keepsAnswers_refl|by constructor|done..]. }
  rewrite forEach_cons.
  destruct (childBody_effect task epicId s w) as (Hkeep & Hret & Hok & Hne).
  destruct (childBody cli task epicId s w) as [[[]|message] w1]; simpl in *.
  - destruct (IH w1) as (Hkeep' & Hret' & Hok' & Hne').
    split_and!.
    + by eapply keepsAnswers_trans.
    + intros Hr. constructor; [|by apply Hret'].
      destruct (Hret eq_refl) as [x Hx]. exists x. by apply Hkeep'.
    + intros Hcli Hsome. apply Hok'; [done|]. by rewrite (proj1 Hkeep).
    + intros Hnames Hw. by apply Hne', Hne.
  - split_and!; [done|done| |by auto].
    intros Hcli Hsome. by apply Hok.
Qed.

Lemma createChildren_sorted task epicId s subtasks :
  task_subtasks task = Some (s :: subtasks) →
  createChildren task epicId cli =
    forEach (sort (λ a b, subtask_id a - subtask_id b) (s :: subtasks))
      (childBody cli task epicId).
Proof. unfold createChildren. by intros ->. Qed.

Lemma createChildren_effect task epicId w :
  keepsAnswers (mapper w) (mapper (createChildren task epicId cli w).2) ∧
  ((createChildren task epicId cli w).1 = Return () →
   calls (createChildren task epicId cli w).2 =
     calls w ++ childCalls epicId task ∧
   Forall (λ subtask,
       is_Some (IdMapper.getSubtaskId (task_id task) (subtask_id subtask)
         (mapper (createChildren task epicId cli w).2)))
     (default [] (task_subtasks task))) ∧
  (succeeds cli → is_Some (IdMapper.getEpicId (task_id task) (mapper w)) →
   (createChildren task epicId cli w).1 = Return ()) ∧
  (namesCreated cli → subtaskIdsNonEmpty (mapper w) →
   subtaskIdsNonEmpty (mapper (createChildren task epicId cli w).2)).
Proof.
  destruct (task_subtasks task) as [[|s subtasks]|] eqn:Hsub.
  - unfold createChildren, childCalls. rewrite Hsub. simpl.
    split_and!; [apply keepsAnswers_refl| |done..].
    intros _. by rewrite app_nil_r.
  - rewrite (createChildren_sorted _ _ _ _ Hsub).
    unfold childCalls. rewrite Hsub.
    change (default [] (Some (s :: subtasks))) with (s :: subtasks).
    set (sorted := sort (λ a b, subtask_id a - subtask_id b) (s :: subtasks)).
    destruct (forEach_childBody_effect task epicId sorted w)
      as (Hkeep & Hret & Hok & Hne).
    destruct (forEach_childBody cli task epicId sorted w) as (n & Hn & Hc & Hall).
    split_and!; [done| |done..].
    intros Hr. split.
    + rewrite Hc, (Hall Hr). by rewrite take_ge by (rewrite length_fmap; lia).
    + specialize (Hret Hr). rewrite Forall_forall in Hret. apply Forall_forall.
      intros x Hx. apply Hret. unfold sorted. by rewrite sort_Permutation.
  - unfold createChildren, childCalls. rewrite Hsub. simpl.
    split_and!; [apply keepsAnswers_refl| |done..].
    intros _. by rewrite app_nil_r.
Qed.

End children.

(** ** Creation does not consult the mapping store *)

Lemma addSubtask_cases taskTmId subtaskTmId beadsId this :
  match IdMapper.addSubtask taskTmId subtaskTmId beadsId this with
  | (Return _, _) => is_Some (IdMapper.getEpicId taskTmId this)
  | (Throw message, this') =>
      this' = this ∧ IdMapper.getEpicId taskTmId this = None ∧
      message = IdMapper.notFoundMessage taskTmId
  end.
Proof.
  unfold IdMapper.addSubtask, IdMapper.getEpicId.
  destruct (list_find _ (IdMapper.tasks this)) as [[i x]|]; simpl; [by eexists|done].
Qed.

Lemma Sorted_weaken {A} (R R' : relation A) l :
  (∀ x y, R x y → R' x y) → Sorted R l → Sorted R' l.
Proof.
  intros HR. induction 1 as [|x l Hl IH Hhd]; constructor; [done|].
  destruct Hhd; constructor. by apply HR.
Qed.

Lemma childBody_unfold cli task epicId subtask w :
  childBody cli task epicId subtask w =
  let c := CreateChild epicId (subtask_title subtask)
             (formatChildDescription subtask) in
  match bd cli (calls w) c with
  | Return result =>
      let added := IdMapper.addSubtask (task_id task) (subtask_id subtask)
                     (id result) (mapper w) in
      (added.1, {| mapper := added.2; calls := calls w ++ [c] |})
  | Throw message =>
      (Throw message, {| mapper := mapper w; calls := calls w ++ [c] |})
  end.
Proof.
  unfold childBody, bind, call, withMapper. simpl.
  destruct (bd cli (calls w) _); [|done].
  by destruct (IdMapper.addSubtask _ _ _ _).
Qed.

(** A run of the loop of [createChildren]: the answers recorded, the
    store they leave, and where the loop stops. *)
Lemma forEach_childBody_trace cli task epicId subtasks w :
  let r := forEach subtasks (childBody cli task epicId) w in
  let callOf := λ s, CreateChild epicId (subtask_title s)
                       (formatChildDescription s) in
  ∃ results : list BeadsCreateResult,
    (length results ≤ length subtasks)%nat ∧
    (∀ i result, results !! i = Some result →
       ∃ s, subtasks !! i = Some s ∧
         bd cli (calls w ++ (callOf <$> take i subtasks)) (callOf s)
           = Return result) ∧
    mapper r.2 = recordChildren task (mapper w) (zip subtasks results) ∧
    match r.1 with
    | Return _ =>
        length results = length subtasks ∧
        calls r.2 = calls w ++ (callOf <$> subtasks)
    | Throw message =>
        ∃ s, subtasks !! length results = Some s ∧
          calls r.2 =
            calls w ++ (callOf <$> take (S (length results)) subtasks) ∧
          (bd cli (calls w ++ (callOf <$> take (length results) subtasks))
              (callOf s) = Throw message ∨
           (∃ result,
              bd cli (calls w ++ (callOf <$> take (length results) subtasks))
                (callOf s) = Return result) ∧
           results = [] ∧
           IdMapper.getEpicId (task_id task) (mapper w) = None ∧
           message = IdMapper.notFoundMessage (task_id task))
    end.
Proof.
  cbv zeta. revert w. induction subtasks as [|s subtasks IH]; intros w.
  { exists []. simpl. rewrite !app_nil_r. split_and!; done. }
  rewrite forEach_cons, childBody_unfold. cbv zeta.
  set (c := CreateChild epicId (subtask_title s) (formatChildDescription s)).
  destruct (bd cli (calls w) c) as [result|message] eqn:Hbd.
  2: { exists []. simpl. rewrite !app_nil_r. split_and!; [lia| |done|].
       - intros i result Hi. by rewrite lookup_nil in Hi.
       - exists s. split_and!; [done|done|by left]. }
  pose proof (addSubtask_cases (task_id task) (subtask_id s) (id result)
    (mapper w)) as Hadd.
  pose proof (addSubtask_effect (task_id task) (subtask_id s) (id result)
    (mapper w)) as ([Hepic _] & _).
  destruct (IdMapper.addSubtask (task_id task) (subtask_id s) (id result)
    (mapper w)) as [[[]|message] this'] eqn:Hadded; cbn [fst snd] in *.
  2: { destruct Hadd as (-> & Hnone & ->).
       exists []. simpl. rewrite !app_nil_r. split_and!; [lia| |done|].
       - intros i result' Hi. by rewrite lookup_nil in Hi.
       - exists s. split_and!; [done|done|]. right.
         split_and!; [by exists result|done..]. }
  set (w1 := {| mapper := this'; calls := calls w ++ [c] |}).
  destruct (IH w1) as (results & Hlen & Hres & Hm & Hr).
  exists (result :: results). split_and!.
  - simpl. lia.
  - intros [|i] result' Hi; simpl in *.
    + injection Hi as <-. exists s. by rewrite app_nil_r.
    + destruct (Hres i result' Hi) as (s' & Hs' & Hbd').
      exists s'. split; [done|]. by rewrite <- app_assoc in Hbd'.
  - rewrite Hm. simpl. by rewrite Hadded.
  - destruct (forEach subtasks (childBody cli task epicId) w1)
      as [[[]|message] w2]; simpl in *.
    + destruct Hr as [Hlen' Hc]. split; [lia|].
      rewrite Hc. by rewrite <- app_assoc.
    + destruct Hr as (s' & Hs' & Hc & Hwhy).
      exists s'. split_and!; [done| |].
      * rewrite Hc. by rewrite <- app_assoc.
      * left. destruct Hwhy as [Hbd'|(_ & _ & Hnone & _)].
        -- by rewrite <- app_assoc in Hbd'.
        -- rewrite Hepic in Hnone. destruct Hadd as [x Hx]. congruence.
Qed.

(** C2 as stated fails: with an entry for task 1 (and for its subtask 1)
    already in the store, as after a resume, [createEpic] and
    [createChildren] still issue the creation calls, and [createEpic]
    returns the fresh id rather than the mapped one. *)
Lemma creation_does_not_skip_mapped_entities :
  let this := (IdMapper.addSubtask 1 1 "bd-1.1"
                 (IdMapper.addEpic 1 "bd-1" IdMapper.new)).2 in
  let w := {| mapper := this; calls := [] |} in
  let task := withSubtasks [makeSubtask 1 pending] (makeTask 1 []) in
  IdMapper.getEpicId 1 this = Some "bd-1" ∧
  IdMapper.getSubtaskId 1 1 this = Some "bd-1.1" ∧
  (createEpic task mockCli w).1 = Return "bd-abc" ∧
  calls (createEpic task mockCli w).2 =
    [CreateEpic (task_title task) (formatEpicDescription task) 1] ∧
  calls (createChildren task "bd-1" mockCli w).2 =
    [CreateChild "bd-1" "S1" "D"].
Proof. vm_compute. done. Qed.

(** C2, amended. The creation phase does not consult the mapping store
    before creating. Whatever the store holds, [createEpic] issues exactly
    one creation call for its task. When the tracker answers, [createEpic]
    returns the id of the answer and appends an entry with that id to the
    store; an entry the store already had for the task stays in front, so
    [getEpicId] goes on answering with the earlier destination id. When
    the tracker refuses, [createEpic] throws the tracker's error and the
    store is as before. [createChildren] serves the subtasks in ascending
    subtask id, whatever the store holds: it issues one child-creation
    call per subtask and records each answer of the tracker with
    [addSubtask] before the next call. It stops at the first call that the
    tracker refuses, or at the first [addSubtask] that throws, which can
    only be the one for the first subtask and only because the store has
    no entry for the task; the failing call was issued, the answers before
    it are recorded, and the subtasks after it are not attempted. *)
Theorem creation_ignores_mapping cli :
  (∀ task w,
     calls (createEpic task cli w).2 = calls w ++ [epicCall task] ∧
     match bd cli (calls w) (epicCall task) with
     | Return result =>
         (createEpic task cli w).1 = Return (id result) ∧
         IdMapper.tasks (mapper (createEpic task cli w).2) =
           IdMapper.tasks (mapper w) ++ [epicEntry task result] ∧
         IdMapper.getEpicId (task_id task) (mapper (createEpic task cli w).2) =
           Some (default (id result)
                   (IdMapper.getEpicId (task_id task) (mapper w)))
     | Throw message =>
         (createEpic task cli w).1 = Throw message ∧
         mapper (createEpic task cli w).2 = mapper w
     end) ∧
  (∀ task epicId,
     let sorted := sort (λ a b, subtask_id a - subtask_id b)
                     (default [] (task_subtasks task)) in
     sorted ≡ₚ default [] (task_subtasks task) ∧
     Sorted (λ a b, subtask_id a ≤ subtask_id b) sorted ∧
     childCalls epicId task =
       (λ s, CreateChild epicId (subtask_title s) (formatChildDescription s))
         <$> sorted) ∧
  (∀ task epicId w,
     let r := createChildren task epicId cli w in
     let sorted := sort (λ a b, subtask_id a - subtask_id b)
                     (default [] (task_subtasks task)) in
     ∃ results : list BeadsCreateResult,
       (length results ≤ length sorted)%nat ∧
       (∀ i result, results !! i = Some result →
          ∃ c, childCalls epicId task !! i = Some c ∧
            bd cli (calls w ++ take i (childCalls epicId task)) c
              = Return result) ∧
       mapper r.2 = recordChildren task (mapper w) (zip sorted results) ∧
       match r.1 with
       | Return _ =>
           length results = length sorted ∧
           calls r.2 = calls w ++ childCalls epicId task
       | Throw message =>
           ∃ c, childCalls epicId task !! length results = Some c ∧
             calls r.2 =
               calls w ++ take (S (length results)) (childCalls epicId task) ∧
             (bd cli (calls w ++ take (length results) (childCalls epicId task))
                 c = Throw message ∨
              (∃ result,
                 bd cli (calls w ++ take (length results) (childCalls epicId task))
                   c = Return result) ∧
              results = [] ∧
              IdMapper.getEpicId (task_id task) (mapper w) = None ∧
              message = IdMapper.notFoundMessage (task_id task))
       end).
Proof.
  split_and!.
  - intros task w. rewrite createEpic_unfold. fold (epicCall task). cbv zeta.
    destruct (bd cli (calls w) (epicCall task)) as [result|message];
      cbn [fst snd mapper calls]; [|done].
    split_and!; [done..|apply getEpicId_addEpic].
  - intros task epicId. cbv zeta. split_and!.
    + apply sort_Permutation.
    + eapply Sorted_weaken; [|apply sort_Sorted; intros x y; lia].
      intros x y. simpl. lia.
    + done.
  - intros task epicId w. cbv zeta.
    assert (createChildren task epicId cli w =
      forEach (sort (λ a b, subtask_id a - subtask_id b)
                 (default [] (task_subtasks task)))
        (childBody cli task epicId) w) as ->.
    { unfold createChildren. by destruct (task_subtasks task) as [[|s l]|]. }
    unfold childCalls.
    set (sorted := sort (λ a b, subtask_id a - subtask_id b)
                     (default [] (task_subtasks task))).
    destruct (forEach_childBody_trace cli task epicId sorted w)
      as (results & Hlen & Hres & Hm & Hr). cbv zeta in Hres, Hr.
    exists results. split_and!; [done| |done|].
    + intros i result Hi. destruct (Hres i result Hi) as (s & Hs & Hbd).
      eexists. rewrite list_lookup_fmap, Hs. split; [done|].
      by rewrite <- fmap_take.
    + destruct (forEach sorted (childBody cli task epicId) w).1 as [[]|message].
      * done.
      * destruct Hr as (s & Hs & Hc & Hwhy). eexists.
        rewrite list_lookup_fmap, Hs. split; [done|].
        rewrite <- !fmap_take. split; [done|].
        destruct Hwhy as [Hbd|(Hbd & Hnil & Hnone & ->)]; [by left|by right].
Qed.

Lemma truthy_Some x s : truthy x = Some s → x = Some s ∧ s ≠ "".
Proof.
  unfold truthy. destruct x as [y|]; [|done].
  case_decide; [done|]. by intros [= ->].
Qed.

Lemma createAllChildren_cons cli task tasks w :
  createAllChildren (task :: tasks) cli w =
  match truthy (IdMapper.getEpicId (task_id task) (mapper w)) with
  | None => (Throw ("Epic ID not found for task " +:+ pretty (task_id task)), w)
  | Some epicId =>
      match createChildren task epicId cli w with
      | (Return _, w') => createAllChildren tasks cli w'
      | (Throw message, w') => (Throw message, w')
      end
  end.
Proof.
  unfold createAllChildren. rewrite forEach_cons.
  unfold bind, readMapper. simpl.
  by destruct (truthy (IdMapper.getEpicId (task_id task) (mapper w))).
Qed.

Lemma createAllChildren_effect cli tasks w :
  keepsAnswers (mapper w) (mapper (createAllChildren tasks cli w).2) ∧
  ((createAllChildren tasks cli w).1 = Return () →
   Forall (epicMapped (mapper w)) tasks ∧
   calls (createAllChildren tasks cli w).2 =
     calls w ++ (tasks ≫= λ task,
       childCalls (default "" (IdMapper.getEpicId (task_id task) (mapper w))) task) ∧
   Forall (λ task, Forall (λ subtask,
       is_Some (IdMapper.getSubtaskId (task_id task) (subtask_id subtask)
         (mapper (createAllChildren tasks cli w).2)))
     (default [] (task_subtasks task))) tasks) ∧
  (succeeds cli → Forall (epicMapped (mapper w)) tasks →
   (createAllChildren tasks cli w).1 = Return ()) ∧
  (namesCreated cli → subtaskIdsNonEmpty (mapper w) →
   subtaskIdsNonEmpty (mapper (createAllChildren tasks cli w).2)).
Proof.
  revert w. induction tasks as [|task tasks IH]; intros w.
  { simpl. split_and!; [apply keepsAnswers_refl| |done..].
    intros _. rewrite app_nil_r. by repeat constructor. }
  rewrite createAllChildren_cons.
  destruct (truthy (IdMapper.getEpicId (task_id task) (mapper w)))
    as [epicId|] eqn:Hepic.
  2: { simpl. split_and!; [apply keepsAnswers_refl|done| |done].
       intros _ Hall. apply Forall_cons in Hall as [[x Hx] _].
       unfold epicMapped in Hx. congruence. }
  pose proof Hepic as [Hsome Hne]%truthy_Some.
  destruct (createChildren_effect cli task epicId w) as (Hkeep & Hret & Hok & Hnon).
  destruct (createChildren task epicId cli w) as [[[]|message] w1];
    simpl in Hkeep, Hret, Hok, Hnon; cbv beta iota.
  2: { simpl. split_and!; [done|done| |by auto].
       intros Hcli _. apply Hok; [done|]. by rewrite Hsome. }
  destruct (Hret eq_refl) as [Hc1 Hsub1].
  destruct (IH w1) as (Hkeep' & Hret' & Hok' & Hnon').
  assert (∀ t, epicMapped (mapper w1) t ↔ epicMapped (mapper w) t) as Hmapped.
  { intros t. unfold epicMapped. by rewrite (proj1 Hkeep). }
  split_and!.
  - by eapply keepsAnswers_trans.
  - intros Hr. destruct (Hret' Hr) as (Hall & Hc & Hsub). split_and!.
    + constructor; [by exists epicId|].
      eapply Forall_impl; [exact Hall|]. intros t. by apply Hmapped.
    + rewrite Hc, Hc1, bind_cons, Hsome, <- app_assoc. simpl. do 2 f_equal.
      apply list_bind_ext; [|done]. intros t.
      by rewrite (proj1 Hkeep).
    + constructor; [|done].
      eapply Forall_impl; [exact Hsub1|]. intros s [x Hx]. exists x.
      by apply Hkeep'.
  - intros Hcli Hall. apply Forall_cons in Hall as [_ Hall].
    apply Hok'; [done|].
    eapply Forall_impl; [exact Hall|]. intros t. by apply Hmapped.
  - intros Hnames Hw. by apply Hnon', Hnon.
Qed.

(** X10. [createAllChildren] only ever adds subtask entries: every epic
    lookup and every subtask lookup that had an answer keeps it. A run
    that returns has found a (non-empty) epic id for every task of the
    list, those without subtasks included, has issued for each task in
    turn the child-creation calls of its subtasks under that epic id, and
    leaves every subtask of every task with an answer in the mapper. With
    a tracker that carries out every call the run returns as soon as every
    task has such an epic id; and when the tracker answers creations with
    non-empty ids, no subtask lookup answers with an empty one
    afterwards. *)
Theorem createAllChildren_run cli tasks w :
  let r := createAllChildren tasks cli w in
  keepsAnswers (mapper w) (mapper r.2) ∧
  (r.1 = Return () →
   Forall (epicMapped (mapper w)) tasks ∧
   calls r.2 =
     calls w ++ (tasks ≫= λ task,
       childCalls (default "" (IdMapper.getEpicId (task_id task) (mapper w))) task) ∧
   Forall (λ task, Forall (λ subtask,
       is_Some (IdMapper.getSubtaskId (task_id task) (subtask_id subtask)
                  (mapper r.2)))
     (default [] (task_subtasks task))) tasks) ∧
  (succeeds cli → Forall (epicMapped (mapper w)) tasks → r.1 = Return ()) ∧
  (namesCreated cli → subtaskIdsNonEmpty (mapper w) →
   subtaskIdsNonEmpty (mapper r.2)).
Proof. apply createAllChildren_effect. Qed.

(** ** Status propagation: when it returns *)

Section statusReturns.
Context (cli : BeadsCli).

Lemma syncEpicStatus_returns task w :
  mapper (syncEpicStatus task cli w).2 = mapper w ∧
  ((syncEpicStatus task cli w).1 = Return () → epicMapped (mapper w) task) ∧
  (succeeds cli → epicMapped (mapper w) task →
   (syncEpicStatus task cli w).1 = Return ()).
Proof.
  unfold syncEpicStatus, epicMapped, bind, readMapper. simpl.
  destruct (truthy (IdMapper.getEpicId (task_id task) (mapper w))) as [epicId|];
    [|split_and!; [done|done|by intros _ [? ?]]].
  rewrite mapStatus_literal.
  destruct (task_status task); simpl; unfold bind, call, ret; simpl;
    try (by split_and!; eauto);
    (split_and!; [by destruct (bd cli (calls w) _)|by eauto|];
     intros Hcli _;
     match goal with
     | |- context [bd cli ?h ?c] => destruct (Hcli h c) as [res ->]
     end; done).
Qed.

Lemma subtaskBody_returns task subtask w :
  mapper (subtaskBody cli task subtask w).2 = mapper w ∧
  ((subtaskBody cli task subtask w).1 = Return () →
   is_Some (truthy (IdMapper.getSubtaskId (task_id task) (subtask_id subtask)
                      (mapper w)))) ∧
  (succeeds cli →
   is_Some (truthy (IdMapper.getSubtaskId (task_id task) (subtask_id subtask)
                      (mapper w))) →
   (subtaskBody cli task subtask w).1 = Return ()).
Proof.
  unfold subtaskBody, bind, readMapper. simpl.
  destruct (truthy (IdMapper.getSubtaskId (task_id task) (subtask_id subtask)
                      (mapper w))) as [subtaskId|];
    [|split_and!; [done|done|by intros _ [? ?]]].
  rewrite mapStatus_literal.
  destruct (subtask_status subtask); simpl; unfold bind, call, ret; simpl;
    try (by split_and!; eauto);
    (split_and!; [by destruct (bd cli (calls w) _)|by eauto|];
     intros Hcli _;
     match goal with
     | |- context [bd cli ?h ?c] => destruct (Hcli h c) as [res ->]
     end; done).
Qed.

Lemma syncSubtaskStatus_returns task w :
  mapper (syncSubtaskStatus task cli w).2 = mapper w ∧
  ((syncSubtaskStatus task cli w).1 = Return () → subtasksMapped (mapper w) task) ∧
  (succeeds cli → subtasksMapped (mapper w) task →
   (syncSubtaskStatus task cli w).1 = Return ()).
Proof.
  unfold syncSubtaskStatus, subtasksMapped.
  destruct (task_subtasks task) as [subtasks|]; simpl;
    [|split_and!; [done|by constructor|done]].
  revert w. induction subtasks as [|s subtasks IH]; intros w.
  { simpl. split_and!; [done|by constructor|done]. }
  rewrite forEach_cons.
  destruct (subtaskBody_returns task s w) as (Hm & Hret & Hok).
  destruct (subtaskBody cli task s w) as [[[]|message] w1]; simpl in *.
  - destruct (IH w1) as (Hm' & Hret' & Hok'). rewrite Hm in *.
    split_and!; [done| |].
    + intros Hr. constructor; [by apply Hret|by apply Hret'].
    + intros Hcli [_ Hall]%Forall_cons. by apply Hok'.
  - split_and!; [done|done|].
    intros Hcli [Hs _]%Forall_cons. by apply Hok.
Qed.

Lemma syncAllStatuses_cons task tasks w :
  syncAllStatuses (task :: tasks) cli w =
  match syncEpicStatus task cli w with
  | (Return _, w1) =>
      match syncSubtaskStatus task cli w1 with
      | (Return _, w2) => syncAllStatuses tasks cli w2
      | (Throw message, w2) => (Throw message, w2)
      end
  | (Throw message, w1) => (Throw message, w1)
  end.
Proof.
  unfold syncAllStatuses. rewrite forEach_cons. unfold bind.
  destruct (syncEpicStatus task cli w) as [[[]|message] w1]; [|done].
  by destruct (syncSubtaskStatus task cli w1) as [[[]|message] w2].
Qed.

Lemma syncAllStatuses_returns tasks w :
  mapper (syncAllStatuses tasks cli w).2 = mapper w ∧
  ((syncAllStatuses tasks cli w).1 = Return () →
   Forall (λ task, epicMapped (mapper w) task ∧ subtasksMapped (mapper w) task)
     tasks) ∧
  (succeeds cli →
   Forall (λ task, epicMapped (mapper w) task ∧ subtasksMapped (mapper w) task)
     tasks →
   (syncAllStatuses tasks cli w).1 = Return ()).
Proof.
  revert w. induction tasks as [|task tasks IH]; intros w.
  { simpl. split_and!; [done|by constructor|done]. }
  rewrite syncAllStatuses_cons.
  destruct (syncEpicStatus_returns task w) as (Hm1 & Hret1 & Hok1).
  destruct (syncEpicStatus task cli w) as [[[]|message] w1]; simpl in *.
  2: { split_and!; [done|done|].
       intros Hcli [[He _] _]%Forall_cons. by apply Hok1. }
  destruct (syncSubtaskStatus_returns task w1) as (Hm2 & Hret2 & Hok2).
  destruct (syncSubtaskStatus task cli w1) as [[[]|message] w2]; simpl in *.
  2: { rewrite Hm1 in *. split_and!; [done|done|].
       intros Hcli [[_ Hs] _]%Forall_cons. by apply Hok2. }
  destruct (IH w2) as (Hm & Hret & Hok). rewrite Hm2, Hm1 in *.
  split_and!; [done| |].
  - intros Hr. constructor; [by auto|by apply Hret].
  - intros Hcli [_ Hall]%Forall_cons. by apply Hok.
Qed.

End statusReturns.

(** X11. Status propagation never touches the mapper, and it fails exactly
    on a missing id: a run of [syncAllStatuses] that returns has found a
    (non-empty) id for every task of the list and for every subtask of
    every task; and with a tracker that carries out every call, it returns
    whenever the mapper has all those ids. *)
Theorem syncAllStatuses_needs_every_id cli tasks w :
  let r := syncAllStatuses tasks cli w in
  mapper r.2 = mapper w ∧
  (r.1 = Return () →
   Forall (λ task, epicMapped (mapper w) task ∧ subtasksMapped (mapper w) task)
     tasks) ∧
  (succeeds cli →
   Forall (λ task, epicMapped (mapper w) task ∧ subtasksMapped (mapper w) task)
     tasks →
   r.1 = Return ()).
Proof. apply syncAllStatuses_returns. Qed.

(** ** The phases in sequence *)

Lemma getEpicId_elem k this b :
  IdMapper.getEpicId k this = Some b →
  ∃ e, e ∈ IdMapper.tasks this ∧ TaskMapping.tmId e = k ∧
       TaskMapping.beadsId e = b.
Proof.
  unfold IdMapper.getEpicId.
  destruct (list_find _ (IdMapper.tasks this)) as [[i e]|] eqn:Hfind; [|done].
  intros [= <-]. apply list_find_Some in Hfind as (Hi & He & _).
  exists e. split_and!; [by eapply list_elem_of_lookup_2|done..].
Qed.

Lemma getSubtaskId_elem t s this x :
  IdMapper.getSubtaskId t s this = Some x →
  ∃ e se, e ∈ IdMapper.tasks this ∧ se ∈ TaskMapping.subtasks e ∧
          SubtaskMapping.beadsId se = x.
Proof.
  unfold IdMapper.getSubtaskId.
  destruct (list_find _ (IdMapper.tasks this)) as [[i e]|] eqn:Hfind; [|done].
  destruct (list_find _ (TaskMapping.subtasks e)) as [[j se]|] eqn:Hsub; [|done].
  intros [= <-]. apply list_find_Some in Hfind as (Hi & _).
  apply list_find_Some in Hsub as (Hj & _).
  exists e, se. split_and!; [by eapply list_elem_of_lookup_2..|done].
Qed.

Lemma zip_with_epicEntry_ids tasks results :
  length results = length tasks →
  TaskMapping.tmId <$> zip_with epicEntry tasks results = task_id <$> tasks.
Proof.
  revert results. induction tasks as [|t tasks IH]; intros [|r results] Hlen;
    simpl in *; try done.
  f_equal. apply IH. lia.
Qed.

(** On an empty mapper, with a tracker that carries out every call and
    names what it creates, [createEpics] returns and leaves every task
    with an epic id. *)
Lemma createEpics_fresh cli tasks w :
  succeeds cli → namesCreated cli → IdMapper.tasks (mapper w) = [] →
  (createEpics tasks cli w).1 = Return () ∧
  calls (createEpics tasks cli w).2 = calls w ++ (epicCall <$> tasks) ∧
  Forall (epicMapped (mapper (createEpics tasks cli w).2)) tasks ∧
  (∀ t s, IdMapper.getSubtaskId t s (mapper (createEpics tasks cli w).2) = None).
Proof.
  intros Hcli Hnames Hnew.
  destruct (createEpics_trace cli tasks w) as (results & Hlen & Hres & Hm & Hr).
  rewrite Hnew in Hm. simpl in Hm.
  destruct (createEpics tasks cli w) as [[[]|message] w1]; simpl in *.
  2: { destruct Hr as (task & _ & Hbd & _).
       destruct (Hcli (calls w ++ (epicCall <$> take (length results) tasks))
                   (epicCall task)) as [? ?]. congruence. }
  destruct Hr as [Hlen' Hc]. split_and!; [done..| |].
  - apply Forall_forall. intros t Ht. unfold epicMapped.
    assert (is_Some (IdMapper.getEpicId (task_id t) (mapper w1))) as [b Hb].
    { apply getEpicId_is_Some. rewrite Hm, zip_with_epicEntry_ids by done.
      apply list_elem_of_fmap. by exists t. }
    rewrite Hb. exists b. unfold truthy. rewrite decide_False; [done|].
    apply getEpicId_elem in Hb as (e & He & _ & <-).
    rewrite Hm in He. apply list_elem_of_lookup in He as [i Hi].
    apply lookup_zip_with_Some in Hi as (t' & result & -> & Ht' & Hi).
    destruct (Hres i result Hi) as (t'' & _ & Hbd).
    apply (Hnames _ _ _ Hbd).
  - intros t s.
    destruct (IdMapper.getSubtaskId t s (mapper w1)) as [x|] eqn:Hx; [|done].
    apply getSubtaskId_elem in Hx as (e & se & He & Hse & _).
    rewrite Hm in He. apply list_elem_of_lookup in He as [i Hi].
    apply lookup_zip_with_Some in Hi as (t' & result & -> & _).
    simpl in Hse. by apply elem_of_nil in Hse.
Qed.

Lemma totalSubtasks_foldl acc tasks :
  foldl (λ s t, s + Z.of_nat (length (default [] (task_subtasks t)))) acc tasks
  = acc + totalSubtasks tasks.
Proof.
  unfold totalSubtasks. revert acc.
  induction tasks as [|t tasks IH]; intros acc; simpl; [lia|].
  rewrite IH, (IH (0 + _)). lia.
Qed.

Lemma totalSubtasks_cons t tasks :
  totalSubtasks (t :: tasks) =
  Z.of_nat (length (default [] (task_subtasks t))) + totalSubtasks tasks.
Proof. unfold totalSubtasks at 1. simpl. by rewrite totalSubtasks_foldl. Qed.

Lemma totalSubtasks_nonneg tasks : 0 ≤ totalSubtasks tasks.
Proof.
  induction tasks as [|t tasks IH]; [done|]. rewrite totalSubtasks_cons. lia.
Qed.

Lemma totalSubtasks_zero tasks t :
  ¬ 0 < totalSubtasks tasks → t ∈ tasks → default [] (task_subtasks t) = [].
Proof.
  induction tasks as [|t' tasks IH]; intros Hz Ht.
  { by apply elem_of_nil in Ht. }
  rewrite totalSubtasks_cons in Hz.
  pose proof (totalSubtasks_nonneg tasks).
  apply elem_of_cons in Ht as [->|Ht].
  - apply length_zero_iff_nil. lia.
  - apply IH; [lia|done].
Qed.

Lemma syncPhases_unfold tasks sortedTasks cli w :
  syncPhases tasks sortedTasks cli w =
  match createEpics sortedTasks cli w with
  | (Return _, w1) =>
      match (if decide (0 < totalSubtasks tasks)
             then createAllChildren sortedTasks cli else ret ()) w1 with
      | (Return _, w2) =>
          match wireAllDependencies tasks cli w2 with
          | (Return depCounts, w3) =>
              match syncAllStatuses tasks cli w3 with
              | (Return _, w4) => (Return depCounts, w4)
              | (Throw message, w4) => (Throw message, w4)
              end
          | (Throw message, w3) => (Throw message, w3)
          end
      | (Throw message, w2) => (Throw message, w2)
      end
  | (Throw message, w1) => (Throw message, w1)
  end.
Proof.
  unfold syncPhases, bind, ret.
  destruct (createEpics sortedTasks cli w) as [[[]|m1] w1]; [|done].
  destruct ((if decide (0 < totalSubtasks tasks)
             then createAllChildren sortedTasks cli else λ w0, (Return (), w0)) w1)
    as [[[]|m2] w2]; [|done].
  destruct (wireAllDependencies tasks cli w2) as [[counts|m3] w3]; [|done].
  by destruct (syncAllStatuses tasks cli w3) as [[[]|m4] w4].
Qed.

Lemma truthy_nonempty x : x ≠ "" → truthy (Some x) = Some x.
Proof. intros Hx. unfold truthy. by rewrite decide_False. Qed.

(** Where the subtask answers of the mapper come from: an answer that the
    creation of children has added is for a subtask it has served. *)
Lemma addSubtask_origin taskTmId subtaskTmId beadsId this t s :
  is_Some (IdMapper.getSubtaskId t s
             (IdMapper.addSubtask taskTmId subtaskTmId beadsId this).2) →
  is_Some (IdMapper.getSubtaskId t s this) ∨ (t = taskTmId ∧ s = subtaskTmId).
Proof.
  destruct (decide (taskTmId ∈ TaskMapping.tmId <$> IdMapper.tasks this))
    as [Hreg|Hreg].
  - destruct (addSubtask_registered taskTmId subtaskTmId beadsId this Hreg)
      as (this' & -> & _ & Hs & _). simpl. rewrite Hs.
    destruct (IdMapper.getSubtaskId t s this); [by left|].
    case_decide; [by right|]. by intros [? ?].
  - destruct (addSubtask_effect taskTmId subtaskTmId beadsId this)
      as (_ & _ & _ & _).
    assert ((IdMapper.addSubtask taskTmId subtaskTmId beadsId this).2 = this) as ->;
      [|by left].
    unfold IdMapper.addSubtask.
    destruct (list_find _ (IdMapper.tasks this)) as [[i e]|] eqn:Hfind; [|done].
    destruct Hreg. apply list_find_Some in Hfind as (Hi & <- & _).
    apply list_elem_of_fmap. exists e. split; [done|].
    by eapply list_elem_of_lookup_2.
Qed.

Lemma forEach_childBody_origin cli task epicId subtasks w t s :
  is_Some (IdMapper.getSubtaskId t s
             (mapper (forEach subtasks (childBody cli task epicId) w).2)) →
  is_Some (IdMapper.getSubtaskId t s (mapper w)) ∨
  (t = task_id task ∧ s ∈ subtask_id <$> subtasks).
Proof.
  revert w. induction subtasks as [|x subtasks IH]; intros w; [by left|].
  rewrite forEach_cons.
  assert (is_Some (IdMapper.getSubtaskId t s
                     (mapper (childBody cli task epicId x w).2)) →
          is_Some (IdMapper.getSubtaskId t s (mapper w)) ∨
          (t = task_id task ∧ s = subtask_id x)) as Hone.
  { unfold childBody, bind, call, withMapper. simpl.
    destruct (bd cli (calls w) _) as [result|message]; simpl; [|by left].
    pose proof (addSubtask_origin (task_id task) (subtask_id x) (id result)
                  (mapper w) t s) as Ho.
    by destruct (IdMapper.addSubtask (task_id task) (subtask_id x) (id result)
                   (mapper w)). }
  destruct (childBody cli task epicId x w) as [[[]|message] w1]; simpl in *.
  - intros [Hold|[-> Hin]]%IH.
    + destruct (Hone Hold) as [?|[-> ->]]; [by left|]. right. split; [done|left].
    + right. split; [done|by right].
  - intros [?|[-> ->]]%Hone; [by left|]. right. split; [done|left].
Qed.

Lemma createAllChildren_origin cli tasks w t s :
  is_Some (IdMapper.getSubtaskId t s (mapper (createAllChildren tasks cli w).2)) →
  is_Some (IdMapper.getSubtaskId t s (mapper w)) ∨
  ∃ task, task ∈ tasks ∧ t = task_id task ∧
    s ∈ subtask_id <$> default [] (task_subtasks task).
Proof.
  revert w. induction tasks as [|task tasks IH]; intros w; [by left|].
  rewrite createAllChildren_cons.
  destruct (truthy (IdMapper.getEpicId (task_id task) (mapper w)))
    as [epicId|]; [|by left].
  assert (is_Some (IdMapper.getSubtaskId t s
                     (mapper (createChildren task epicId cli w).2)) →
          is_Some (IdMapper.getSubtaskId t s (mapper w)) ∨
          (t = task_id task ∧
           s ∈ subtask_id <$> default [] (task_subtasks task))) as Hone.
  { destruct (task_subtasks task) as [[|x subtasks]|] eqn:Hsub.
    - unfold createChildren. rewrite Hsub. by left.
    - rewrite (createChildren_sorted _ _ _ _ _ Hsub).
      intros [?|[-> Hin]]%forEach_childBody_origin; [by left|].
      right. split; [done|]. simpl. by rewrite sort_Permutation in Hin.
    - unfold createChildren. rewrite Hsub. by left. }
  destruct (createChildren task epicId cli w) as [[[]|message] w1];
    simpl in Hone; cbv beta iota.
  - intros [Hold|(task' & Hin & -> & Hs)]%IH.
    + destruct (Hone Hold) as [?|[-> Hs]]; [by left|].
      right. exists task. split; [left|done].
    + right. exists task'. split; [by right|done].
  - simpl. intros [?|[-> Hs]]%Hone; [by left|].
    right. exists task. split; [left|done].
Qed.

(** The two creation phases on an empty mapper, with a tracker that
    carries out every call and names what it creates: both return; every
    task and every subtask has an id afterwards; and the mapper answers
    for no other subtask. *)
Lemma creationPhases_fresh cli tasks sortedTasks w :
  succeeds cli → namesCreated cli → IdMapper.tasks (mapper w) = [] →
  sortedTasks ≡ₚ tasks →
  ∃ w1 w2,
    createEpics sortedTasks cli w = (Return (), w1) ∧
    (if decide (0 < totalSubtasks tasks)
     then createAllChildren sortedTasks cli else ret ()) w1 = (Return (), w2) ∧
    calls w2 =
      calls w ++ (epicCall <$> sortedTasks) ++
      (sortedTasks ≫= λ task,
         childCalls (default "" (IdMapper.getEpicId (task_id task) (mapper w2)))
           task) ∧
    Forall (λ task, epicMapped (mapper w2) task ∧ subtasksMapped (mapper w2) task)
      tasks ∧
    (∀ t s, is_Some (IdMapper.getSubtaskId t s (mapper w2)) →
       ∃ task, task ∈ tasks ∧ t = task_id task ∧
         s ∈ subtask_id <$> default [] (task_subtasks task)).
Proof.
  intros Hcli Hnames Hnew Hperm.
  destruct (createEpics_fresh cli sortedTasks w Hcli Hnames Hnew)
    as (Hr1 & Hc1 & Hepics1 & Hnosub1).
  destruct (createEpics sortedTasks cli w) as [[[]|m1] w1]; [|done].
  simpl in Hc1, Hepics1, Hnosub1. clear Hr1. exists w1.
  assert (∃ w2,
    (if decide (0 < totalSubtasks tasks)
     then createAllChildren sortedTasks cli else ret ()) w1 = (Return (), w2) ∧
    keepsAnswers (mapper w1) (mapper w2) ∧
    calls w2 = calls w1 ++ (sortedTasks ≫= λ task,
      childCalls (default "" (IdMapper.getEpicId (task_id task) (mapper w1))) task) ∧
    Forall (subtasksMapped (mapper w2)) sortedTasks ∧
    (∀ t s, is_Some (IdMapper.getSubtaskId t s (mapper w2)) →
       ∃ task, task ∈ sortedTasks ∧ t = task_id task ∧
         s ∈ subtask_id <$> default [] (task_subtasks task)))
    as (w2 & Hw2 & Hkeep & Hc2 & Hsubs & Horigin).
  { destruct (decide (0 < totalSubtasks tasks)) as [Hpos|Hzero].
    - destruct (createAllChildren_effect cli sortedTasks w1)
        as (Hkeep & Hret & Hok & Hnon).
      specialize (Hok Hcli Hepics1).
      pose proof (createAllChildren_origin cli sortedTasks w1) as Horigin.
      destruct (createAllChildren sortedTasks cli w1) as [[[]|m2] w2]; [|done].
      simpl in *. exists w2. destruct (Hret eq_refl) as (_ & Hc & Hsub).
      split_and!; [done..| |].
      + assert (subtaskIdsNonEmpty (mapper w2)) as Hne.
        { apply Hnon; [done|]. intros t s x Hx. by rewrite Hnosub1 in Hx. }
        eapply Forall_impl; [exact Hsub|]. intros t Ht. unfold subtasksMapped.
        eapply Forall_impl; [exact Ht|]. intros s [x Hx].
        rewrite Hx. exists x. apply truthy_nonempty. by eapply Hne.
      + intros t s [Hold|?]%Horigin; [|done].
        rewrite Hnosub1 in Hold. by destruct Hold.
    - exists w1.
      assert (∀ t, t ∈ sortedTasks → default [] (task_subtasks t) = []) as Hnone.
      { intros t Ht. apply (totalSubtasks_zero tasks); [done|]. by rewrite <- Hperm. }
      split_and!; [done|apply keepsAnswers_refl| | |].
      + assert ((sortedTasks ≫= λ task, childCalls
          (default "" (IdMapper.getEpicId (task_id task) (mapper w1))) task) = [])
          as ->; [|by rewrite app_nil_r].
        clear -Hnone. induction sortedTasks as [|t l IH]; [done|].
        rewrite bind_cons, IH by (intros t' Ht'; apply Hnone; by right).
        unfold childCalls. by rewrite Hnone by left.
      + apply Forall_forall. intros t Ht. unfold subtasksMapped.
        rewrite (Hnone t Ht). constructor.
      + intros t s Hsome. rewrite Hnosub1 in Hsome. by destruct Hsome. }
  exists w2. split_and!; [done|done| | |].
  - rewrite Hc2, Hc1, <- app_assoc. do 2 f_equal.
    apply list_bind_ext; [|done]. intros t. by rewrite (proj1 Hkeep).
  - apply Forall_forall. intros t Ht. rewrite <- Hperm in Ht. split.
    + unfold epicMapped. rewrite (proj1 Hkeep).
      by apply (proj1 (Forall_forall _ _) Hepics1).
    + by apply (proj1 (Forall_forall _ _) Hsubs).
  - intros t s (task & Htask & ? & ?)%Horigin. exists task.
    by rewrite <- Hperm.
Qed.

(** The four phases on an empty mapper, for a task set whose references
    all resolve and a tracker that carries out every call and names what it
    creates: every phase returns. *)
Lemma syncPhases_complete cli tasks sortedTasks w :
  succeeds cli → namesCreated cli → IdMapper.tasks (mapper w) = [] →
  sortedTasks ≡ₚ tasks → referentiallyComplete tasks →
  siblingDependencies tasks →
  ∃ counts wiringEpic wiringSubtask,
    (syncPhases tasks sortedTasks cli w).1 = Return counts ∧
    epicDeps counts = Z.of_nat (length (epicEdges tasks)) ∧
    subtaskDeps counts = Z.of_nat (length (subtaskEdges tasks)) ∧
    Forall (λ task,
        epicMapped (mapper (syncPhases tasks sortedTasks cli w).2) task ∧
        subtasksMapped (mapper (syncPhases tasks sortedTasks cli w).2) task)
      tasks ∧
    calls (syncPhases tasks sortedTasks cli w).2 =
      calls w ++ (epicCall <$> sortedTasks) ++
      (sortedTasks ≫= λ task,
         childCalls
           (default "" (IdMapper.getEpicId (task_id task)
              (mapper (syncPhases tasks sortedTasks cli w).2))) task) ++
      wiringEpic ++ wiringSubtask ++
      (tasks ≫= entityCalls (mapper (syncPhases tasks sortedTasks cli w).2)) ∧
    Forall2 (λ e c,
        epicEdgeCall (mapper (syncPhases tasks sortedTasks cli w).2) e = Some c)
      (epicEdges tasks) wiringEpic ∧
    Forall2 (λ e c,
        subtaskEdgeCall (mapper (syncPhases tasks sortedTasks cli w).2) e = Some c)
      (subtaskEdges tasks) wiringSubtask.
Proof.
  intros Hcli Hnames Hnew Hperm Hcomplete Hsib.
  rewrite syncPhases_unfold.
  destruct (creationPhases_fresh cli tasks sortedTasks w Hcli Hnames Hnew Hperm)
    as (w1 & w2 & -> & -> & Hc2 & Hall & _).
  rewrite Forall_forall in Hall.
  (* the wiring *)
  destruct (wireAllDependencies_effect cli tasks w2 Hcli) as [Hiff Hwired].
  destruct (proj2 Hiff) as [counts Hcounts].
  { split; apply Forall_forall.
    - intros [a d] (t & (d' & [= -> ->] & Hd)%list_elem_of_fmap & Ht)%list_elem_of_bind.
      destruct (Hall t Ht) as [[b Hb] _].
      assert (d' ∈ task_id <$> tasks) as (t' & -> & Ht')%list_elem_of_fmap
        by (by eapply Hcomplete).
      destruct (Hall t' Ht') as [[b' Hb'] _].
      unfold epicEdgeCall. simpl. rewrite Hb. simpl. rewrite Hb'. by eexists.
    - intros [[a s0] d]
        (t & (s & (d' & [= -> -> ->] & Hd)%list_elem_of_fmap & Hs)
               %list_elem_of_bind & Ht)%list_elem_of_bind.
      destruct (Hall t Ht) as [_ Hsubt]. unfold subtasksMapped in Hsubt.
      rewrite Forall_forall in Hsubt.
      destruct (Hsubt s Hs) as [b Hb].
      assert (d' ∈ subtask_id <$> default [] (task_subtasks t))
        as (s' & -> & Hs')%list_elem_of_fmap by (by eapply Hsib).
      destruct (Hsubt s' Hs') as [b' Hb'].
      unfold subtaskEdgeCall. simpl. rewrite Hb. simpl. rewrite Hb'. by eexists. }
  destruct (wireAllDependencies tasks cli w2) as [[counts'|m3] w3]; [|done].
  simpl in Hcounts, Hwired. injection Hcounts as ->.
  destruct (Hwired counts eq_refl)
    as (Hm3 & HcE & HcS & wiringEpic & wiringSubtask & Hc3 & HfE & HfS).
  (* the statuses *)
  destruct (syncAllStatuses_returns cli tasks w3) as (Hm4 & _ & Hok4).
  assert ((syncAllStatuses tasks cli w3).1 = Return ()) as Hr4.
  { apply Hok4; [done|]. rewrite Hm3. by apply Forall_forall. }
  destruct (syncAllStatuses_calls cli tasks w3 Hr4) as [_ Hc4].
  destruct (syncAllStatuses tasks cli w3) as [[[]|m4] w4]; simpl in *; [|done].
  exists counts, wiringEpic, wiringSubtask.
  rewrite Hm4, Hm3. split_and!; [done..|by apply Forall_forall| |done|done].
  by rewrite Hc4, Hc3, Hc2, Hm3, <- !app_assoc.
Qed.

(** ** The [sync] command *)

Lemma validateCircularDependencies_valid tasks r :
  validateCircularDependencies tasks = Some r → valid r = true →
  r = {| valid := true; errors := [] |}.
Proof.
  destruct (validateCircularDependencies_graph tasks) as (errs & -> & _).
  intros [= <-]. simpl. intros Hv%bool_decide_eq_true.
  apply length_zero_iff_nil in Hv. by subst errs.
Qed.

(** A store that [load] hands back was read from a file that exists. *)
Lemma load_Return_exists filePath fs store :
  IdMapper.load filePath fs = Return store →
  IdMapper.exists_ filePath fs = true.
Proof.
  unfold IdMapper.load, IdMapper.exists_. intros Hload.
  apply bool_decide_eq_true.
  by destruct (documents fs !! filePath).
Qed.

(** A run that stops before the phases: nothing issued, nothing written. *)
Local Ltac stopped :=
  intros [= <-]; cbn [termination files issued];
  split_and!;
    [by intros [?|?]|done|intros ? [= <-]; auto|try done; by intros [= ?]|done].

Lemma syncAction_cases options isInit parsed now cli fs run :
  syncAction options isInit parsed now cli fs = Some run →
  (issued run ≠ [] ∨ termination run = Finished →
     isInit = true ∧ Options.dryRun options = false ∧
     (IdMapper.exists_ (Options.mapFile options) fs = true →
      Options.force options = true ∨ Options.resume options = true) ∧
     ∃ tasks sorted, parsed = Return tasks ∧
       valid (validateDependencyIds tasks) = true ∧
       validateCircularDependencies tasks =
         Some {| valid := true; errors := [] |} ∧
       TopologicalSort.topologicalSort tasks = Some (Return sorted)) ∧
  (termination run ≠ Finished → files run = fs) ∧
  (∀ code, termination run = Exit code → code = 0 ∨ code = 1) ∧
  (termination run = Exit 0 →
     Options.dryRun options = true ∧ issued run = []) ∧
  (termination run = Finished →
     ∃ this,
       IdMapper.save (Options.mapFile options) now this fs = Return (files run) ∧
       IdMapper.load (Options.mapFile options) (files run) =
         Return (IdMapper.Mapping this)).
Proof.
  unfold syncAction. cbv zeta.
  destruct isInit; cbn [negb]; cbv iota; [|stopped].
  destruct (IdMapper.exists_ (Options.mapFile options) fs &&
            negb (Options.force options) && negb (Options.resume options))
    eqn:Hidem; [stopped|].
  destruct (if Options.resume options &&
               IdMapper.exists_ (Options.mapFile options) fs
            then IdMapper.load (Options.mapFile options) fs
            else Return (IdMapper.Mapping IdMapper.new)) as [store|m0]; [|stopped].
  destruct parsed as [tasks|mp]; [|stopped].
  destruct (valid (validateDependencyIds tasks)) eqn:Hdep;
    cbn [negb]; cbv iota; [|stopped].
  destruct (validateCircularDependencies_graph tasks) as (errs & Hcirc & _).
  pose proof (validateCircularDependencies_valid tasks _ Hcirc) as Hcv.
  rewrite Hcirc. cbn [valid] in *.
  destruct (bool_decide (length errs = 0%nat)) eqn:Hvalid;
    cbn [negb]; cbv iota; [|stopped].
  specialize (Hcv eq_refl). injection Hcv as ->.
  destruct (TopologicalSort.topologicalSort tasks) as [[sorted|ms]|] eqn:Hsorted;
    [|stopped|done].
  destruct (Options.dryRun options) eqn:Hdry; [stopped|].
  destruct store as [mapper0|unchecked]; [|done].
  assert (IdMapper.exists_ (Options.mapFile options) fs = true →
          Options.force options = true ∨ Options.resume options = true) as Hcover.
  { intros Hex. rewrite Hex in Hidem.
    destruct (Options.force options), (Options.resume options); auto. }
  destruct (syncPhases tasks (TopologicalSort.task <$> sorted) cli
              {| mapper := mapper0; calls := [] |}) as [[counts|message] w].
  - destruct (IdMapper.save (Options.mapFile options) now (mapper w) fs)
      as [fs'|message] eqn:Hsave.
    + intros [= <-]. cbn [termination files issued].
      split_and!; [|done|done|done|].
      * intros _. split_and!; [done..|]. by exists tasks, sorted.
      * intros _. exists (mapper w). split; [done|]. by eapply load_save.
    + intros [= <-]. cbn [termination files issued].
      split_and!; [|done|intros ? [= <-]; auto|done|done].
      intros _. split_and!; [done..|]. by exists tasks, sorted.
  - intros [= <-]. cbn [termination files issued].
    split_and!; [|done|intros ? [= <-]; auto|done|done].
    intros _. split_and!; [done..|]. by exists tasks, sorted.
Qed.

(** The runs the embedding does not follow to their end: those that start
    the phases on a store taken unchecked from a document that is no
    mapping file. *)
Lemma syncAction_None options isInit parsed now cli fs :
  syncAction options isInit parsed now cli fs = None ↔
  isInit = true ∧ Options.resume options = true ∧
  Options.dryRun options = false ∧
  (∃ value, IdMapper.load (Options.mapFile options) fs =
              Return (IdMapper.Unchecked value)) ∧
  ∃ tasks sorted, parsed = Return tasks ∧
    valid (validateDependencyIds tasks) = true ∧
    validateCircularDependencies tasks = Some {| valid := true; errors := [] |} ∧
    TopologicalSort.topologicalSort tasks = Some (Return sorted).
Proof.
  split.
  - unfold syncAction. cbv zeta.
    destruct isInit; cbn [negb]; cbv iota; [|done].
    destruct (IdMapper.exists_ (Options.mapFile options) fs &&
              negb (Options.force options) && negb (Options.resume options));
      [done|].
    destruct (Options.resume options &&
              IdMapper.exists_ (Options.mapFile options) fs) eqn:Hresume.
    2: { destruct parsed as [tasks|mp]; [|done].
         destruct (valid (validateDependencyIds tasks)); cbn [negb]; cbv iota;
           [|done].
         destruct (validateCircularDependencies_graph tasks) as (errs & -> & _).
         cbn [valid]. destruct (bool_decide (length errs = 0%nat));
           cbn [negb]; cbv iota; [|done].
         pose proof (TopologicalSortFacts.topologicalSort_cases tasks) as Hsort.
         destruct (TopologicalSort.topologicalSort tasks) as [[sorted|ms]|];
           [|done|done].
         destruct (Options.dryRun options); [done|].
         destruct (syncPhases _ _ _ _) as [[counts|message] w]; [|done].
         by destruct (IdMapper.save _ _ _ _). }
    apply andb_true_iff in Hresume as [Hresume _].
    destruct (IdMapper.load (Options.mapFile options) fs) as [store|m0]; [|done].
    destruct parsed as [tasks|mp]; [|done].
    destruct (valid (validateDependencyIds tasks)) eqn:Hdep; cbn [negb]; cbv iota;
      [|done].
    destruct (validateCircularDependencies_graph tasks) as (errs & Hcirc & _).
    pose proof (validateCircularDependencies_valid tasks _ Hcirc) as Hcv.
    rewrite Hcirc. cbn [valid] in *.
    destruct (bool_decide (length errs = 0%nat)); cbn [negb]; cbv iota; [|done].
    specialize (Hcv eq_refl). injection Hcv as ->.
    pose proof (TopologicalSortFacts.topologicalSort_cases tasks) as Hsort.
    destruct (TopologicalSort.topologicalSort tasks) as [[sorted|ms]|] eqn:Hsorted;
      [|done|done].
    destruct (Options.dryRun options); [done|].
    destruct store as [mapper0|value].
    { destruct (syncPhases _ _ _ _) as [[counts|message] w]; [|done].
      by destruct (IdMapper.save _ _ _ _). }
    intros _. split_and!; [done..|by exists value|by exists tasks, sorted].
  - intros (-> & Hresume & Hdry & [value Hload] & tasks & sorted & -> & Hdep &
            Hcirc & Hsorted).
    unfold syncAction. cbv zeta. cbn [negb]. cbv iota.
    rewrite (load_Return_exists _ _ _ Hload), Hresume, Hload.
    rewrite andb_false_r. cbn [andb]. cbv iota.
    rewrite Hdep, Hcirc. cbn [valid negb]. cbv iota.
    by rewrite Hsorted, Hdry.
Qed.

(** X12. The guards of the [sync] command. [load] checks nothing: the
    store it hands back is of the declared type exactly when the document
    holds under [tasks] the JSON value that [save] writes for a store. The
    embedding follows every run to its end but one kind: a run with
    [--resume] that passes the guards and starts the phases on a store
    taken from any other document. A run issues a call to the tracker, or runs
    to its end, only when Beads is initialised, the run is not a dry run,
    an existing mapping file is covered by [--force] or [--resume], the
    task file was parsed, both validators accept the tasks and the sort
    returns. The files are changed only by a run that reaches its end, and
    then only by the write of [save] under the mapping path, from where the
    store loads back; every other run exits with code 0 (the dry run, which
    issues no call) or 1 and leaves the files alone. *)
Theorem syncAction_guards options isInit parsed now cli fs :
  (∀ this,
     IdMapper.load (Options.mapFile options) fs = Return (IdMapper.Mapping this) ↔
     ∃ data, documents fs !! Options.mapFile options = Some data ∧
       property "tasks" data =
         Some (JArray (taskToJSON <$> IdMapper.tasks this))) ∧
  (syncAction options isInit parsed now cli fs = None ↔
   isInit = true ∧ Options.resume options = true ∧
   Options.dryRun options = false ∧
   (∃ value, IdMapper.load (Options.mapFile options) fs =
               Return (IdMapper.Unchecked value)) ∧
   ∃ tasks sorted, parsed = Return tasks ∧
     valid (validateDependencyIds tasks) = true ∧
     validateCircularDependencies tasks = Some {| valid := true; errors := [] |} ∧
     TopologicalSort.topologicalSort tasks = Some (Return sorted)) ∧
  (∀ run, syncAction options isInit parsed now cli fs = Some run →
    (issued run ≠ [] ∨ termination run = Finished →
       isInit = true ∧ Options.dryRun options = false ∧
       (IdMapper.exists_ (Options.mapFile options) fs = true →
        Options.force options = true ∨ Options.resume options = true) ∧
       ∃ tasks sorted, parsed = Return tasks ∧
         valid (validateDependencyIds tasks) = true ∧
         validateCircularDependencies tasks =
           Some {| valid := true; errors := [] |} ∧
         TopologicalSort.topologicalSort tasks = Some (Return sorted)) ∧
    (termination run ≠ Finished → files run = fs) ∧
    (∀ code, termination run = Exit code → code = 0 ∨ code = 1) ∧
    (termination run = Exit 0 →
       Options.dryRun options = true ∧ issued run = []) ∧
    (termination run = Finished →
       ∃ this,
         IdMapper.save (Options.mapFile options) now this fs = Return (files run) ∧
         IdMapper.load (Options.mapFile options) (files run) =
           Return (IdMapper.Mapping this))).
Proof.
  split_and!; [intros this; apply load_Mapping|apply syncAction_None|].
  intros run. apply syncAction_cases.
Qed.

Lemma exists_save filePath now this fs fs' :
  IdMapper.save filePath now this fs = Return fs' →
  IdMapper.exists_ filePath fs' = true.
Proof.
  intros Hsave. pose proof (save_cases filePath now this fs) as H.
  rewrite Hsave in H. destruct H as (_ & Hdoc & _).
  unfold IdMapper.exists_. apply bool_decide_eq_true.
  rewrite Hdoc, lookup_insert_eq. by eexists.
Qed.

(** X13. A completed synchronisation is not repeated by accident: the
    mapping file a finished run has written makes every later run on the
    same mapping path that has neither [--force] nor [--resume] stop with
    exit code 1, before any call to the tracker and without touching the
    files, whatever the task file holds. *)
Theorem syncAction_refuses_repeat options isInit parsed now cli fs run
    options' isInit' parsed' now' cli' :
  syncAction options isInit parsed now cli fs = Some run →
  termination run = Finished →
  Options.mapFile options' = Options.mapFile options →
  Options.force options' = false →
  Options.resume options' = false →
  syncAction options' isInit' parsed' now' cli' (files run) =
    Some {| termination := Exit 1; files := files run; issued := [] |}.
Proof.
  intros Hrun Hfin Hpath Hforce Hresume.
  destruct (syncAction_cases options isInit parsed now cli fs run Hrun)
    as (_ & _ & _ & _ & Hsaved).
  destruct (Hsaved Hfin) as (this & Hfiles & _).
  unfold syncAction. destruct isInit'; [|done]. cbn [negb]. cbv iota zeta.
  by rewrite Hpath, (exists_save _ _ _ _ _ Hfiles), Hforce, Hresume.
Qed.

Lemma syncAction_refuses_repeat_witness :
  ∃ run,
    syncAction defaultOptions true (Return scenarioF) "2026-01-01T00:00:00.000Z"
      mockCli ∅ = Some run ∧
    termination run = Finished ∧
    syncAction defaultOptions true (Return scenarioF) "2026-01-02T00:00:00.000Z"
      mockCli (files run) =
      Some {| termination := Exit 1; files := files run; issued := [] |}.
Proof.
  eexists. split; [vm_compute; reflexivity|]. split; [reflexivity|].
  eapply (syncAction_refuses_repeat defaultOptions true (Return scenarioF)
            "2026-01-01T00:00:00.000Z" mockCli ∅);
    [vm_compute; reflexivity|reflexivity..].
Defined.

Lemma mockCli_namesCreated : namesCreated mockCli.
Proof. intros history c result. destruct c; simpl; by intros [= <-]. Qed.

(** X14. A fresh synchronisation of a validated project runs through all
    its phases. Take a tracker that carries out every call and names what
    it creates, Beads initialised, no dry run, and either no mapping file
    or [--force] without [--resume]; take tasks with unique ids that both
    validators accept and whose subtask dependencies name sibling subtasks.
    Then the action issues, in this order, one epic creation per task in
    sorted order, the child creations of each task in sorted order, one
    [bd dep add] per dependency edge among tasks and then per edge among
    subtasks, and the status calls of every task in input order; the
    mapper answers by then, with a non-empty id, for every task and every
    subtask. When the platform accepts the write of the mapping file the
    action finishes, and the file it has written loads back as that
    mapper. When the platform rejects the write the action exits with code
    1 after all these calls and leaves the files as they were. *)
Theorem syncAction_completes options now cli fs tasks :
  succeeds cli → namesCreated cli →
  Options.dryRun options = false →
  (IdMapper.exists_ (Options.mapFile options) fs = true →
   Options.force options = true ∧ Options.resume options = false) →
  uniqueIds tasks →
  valid (validateDependencyIds tasks) = true →
  validateCircularDependencies tasks = Some {| valid := true; errors := [] |} →
  siblingDependencies tasks →
  ∃ run sorted this wiringEpic wiringSubtask,
    syncAction options true (Return tasks) now cli fs = Some run ∧
    match rejected fs !! Options.mapFile options with
    | None =>
        termination run = Finished ∧
        IdMapper.save (Options.mapFile options) now this fs = Return (files run) ∧
        IdMapper.load (Options.mapFile options) (files run) =
          Return (IdMapper.Mapping this)
    | Some _ => termination run = Exit 1 ∧ files run = fs
    end ∧
    TopologicalSort.topologicalSort tasks = Some (Return sorted) ∧
    Forall (λ task, epicMapped this task ∧ subtasksMapped this task) tasks ∧
    issued run =
      (epicCall <$> (TopologicalSort.task <$> sorted)) ++
      ((TopologicalSort.task <$> sorted) ≫= λ task,
         childCalls (default "" (IdMapper.getEpicId (task_id task) this)) task) ++
      wiringEpic ++ wiringSubtask ++ (tasks ≫= entityCalls this) ∧
    Forall2 (λ e c, epicEdgeCall this e = Some c) (epicEdges tasks) wiringEpic ∧
    Forall2 (λ e c, subtaskEdgeCall this e = Some c)
      (subtaskEdges tasks) wiringSubtask.
Proof.
  intros Hcli Hnames Hdry Hfresh Huniq Hdep Hcirc Hsib.
  pose proof (proj1 (validateDependencyIds_valid tasks) Hdep) as Hcomplete.
  assert (acyclic tasks) as Hacyclic.
  { destruct (validateCircularDependencies_graph tasks) as (errs & Hc & Hexact).
    rewrite Hcirc in Hc. injection Hc as _ <-.
    intros a Ha. apply (proj1 Hexact eq_refl a). by apply tc_dependsOn_depends. }
  destruct (TopologicalSortFacts.topologicalSort_returns tasks Hacyclic Hcomplete)
    as [sorted Hsorted].
  assert (TopologicalSort.task <$> sorted ≡ₚ tasks) as Hperm.
  { destruct (TopologicalSortFacts.topologicalSort_output tasks sorted Hsorted)
      as (st & HI & Hall & Hp & _).
    rewrite Hp. by eapply TopologicalSortFacts.sorted_tasks_Permutation. }
  destruct (syncPhases_complete cli tasks (TopologicalSort.task <$> sorted)
              {| mapper := IdMapper.new; calls := [] |}
              Hcli Hnames eq_refl Hperm Hcomplete Hsib)
    as (counts & wiringEpic & wiringSubtask & Hr & _ & _ & Hall & Hc & HfE & HfS).
  assert ((Options.resume options &&
           IdMapper.exists_ (Options.mapFile options) fs) = false) as Hload.
  { destruct (IdMapper.exists_ (Options.mapFile options) fs);
      [|by rewrite andb_false_r].
    destruct (Hfresh eq_refl) as [_ ->]. done. }
  assert ((IdMapper.exists_ (Options.mapFile options) fs &&
           negb (Options.force options) && negb (Options.resume options)) = false)
    as Hidem.
  { destruct (IdMapper.exists_ (Options.mapFile options) fs); [|done].
    destruct (Hfresh eq_refl) as [-> _]. done. }
  unfold syncAction. cbv zeta. cbn [negb]. cbv iota.
  rewrite Hidem, Hload, Hdep, Hcirc. cbn [valid negb]. cbv iota.
  rewrite Hsorted, Hdry.
  destruct (syncPhases tasks (TopologicalSort.task <$> sorted) cli
              {| mapper := IdMapper.new; calls := [] |})
    as [[counts'|message] w]; [|done].
  cbn [fst snd calls] in *.
  pose proof (save_cases (Options.mapFile options) now (mapper w) fs) as Hsave.
  destruct (IdMapper.save (Options.mapFile options) now (mapper w) fs)
    as [fs'|rejection] eqn:Hsaved.
  - destruct Hsave as (-> & _).
    eexists _, sorted, (mapper w), wiringEpic, wiringSubtask.
    split; [reflexivity|]. cbn [termination files issued].
    split_and!; [done|done|by eapply load_save|done..].
  - rewrite Hsave.
    eexists _, sorted, (mapper w), wiringEpic, wiringSubtask.
    split; [reflexivity|]. cbn [termination files issued].
    split_and!; done.
Qed.

Lemma scenarioF_siblingDependencies : siblingDependencies scenarioF.
Proof.
  intros task subtask d Htask Hsub Hd. unfold scenarioF in Htask.
  apply elem_of_cons in Htask as [->|Htask]; [by apply elem_of_nil in Hsub|].
  apply list_elem_of_singleton in Htask as ->. simpl in *.
  apply elem_of_cons in Hsub as [->|Hsub]; [by apply elem_of_nil in Hd|].
  apply list_elem_of_singleton in Hsub as ->. simpl in Hd.
  apply list_elem_of_singleton in Hd as ->. left.
Qed.

Lemma syncAction_completes_witness :
  ∃ run sorted this wiringEpic wiringSubtask,
    syncAction defaultOptions true (Return scenarioF) "2026-01-01T00:00:00.000Z"
      mockCli ∅ = Some run ∧
    match rejected ∅ !! Options.mapFile defaultOptions with
    | None =>
        termination run = Finished ∧
        IdMapper.save (Options.mapFile defaultOptions)
          "2026-01-01T00:00:00.000Z" this ∅ = Return (files run) ∧
        IdMapper.load (Options.mapFile defaultOptions) (files run) =
          Return (IdMapper.Mapping this)
    | Some _ => termination run = Exit 1 ∧ files run = ∅
    end ∧
    TopologicalSort.topologicalSort scenarioF = Some (Return sorted) ∧
    Forall (λ task, epicMapped this task ∧ subtasksMapped this task) scenarioF ∧
    issued run =
      (epicCall <$> (TopologicalSort.task <$> sorted)) ++
      ((TopologicalSort.task <$> sorted) ≫= λ task,
         childCalls (default "" (IdMapper.getEpicId (task_id task) this)) task) ++
      wiringEpic ++ wiringSubtask ++ (scenarioF ≫= entityCalls this) ∧
    Forall2 (λ e c, epicEdgeCall this e = Some c) (epicEdges scenarioF) wiringEpic ∧
    Forall2 (λ e c, subtaskEdgeCall this e = Some c)
      (subtaskEdges scenarioF) wiringSubtask.
Proof.
  apply (syncAction_completes defaultOptions "2026-01-01T00:00:00.000Z"
           mockCli ∅ scenarioF).
  - apply mockCli_succeeds.
  - apply mockCli_namesCreated.
  - reflexivity.
  - vm_compute. discriminate.
  - unfold uniqueIds. simpl. repeat (constructor; [set_solver|]). constructor.
  - vm_compute. reflexivity.
  - vm_compute. reflexivity.
  - apply scenarioF_siblingDependencies.
Defined.

(** When the mapping file cannot be written, the run of [scenarioF] issues
    its calls, exits with code 1 and leaves the files as they were. *)
Example sync_rejected_write :
  ∃ run,
    syncAction defaultOptions true (Return scenarioF) "2026-01-01T00:00:00.000Z"
      mockCli readOnlyFiles = Some run ∧
    termination run = Exit 1 ∧ files run = readOnlyFiles ∧
    length (issued run) = 9%nat.
Proof.
  eexists. split; [vm_compute; reflexivity|].
  split_and!; reflexivity.
Qed.

(** [load] takes a document that is no mapping file as it is. A run with
    [--resume] on such a file still stops at the guards that come after
    [load]; only the phases on the unchecked store are not followed. *)
Example sync_unchecked_resume :
  IdMapper.load "./tm2bd-map.json" strayFiles =
    Return (IdMapper.Unchecked (Some (JArray [JObject [("tmId", JNumber 5)]]))) ∧
  syncAction resumeOptions true (Throw "ENOENT") "2026-01-01T00:00:00.000Z"
    mockCli strayFiles =
    Some {| termination := Exit 1; files := strayFiles; issued := [] |} ∧
  syncAction resumeOptions true (Return scenarioB) "2026-01-01T00:00:00.000Z"
    mockCli strayFiles =
    Some {| termination := Exit 1; files := strayFiles; issued := [] |} ∧
  syncAction resumeOptions true (Return scenarioF) "2026-01-01T00:00:00.000Z"
    mockCli strayFiles = None.
Proof. split_and!; vm_compute; reflexivity. Qed.

(** ** Tag-wrapped task files *)

Lemma unwrapTaggedFormat_cases raw :
  unwrapTaggedFormat raw = raw ∨
  ∃ tag inner, raw = JObject [(tag, JObject inner)] ∧ tag ≠ "tasks" ∧
    hasTasks (JObject inner) = true ∧
    unwrapTaggedFormat raw = JObject inner.
Proof.
  destruct raw as [| | | | |properties]; try by left.
  unfold unwrapTaggedFormat.
  destruct (hasTasks (JObject properties)) eqn:Hraw; [by left|].
  destruct properties as [|[key v] [|p properties]]; try by left.
  simpl. rewrite decide_True by done.
  destruct v as [| | | | |inner]; try by left.
  destruct (hasTasks (JObject inner)) eqn:Hinner; [|by left].
  right. exists key, inner. split_and!; [done| |done..].
  intros ->. by vm_compute in Hraw.
Qed.

(** X15. [unwrapTaggedFormat] goes down at most one level and only into a
    lone tag. A document that has a [tasks] property is returned as it
    is. A document is replaced by something else only when it is an
    object with exactly one property, not named [tasks], whose value is an
    object with a [tasks] property; it is then replaced by that value,
    whatever the tag is called. So an object with two or more tags, or a
    tag nested below another, is handed on unchanged; the result has a
    [tasks] property exactly in the two accepting cases; and unwrapping
    twice is unwrapping once. *)
Theorem unwrapTaggedFormat_spec raw :
  (hasTasks raw = true → unwrapTaggedFormat raw = raw) ∧
  (∀ tag inner, tag ≠ "tasks" → hasTasks (JObject inner) = true →
     unwrapTaggedFormat (JObject [(tag, JObject inner)]) = JObject inner) ∧
  (unwrapTaggedFormat raw ≠ raw →
     ∃ tag inner, raw = JObject [(tag, JObject inner)] ∧ tag ≠ "tasks" ∧
       hasTasks (JObject inner) = true ∧
       unwrapTaggedFormat raw = JObject inner) ∧
  (hasTasks (unwrapTaggedFormat raw) = true ↔
     hasTasks raw = true ∨
     ∃ tag inner, raw = JObject [(tag, JObject inner)] ∧
       hasTasks (JObject inner) = true) ∧
  unwrapTaggedFormat (unwrapTaggedFormat raw) = unwrapTaggedFormat raw.
Proof.
  assert (∀ j, hasTasks j = true → unwrapTaggedFormat j = j) as Hkeep.
  { intros j Hj. destruct j; try done. unfold unwrapTaggedFormat. by rewrite Hj. }
  assert (∀ tag inner, tag ≠ "tasks" → hasTasks (JObject inner) = true →
     unwrapTaggedFormat (JObject [(tag, JObject inner)]) = JObject inner) as Hlone.
  { intros tag inner Htag Hinner. unfold unwrapTaggedFormat.
    assert (hasTasks (JObject [(tag, JObject inner)]) = false) as ->.
    { unfold hasTasks. simpl. rewrite decide_False by done.
      apply bool_decide_eq_false. by intros [? ?]. }
    simpl. rewrite decide_True by done. by rewrite Hinner. }
  split_and!; [apply Hkeep|apply Hlone| | |].
  - intros Hne. destruct (unwrapTaggedFormat_cases raw) as [?|H]; [done|].
    destruct H as (tag & inner & ? & ? & ? & ?). by exists tag, inner.
  - split.
    + intros Hr. destruct (unwrapTaggedFormat_cases raw)
        as [Heq|(tag & inner & -> & _ & Hi & _)].
      * left. by rewrite Heq in Hr.
      * right. by exists tag, inner.
    + intros [Hr|(tag & inner & -> & Hi)]; [by rewrite Hkeep|].
      destruct (decide (tag = "tasks")) as [->|Htag].
      * by rewrite Hkeep.
      * by rewrite Hlone.
  - destruct (unwrapTaggedFormat_cases raw)
      as [Heq|(tag & inner & _ & _ & Hi & ->)]; [by rewrite !Heq|].
    by apply Hkeep.
Qed.

(** ** Task lists that repeat an id *)

Lemma taskMap_last tasks k t :
  taskMap tasks !! k = Some t →
  ∃ pre post, tasks = pre ++ t :: post ∧ k ∉ task_id <$> post.
Proof.
  induction tasks as [|t' tasks IH] using rev_ind; [done|].
  rewrite taskMap_snoc. destruct (decide (task_id t' = k)) as [<-|Hne].
  - rewrite lookup_insert_eq. intros [= <-].
    exists tasks, []. split; [done|]. apply not_elem_of_nil.
  - rewrite lookup_insert_ne by done. intros (pre & post & -> & Hpost)%IH.
    exists pre, (post ++ [t']). split; [by rewrite <- app_assoc|].
    rewrite fmap_app. intros [?|Hin%list_elem_of_singleton]%elem_of_app; done.
Qed.

(** X16. Neither the validators nor the sort reject a task list that
    repeats an id; the sort keeps, for each id, only the last task of the
    list that carries it. A returned order has every id of the input
    exactly once, so it is shorter than an input with a repeated id, and
    each of its tasks is the last one of the input with its id. *)
Theorem topologicalSort_last_duplicate_wins tasks out :
  TopologicalSort.topologicalSort tasks = Some (Return out) →
  NoDup ((task_id ∘ TopologicalSort.task) <$> out) ∧
  (∀ k, k ∈ (task_id ∘ TopologicalSort.task) <$> out ↔ k ∈ task_id <$> tasks) ∧
  (∀ s, s ∈ out →
     ∃ pre post, tasks = pre ++ TopologicalSort.task s :: post ∧
       task_id (TopologicalSort.task s) ∉ task_id <$> post) ∧
  (length out ≤ length tasks)%nat ∧
  (length out = length tasks ↔ uniqueIds tasks).
Proof.
  intros Hret.
  destruct (TopologicalSortFacts.topologicalSort_output tasks out Hret)
    as (st & HI & Hall & Hperm & _).
  assert (NoDup ((task_id ∘ TopologicalSort.task) <$> out)) as Hnd.
  { rewrite Hperm. apply (SortInvariant.inv_nodup _ _ HI). }
  assert (∀ k, k ∈ (task_id ∘ TopologicalSort.task) <$> out ↔
               k ∈ task_id <$> tasks) as Hids.
  { intros k. rewrite Hperm.
    assert (list_to_set ((task_id ∘ TopologicalSort.task) <$>
                           TopologicalSort.sorted st)
            = (list_to_set (task_id <$> tasks) : gset Z)) as Hset.
    { by rewrite (SortInvariant.inv_ids _ _ HI), Hall, taskMap_dom. }
    split; intros Hk.
    - apply (elem_of_list_to_set (C := gset Z)). rewrite <- Hset.
      by apply elem_of_list_to_set.
    - apply (elem_of_list_to_set (C := gset Z)). rewrite Hset.
      by apply elem_of_list_to_set. }
  assert (length out ≤ length tasks)%nat as Hlen.
  { rewrite <- (length_fmap (task_id ∘ TopologicalSort.task) out),
            <- (length_fmap task_id tasks).
    apply submseteq_length, NoDup_submseteq; [done|]. intros k. apply Hids. }
  split_and!; [done|done| |done|].
  - intros s Hs. rewrite Hperm in Hs.
    destruct (SortInvariant.inv_sorted _ _ HI s Hs) as [Htm _].
    by apply taskMap_last.
  - split.
    + intros Heq. unfold uniqueIds.
      assert ((task_id ∘ TopologicalSort.task) <$> out ⊆+ task_id <$> tasks) as Hsub.
      { apply NoDup_submseteq; [done|]. intros k. apply Hids. }
      apply submseteq_length_Permutation in Hsub.
      * by rewrite <- Hsub.
      * rewrite !length_fmap. lia.
    + intros Huniq.
      rewrite <- (length_fmap (task_id ∘ TopologicalSort.task) out),
              <- (length_fmap task_id tasks).
      apply Permutation_length, NoDup_Permutation; [done|done|apply Hids].
Qed.

Lemma topologicalSort_last_duplicate_wins_witness :
  ∃ out,
    TopologicalSort.topologicalSort scenarioDup = Some (Return out) ∧
    TopologicalSort.task <$> out = [makeTask 1 []; makeTask 2 []] ∧
    NoDup ((task_id ∘ TopologicalSort.task) <$> out) ∧
    (∀ k, k ∈ (task_id ∘ TopologicalSort.task) <$> out ↔
          k ∈ task_id <$> scenarioDup) ∧
    (∀ s, s ∈ out →
       ∃ pre post, scenarioDup = pre ++ TopologicalSort.task s :: post ∧
         task_id (TopologicalSort.task s) ∉ task_id <$> post) ∧
    (length out ≤ length scenarioDup)%nat ∧
    (length out = length scenarioDup ↔ uniqueIds scenarioDup).
Proof.
  eexists. split; [vm_compute; reflexivity|]. split; [vm_compute; reflexivity|].
  apply (topologicalSort_last_duplicate_wins scenarioDup).
  vm_compute. reflexivity.
Defined.

(** ** The gateway *)

Lemma formatEpicDescription_nonempty task : formatEpicDescription task ≠ "".
Proof.
  unfold formatEpicDescription.
  destruct (truthy (task_details task)), (truthy (task_testStrategy task)),
    (task_complexity task) as [c|]; simpl; try case_decide; simpl; discriminate.
Qed.

Lemma formatChildDescription_empty subtask :
  formatChildDescription subtask = "" ↔
  subtask_description subtask = "" ∧ truthy (subtask_details subtask) = None.
Proof.
  unfold formatChildDescription.
  destruct (truthy (subtask_details subtask)) as [details|]; simpl.
  - split; [|by intros [_ ?]].
    intros [_ Habs]%append_nil_inv. simpl in Habs. discriminate.
  - split; [done|by intros [? _]].
Qed.

(** X17. The command lines of the gateway. Two different calls never
    produce the same argument vector, so what is asked of the tracker can
    be read back from the command line. The description flag is passed
    exactly when the description is not empty: always for an epic, whose
    composed description is never empty, and for a child unless the
    subtask has an empty description and no (non-empty) details. *)
Theorem argv_unambiguous :
  (∀ c c', argv c = argv c' → c = c') ∧
  (∀ task,
     argv (epicCall task) =
       ["create"; task_title task; "-t"; "epic"; "-p";
        pretty (mapPriority (task_priority task)); "--json";
        "-d"; formatEpicDescription task]) ∧
  (∀ epicId subtask,
     argv (CreateChild epicId (subtask_title subtask)
             (formatChildDescription subtask)) =
       if decide (subtask_description subtask = "" ∧
                  truthy (subtask_details subtask) = None)
       then ["create"; subtask_title subtask; "--parent"; epicId; "--json"]
       else ["create"; subtask_title subtask; "--parent"; epicId; "--json";
             "-d"; formatChildDescription subtask]).
Proof.
  split_and!.
  - intros c c' Heq.
    destruct c, c'; simpl in Heq;
      unfold createEpicArgs, createChildArgs, addDependencyArgs,
        updateStatusArgs, closeArgs in Heq;
      repeat case_decide; simplify_eq/=; try done;
      f_equal; by apply (inj pretty).
  - intros task. unfold epicCall. simpl. unfold createEpicArgs.
    by rewrite decide_False by apply formatEpicDescription_nonempty.
  - intros epicId subtask. simpl. unfold createChildArgs.
    destruct (decide (subtask_description subtask = "" ∧
                      truthy (subtask_details subtask) = None)) as [He|He].
    + by rewrite decide_True by (by apply formatChildDescription_empty).
    + rewrite decide_False; [done|]. by rewrite formatChildDescription_empty.
Qed.

(** X18. What the gateway accepts as the answer to a creation. The
    answer is accepted exactly when it is JSON text for a value with an
    [id] property that is a non-empty string; the result then carries that
    id, and as title the answer's [title] property, with the empty string
    in place of a missing or [null] one. So an accepted answer never has an
    empty id and never a [null] title. Every other answer makes the call
    throw. *)
Theorem parseCreateOutput_accepts parse output :
  (∀ result, parseCreateOutput parse output = Return result ↔
     ∃ obj, parse output = Some obj ∧
       property "id" obj = Some (JString (parsed_id result)) ∧
       parsed_id result ≠ "" ∧
       parsed_title result =
         match property "title" obj with
         | None | Some JNull => JString ""
         | Some t => t
         end) ∧
  (∀ result, parseCreateOutput parse output = Return result →
     parsed_id result ≠ "" ∧ parsed_title result ≠ JNull) ∧
  ((∀ obj i, parse output = Some obj → property "id" obj = Some (JString i) →
      i = "") →
   ∃ message, parseCreateOutput parse output = Throw message).
Proof.
  assert (∀ result, parseCreateOutput parse output = Return result ↔
     ∃ obj, parse output = Some obj ∧
       property "id" obj = Some (JString (parsed_id result)) ∧
       parsed_id result ≠ "" ∧
       parsed_title result =
         match property "title" obj with
         | None | Some JNull => JString ""
         | Some t => t
         end) as Hiff.
  { intros result. unfold parseCreateOutput. split.
    - destruct (parse output) as [obj|]; [|done]. intros Hret. exists obj.
      destruct obj as [| | | | |properties]; try done. simpl in *.
      destruct (assoc "id" properties) as [[| | |i| |]|]; try done.
      destruct (decide (i = "")); [done|]. by injection Hret as <-.
    - intros (obj & -> & Hid & Hne & Htitle).
      destruct obj as [| | | | |properties]; try done. simpl in *.
      rewrite Hid, decide_False by done. destruct result. simpl in *.
      by rewrite Htitle. }
  split_and!; [done| |].
  - intros result (obj & _ & _ & Hne & Htitle)%Hiff. split; [done|].
    rewrite Htitle. by destruct (property "title" obj) as [[]|].
  - intros Hnone. destruct (parseCreateOutput parse output) as [result|message]
      eqn:Hret; [|by eexists].
    destruct (proj1 (Hiff result) eq_refl) as (obj & Hobj & Hid & Hne & _).
    by destruct (Hnone obj _ Hobj Hid).
Qed.

(** ** What each phase may ask of the tracker *)

Section issues.
Context (P : BdCall → Prop).

Lemma issues_ret {A} (a : A) : issues P (ret a).
Proof. intros w. exists []. simpl. by rewrite app_nil_r. Qed.

Lemma issues_throw {A} message : issues P (throw (A := A) message).
Proof. intros w. exists []. simpl. by rewrite app_nil_r. Qed.

Lemma issues_readMapper {A} (f : IdMapper.t → A) : issues P (readMapper f).
Proof. intros w. exists []. simpl. by rewrite app_nil_r. Qed.

Lemma issues_withMapper {A} (f : IdMapper.t → outcome A * IdMapper.t) :
  issues P (withMapper f).
Proof.
  intros w. exists []. unfold withMapper. destruct (f (mapper w)). simpl.
  by rewrite app_nil_r.
Qed.

Lemma issues_call cli c : P c → issues P (call cli c).
Proof. intros Hc w. exists [c]. simpl. split; [done|]. by constructor. Qed.

Lemma issues_bind {A B} (m : Sync A) (k : A → Sync B) :
  issues P m → (∀ a, issues P (k a)) → issues P (bind m k).
Proof.
  intros Hm Hk w. unfold bind. destruct (Hm w) as (new1 & Hc1 & HP1).
  destruct (m w) as [[a|message] w1]; simpl in *; [|by exists new1].
  destruct (Hk a w1) as (new2 & Hc2 & HP2).
  exists (new1 ++ new2). split; [by rewrite Hc2, Hc1, app_assoc|].
  by apply Forall_app.
Qed.

Lemma issues_forEach {A} (l : list A) (body : A → Sync unit) :
  (∀ x, x ∈ l → issues P (body x)) → issues P (forEach l body).
Proof.
  induction l as [|x l IH]; intros Hbody; simpl; [apply issues_ret|].
  apply issues_bind; [apply Hbody; left|].
  intros _. apply IH. intros y Hy. apply Hbody. by right.
Qed.

Lemma issues_forEachCounting {A} (l : list A) (body : A → Z → Sync Z) count :
  (∀ x c, x ∈ l → issues P (body x c)) → issues P (forEachCounting l body count).
Proof.
  revert count. induction l as [|x l IH]; intros count Hbody; simpl;
    [apply issues_ret|].
  apply issues_bind; [apply Hbody; left|].
  intros count'. apply IH. intros y c Hy. apply Hbody. by right.
Qed.

End issues.

Lemma createEpics_issues cli tasks :
  issues (λ c, ∃ task, task ∈ tasks ∧ c = epicCall task)
    (createEpics tasks cli).
Proof.
  unfold createEpics. apply issues_forEach. intros task Htask.
  apply issues_bind; [|intros; apply issues_ret].
  unfold createEpic. apply issues_bind; [apply issues_call; by exists task|].
  intros result. apply issues_bind; [apply issues_withMapper|].
  intros. apply issues_ret.
Qed.

Lemma createAllChildren_issues cli tasks :
  issues (λ c, ∃ parentId title description,
              c = CreateChild parentId title description ∧ parentId ≠ "")
    (createAllChildren tasks cli).
Proof.
  unfold createAllChildren. apply issues_forEach. intros task _.
  apply issues_bind; [apply issues_readMapper|]. intros epicId.
  destruct (truthy epicId) as [parentId|] eqn:Hparent; [|apply issues_throw].
  apply truthy_Some in Hparent as [_ Hne].
  unfold createChildren.
  destruct (task_subtasks task) as [[|s subtasks]|]; try apply issues_ret.
  apply issues_forEach. intros subtask _. unfold childBody.
  apply issues_bind; [apply issues_call; by eexists _, _, _|].
  intros result. apply issues_withMapper.
Qed.

Lemma wireAllDependencies_issues cli tasks :
  issues (λ c, ∃ blockedId blockingId,
              c = AddDependency blockedId blockingId ∧
              blockedId ≠ "" ∧ blockingId ≠ "")
    (wireAllDependencies tasks cli).
Proof.
  unfold wireAllDependencies.
  apply issues_bind; [|intros epicDeps; apply issues_bind;
                        [|intros; apply issues_ret]].
  + unfold wireEpicDependencies. apply issues_forEachCounting.
    intros task count _. unfold epicDependenciesOf.
    case_decide; [apply issues_ret|].
    apply issues_bind; [apply issues_readMapper|]. intros blocked.
    destruct (truthy blocked) as [blockedId|] eqn:Hblocked; [|apply issues_throw].
    apply truthy_Some in Hblocked as [_ Hne].
    apply issues_forEachCounting. intros depId count' _.
    unfold epicDependencyBody.
    apply issues_bind; [apply issues_readMapper|]. intros blocking.
    destruct (truthy blocking) as [blockingId|] eqn:Hblocking;
      [|apply issues_throw].
    apply truthy_Some in Hblocking as [_ Hne'].
    apply issues_bind; [apply issues_call; by eexists _, _|].
    intros. apply issues_ret.
  + unfold wireSubtaskDependencies. apply issues_forEachCounting.
    intros task count _. unfold subtaskDependenciesIn.
    destruct (task_subtasks task) as [subtasks|]; [|apply issues_ret].
    apply issues_forEachCounting. intros subtask count' _.
    unfold subtaskDependenciesOf.
    destruct (subtask_dependencies subtask) as [[|d deps]|];
      try apply issues_ret.
    apply issues_bind; [apply issues_readMapper|]. intros blocked.
    destruct (truthy blocked) as [blockedId|] eqn:Hblocked; [|apply issues_throw].
    apply truthy_Some in Hblocked as [_ Hne].
    apply issues_forEachCounting. intros depId count'' _.
    unfold subtaskDependencyBody.
    apply issues_bind; [apply issues_readMapper|]. intros blocking.
    destruct (truthy blocking) as [blockingId|] eqn:Hblocking;
      [|apply issues_throw].
    apply truthy_Some in Hblocking as [_ Hne'].
    apply issues_bind; [apply issues_call; by eexists _, _|].
    intros. apply issues_ret.
Qed.

Lemma syncAllStatuses_issues cli tasks :
  issues statusCallOn (syncAllStatuses tasks cli).
Proof.
  assert (∀ (found : option string) (s : TaskMasterStatus) message,
    issues statusCallOn
      (match truthy found with
       | None => throw message
       | Some issueId =>
           let a := mapStatus (status_literal s) in
           if sa_close a then _ <-- call cli (Close issueId) ;; ret ()
           else
             match truthy (sa_status a) with
             | Some status =>
                 _ <-- call cli (UpdateStatus issueId status) ;; ret ()
             | None => ret ()
             end
       end)) as Hentity.
  { intros found s message.
    destruct (truthy found) as [issueId|] eqn:Hfound; [|apply issues_throw].
    apply truthy_Some in Hfound as [_ Hne].
    cbv zeta. rewrite mapStatus_literal.
    destruct s; simpl; try apply issues_ret;
      (apply issues_bind; [apply issues_call|intros; apply issues_ret]);
      exists issueId; (split; [done|]);
      first [by left | right; eexists; split; [done|set_solver]]. }
  unfold syncAllStatuses. apply issues_forEach. intros task _.
  apply issues_bind.
  + unfold syncEpicStatus. apply issues_bind; [apply issues_readMapper|].
    intros epicId. apply Hentity.
  + intros _. unfold syncSubtaskStatus.
    destruct (task_subtasks task) as [subtasks|]; [|apply issues_ret].
    apply issues_forEach. intros subtask _. unfold subtaskBody.
    apply issues_bind; [apply issues_readMapper|].
    intros subtaskId. apply Hentity.
Qed.

(** X19. Each phase asks of the tracker only what is its own to ask, and
    never names an issue by an empty id, in whatever state the mapper is
    and however the run ends. [createEpics] issues only the epic creation
    of a task of its list; [createAllChildren] only child creations under
    a non-empty parent id; [wireAllDependencies] only [bd dep add] between
    two non-empty ids; [syncAllStatuses] only a close of, or an update to
    "in_progress", "deferred" or "blocked" of, an issue with a non-empty
    id. *)
Theorem phases_issue_their_own_calls cli tasks :
  issues (λ c, ∃ task, task ∈ tasks ∧ c = epicCall task)
    (createEpics tasks cli) ∧
  issues (λ c, ∃ parentId title description,
              c = CreateChild parentId title description ∧ parentId ≠ "")
    (createAllChildren tasks cli) ∧
  issues (λ c, ∃ blockedId blockingId,
              c = AddDependency blockedId blockingId ∧
              blockedId ≠ "" ∧ blockingId ≠ "")
    (wireAllDependencies tasks cli) ∧
  issues statusCallOn (syncAllStatuses tasks cli).
Proof.
  split_and!.
  - apply createEpics_issues.
  - apply createAllChildren_issues.
  - apply wireAllDependencies_issues.
  - apply syncAllStatuses_issues.
Qed.

(** ** A run that reaches its end *)


Lemma issues_grows {A} P (m : Sync A) w :
  issues P m → ∃ new, calls (m w).2 = calls w ++ new.
Proof. intros Hm. destruct (Hm w) as (new & Hc & _). by exists new. Qed.



(** ** Subtask dependencies are not validated *)

(** X21. A dependency of a subtask on an id that no subtask of the same
    task has is caught by neither validator, and it makes a fresh run fail
    late. Under the conditions of a fresh run (a tracker that carries out
    every call and names what it creates, Beads initialised, no dry run, no
    mapping file or [--force] without [--resume], unique task ids, both
    validators accepting), such a dependency makes the action exit with
    code 1 in the wiring phase: by then it has created an epic for every
    task and a child for every subtask, and it leaves the files as they
    were, so the ids of what it created are not saved. *)
Theorem syncAction_dangling_subtask_dependency options now cli fs tasks :
  succeeds cli → namesCreated cli →
  Options.dryRun options = false →
  (IdMapper.exists_ (Options.mapFile options) fs = true →
   Options.force options = true ∧ Options.resume options = false) →
  uniqueIds tasks →
  valid (validateDependencyIds tasks) = true →
  validateCircularDependencies tasks = Some {| valid := true; errors := [] |} →
  danglingSubtaskDependency tasks →
  ∃ run sorted this rest,
    syncAction options true (Return tasks) now cli fs = Some run ∧
    termination run = Exit 1 ∧
    files run = fs ∧
    TopologicalSort.topologicalSort tasks = Some (Return sorted) ∧
    Forall (λ task, epicMapped this task ∧ subtasksMapped this task) tasks ∧
    issued run =
      (epicCall <$> (TopologicalSort.task <$> sorted)) ++
      ((TopologicalSort.task <$> sorted) ≫= λ task,
         childCalls (default "" (IdMapper.getEpicId (task_id task) this)) task) ++
      rest.
Proof.
  intros Hcli Hnames Hdry Hfresh Huniq Hdep Hcirc
    (task & subtask & d & Htask & Hsubtask & Hd & Hdangling).
  pose proof (proj1 (validateDependencyIds_valid tasks) Hdep) as Hcomplete.
  assert (acyclic tasks) as Hacyclic.
  { destruct (validateCircularDependencies_graph tasks) as (errs & Hc & Hexact).
    rewrite Hcirc in Hc. injection Hc as _ <-.
    intros a Ha. apply (proj1 Hexact eq_refl a). by apply tc_dependsOn_depends. }
  destruct (TopologicalSortFacts.topologicalSort_returns tasks Hacyclic Hcomplete)
    as [sorted Hsorted].
  assert (TopologicalSort.task <$> sorted ≡ₚ tasks) as Hperm.
  { destruct (TopologicalSortFacts.topologicalSort_output tasks sorted Hsorted)
      as (st & HI & Hall & Hp & _).
    rewrite Hp. by eapply TopologicalSortFacts.sorted_tasks_Permutation. }
  set (sortedTasks := TopologicalSort.task <$> sorted) in *.
  set (w0 := {| mapper := IdMapper.new; calls := [] |}).
  destruct (creationPhases_fresh cli tasks sortedTasks w0 Hcli Hnames eq_refl Hperm)
    as (w1 & w2 & Hw1 & Hw2 & Hc2 & Hall & Horigin).
  (* the wiring cannot resolve the dangling edge *)
  assert (∃ message w3 rest,
    wireAllDependencies tasks cli w2 = (Throw message, w3) ∧
    calls w3 = calls w2 ++ rest) as (message & w3 & rest & Hwire & Hc3).
  { destruct (wireAllDependencies_effect cli tasks w2 Hcli) as [Hiff _].
    destruct (issues_grows _ _ w2 (wireAllDependencies_issues cli tasks))
      as (rest & Hrest).
    destruct (wireAllDependencies tasks cli w2) as [[counts|message] w3];
      [|by exists message, w3, rest].
    exfalso. destruct (proj1 Hiff) as [_ Hsub]; [by eexists|].
    rewrite Forall_forall in Hsub.
    destruct (Hsub (task_id task, subtask_id subtask, d)) as [c Hcall].
    { apply list_elem_of_bind. exists task. split; [|done].
      apply list_elem_of_bind. exists subtask. split; [|done].
      apply list_elem_of_fmap. by exists d. }
    unfold subtaskEdgeCall in Hcall. simpl in Hcall.
    destruct (truthy (IdMapper.getSubtaskId (task_id task) (subtask_id subtask)
                        (mapper w2))) as [blockedId|]; [|done].
    simpl in Hcall.
    destruct (truthy (IdMapper.getSubtaskId (task_id task) d (mapper w2)))
      as [blockingId|] eqn:Hblocking; [|done].
    apply truthy_Some in Hblocking as [Hsome _].
    destruct (Horigin (task_id task) d) as (task' & Htask' & Hid & Hin);
      [by eexists|].
    assert (task' = task) as ->.
    { pose proof (taskMap_lookup tasks task Huniq Htask) as H1.
      pose proof (taskMap_lookup tasks task' Huniq Htask') as H2.
      rewrite <- Hid in H2. congruence. }
    done. }
  assert ((Options.resume options &&
           IdMapper.exists_ (Options.mapFile options) fs) = false) as Hload.
  { destruct (IdMapper.exists_ (Options.mapFile options) fs);
      [|by rewrite andb_false_r].
    destruct (Hfresh eq_refl) as [_ ->]. done. }
  assert ((IdMapper.exists_ (Options.mapFile options) fs &&
           negb (Options.force options) && negb (Options.resume options)) = false)
    as Hidem.
  { destruct (IdMapper.exists_ (Options.mapFile options) fs); [|done].
    destruct (Hfresh eq_refl) as [-> _]. done. }
  unfold syncAction. cbv zeta. cbn [negb]. cbv iota.
  rewrite Hidem, Hload, Hdep, Hcirc. cbn [valid negb]. cbv iota.
  rewrite Hsorted, Hdry. fold sortedTasks. fold w0.
  rewrite syncPhases_unfold, Hw1, Hw2, Hwire.
  eexists _, sorted, (mapper w2), rest. split; [reflexivity|].
  cbn [termination files issued calls].
  split_and!; [done..|]. by rewrite Hc3, Hc2, <- !app_assoc.
Qed.

Lemma syncAction_dangling_subtask_dependency_witness :
  ∃ run sorted this rest,
    syncAction defaultOptions true (Return scenarioG) "2026-01-01T00:00:00.000Z"
      mockCli ∅ = Some run ∧
    termination run = Exit 1 ∧
    files run = ∅ ∧
    TopologicalSort.topologicalSort scenarioG = Some (Return sorted) ∧
    Forall (λ task, epicMapped this task ∧ subtasksMapped this task) scenarioG ∧
    issued run =
      (epicCall <$> (TopologicalSort.task <$> sorted)) ++
      ((TopologicalSort.task <$> sorted) ≫= λ task,
         childCalls (default "" (IdMapper.getEpicId (task_id task) this)) task) ++
      rest.
Proof.
  apply syncAction_dangling_subtask_dependency.
  - apply mockCli_succeeds.
  - apply mockCli_namesCreated.
  - reflexivity.
  - vm_compute. discriminate.
  - unfold uniqueIds. simpl. repeat (constructor; [set_solver|]). constructor.
  - vm_compute. reflexivity.
  - vm_compute. reflexivity.
  - exists (withSubtasks [dependingOn [7] (makeSubtask 1 pending)] (makeTask 1 [])),
      (dependingOn [7] (makeSubtask 1 pending)), 7.
    simpl. split_and!; [set_solver..|].
    intros Hin%list_elem_of_singleton. done.
Defined.
